(** * FinPull: a shallow embedding of the realtime ingest core

    The Go sources embedded here are
    - [internal/services/features/extractor.go] (log returns, realized volatility),
    - the [ratelimit] package (token bucket),
    - the [cache] package ([MemoryCache]),
    - the [middleware] package ([RealtimePipeline]),
    - [pkg/kafka]: the consumer worker, its backoff and the hook chain.

    Conventions.  A Go [int], [int64] or [time.Duration] is a [Z]; where the
    source can overflow the 64-bit wrap-around is written out.  A
    [time.Time] is the number of nanoseconds since the zero instant.  A
    [float64] is a carrier [F] with the operations of [Float64Ops]; the
    theorems are stated over the real numbers (rounding, NaN and infinities
    are outside that instance) and the same definitions run on IEEE binary64
    through the second instance. *)

From Stdlib Require Import ZArith Reals Lra Lia Floats Bool.
From stdpp Require Import gmap strings list pretty.

(* ===================================================================== *)
(** ** float64 *)
(* ===================================================================== *)

Module Float64.

Class Float64Ops (F : Type) := {
  f_of_int : Z -> F;            (* float64(n) and integer literals *)
  f_add : F -> F -> F;
  f_sub : F -> F -> F;
  f_mul : F -> F -> F;
  f_div : F -> F -> F;
  f_ltb : F -> F -> bool;       (* x < y  *)
  f_leb : F -> F -> bool;       (* x <= y *)
  f_sqrt : F -> F;              (* math.Sqrt *)
  f_log : F -> F;               (* math.Log  *)
}.

Definition f_zero {F} `{Float64Ops F} : F := f_of_int 0.
Definition f_one {F} `{Float64Ops F} : F := f_of_int 1.
(* x > y and x >= y are Go's mirrored comparisons. *)
Definition f_gtb {F} `{Float64Ops F} (x y : F) : bool := f_ltb y x.
Definition f_geb {F} `{Float64Ops F} (x y : F) : bool := f_leb y x.

(** The idealised instance: exact real arithmetic. *)
Definition Rltb (x y : R) : bool := if Rlt_dec x y then true else false.
Definition Rleb (x y : R) : bool := if Rle_dec x y then true else false.

#[export] Instance real_ops : Float64Ops R := {|
  f_of_int := IZR;
  f_add := Rplus; f_sub := Rminus; f_mul := Rmult; f_div := Rdiv;
  f_ltb := Rltb; f_leb := Rleb;
  f_sqrt := R_sqrt.sqrt; f_log := ln |}.

(** The machine instance: IEEE 754 binary64, round to nearest even, no fused
    multiply-add.  [math.Log] is a library routine, so it stays a
    parameter of the instance. *)
Definition float_of_int (z : Z) : float :=
  if (0 <=? z)%Z then PrimFloat.of_uint63 (Uint63.of_Z z)
  else PrimFloat.opp (PrimFloat.of_uint63 (Uint63.of_Z (- z))).

Definition binary64_ops (log : float -> float) : Float64Ops float := {|
  f_of_int := float_of_int;
  f_add := PrimFloat.add; f_sub := PrimFloat.sub;
  f_mul := PrimFloat.mul; f_div := PrimFloat.div;
  f_ltb := PrimFloat.ltb; f_leb := PrimFloat.leb;
  f_sqrt := PrimFloat.sqrt; f_log := log |}.

Lemma Rltb_true (x y : R) : Rltb x y = true <-> (x < y)%R.
Proof. unfold Rltb. destruct (Rlt_dec x y); split; (congruence || tauto). Qed.

Lemma Rltb_false (x y : R) : Rltb x y = false <-> (y <= x)%R.
Proof.
  unfold Rltb. destruct (Rlt_dec x y); split; try congruence; try lra.
Qed.

Lemma Rleb_true (x y : R) : Rleb x y = true <-> (x <= y)%R.
Proof. unfold Rleb. destruct (Rle_dec x y); split; (congruence || tauto). Qed.

Lemma Rleb_false (x y : R) : Rleb x y = false <-> (y < x)%R.
Proof.
  unfold Rleb. destruct (Rle_dec x y); split; try congruence; try lra.
Qed.

End Float64.
Import Float64.

Declare Scope f64_scope.
Delimit Scope f64_scope with f64.
Infix "+" := f_add : f64_scope.
Infix "-" := f_sub : f64_scope.
Infix "*" := f_mul : f64_scope.
Infix "/" := f_div : f64_scope.
Infix "<?" := f_ltb : f64_scope.
Infix "<=?" := f_leb : f64_scope.
Infix ">?" := f_gtb : f64_scope.
Infix ">=?" := f_geb : f64_scope.

(* ===================================================================== *)
(** ** time.Time and time.Duration *)
(* ===================================================================== *)

Module GoTime.

(** Nanoseconds; [Duration] is an int64, [Instant] counts from the zero
    [time.Time]. *)
Definition Duration := Z.
Definition Instant := Z.
Bind Scope Z_scope with Duration Instant.

Definition Nanosecond : Duration := 1%Z.
Definition Millisecond : Duration := 1000000%Z.
Definition Second : Duration := 1000000000%Z.

Definition minDuration : Duration := (- 2 ^ 63)%Z.
Definition maxDuration : Duration := (2 ^ 63 - 1)%Z.

(** int64 arithmetic wraps. *)
Definition wrap64 (z : Z) : Z := ((z + 2 ^ 63) mod 2 ^ 64 - 2 ^ 63)%Z.

(** [t.Sub(u)]: the difference, saturated to the range of a Duration. *)
Definition Sub (t u : Instant) : Duration :=
  let d := (t - u)%Z in
  if (d <? minDuration)%Z then minDuration
  else if (maxDuration <? d)%Z then maxDuration else d.

(** [t.IsZero()]. *)
Definition IsZero (t : Instant) : bool := (t =? 0)%Z.

(** [d.Seconds()]: whole seconds plus the fractional part, the division and
    remainder truncating as Go's do. *)
Definition Seconds {F} `{Float64Ops F} (d : Duration) : F :=
  let sec := Z.quot d Second in
  let nsec := Z.rem d Second in
  (f_of_int sec + f_of_int nsec / f_of_int 1000000000)%f64.

Lemma wrap64_small (z : Z) :
  (- 2 ^ 63 <= z < 2 ^ 63)%Z -> wrap64 z = z.
Proof.
  intros Hz. unfold wrap64.
  rewrite Z.mod_small by lia. lia.
Qed.

Lemma Sub_exact (t u : Instant) :
  (minDuration <= t - u <= maxDuration)%Z -> Sub t u = (t - u)%Z.
Proof.
  intros [Hlo Hhi]. unfold Sub.
  destruct (Z.ltb_spec (t - u) minDuration); [lia|].
  destruct (Z.ltb_spec maxDuration (t - u)); [lia|]. reflexivity.
Qed.

Lemma Seconds_real (d : Duration) :
  Seconds (F:=R) d = (IZR d / 1000000000)%R.
Proof.
  unfold Seconds, Second. cbn.
  rewrite (Z.quot_rem' d 1000000000) at 3.
  rewrite plus_IZR, mult_IZR. field.
Qed.

Definition Minute : Duration := (60 * Second)%Z.

(** [t.Truncate(d)]: [t] rounded down to a multiple of [d] since the zero
    time; [t] itself when [d] is not positive. *)
Definition Truncate (t : Instant) (d : Duration) : Instant :=
  if (d <=? 0)%Z then t else (t - t mod d)%Z.

Lemma Truncate_div (t : Instant) (d : Duration) :
  (0 < d)%Z -> Truncate t d = (d * (t / d))%Z.
Proof.
  intros Hd. unfold Truncate. destruct (Z.leb_spec d 0); [lia|].
  rewrite Z.mod_eq by lia. lia.
Qed.

Lemma Truncate_multiple (t : Instant) (d : Duration) :
  (0 < d)%Z ->
  (d | Truncate t d)%Z /\ (Truncate t d <= t < Truncate t d + d)%Z.
Proof.
  intros Hd. split.
  - rewrite Truncate_div by exact Hd. exists (t / d)%Z. lia.
  - unfold Truncate. destruct (Z.leb_spec d 0); [lia|].
    pose proof (Z.mod_pos_bound t d Hd). lia.
Qed.

Lemma Truncate_fixed (t : Instant) (d : Duration) :
  (d | t)%Z -> Truncate t d = t.
Proof.
  intros [q ->]. unfold Truncate. destruct (Z.leb_spec d 0); [reflexivity|].
  rewrite Z.mod_mul by lia. lia.
Qed.

Lemma Truncate_mono (t u : Instant) (d : Duration) :
  (t <= u)%Z -> (Truncate t d <= Truncate u d)%Z.
Proof.
  intros Htu. destruct (Z.leb_spec d 0) as [Hd|Hd].
  - unfold Truncate. destruct (Z.leb_spec d 0); [exact Htu|lia].
  - rewrite !Truncate_div by exact Hd.
    apply Z.mul_le_mono_nonneg_l; [lia|]. apply Z.div_le_mono; lia.
Qed.

(** [t.Unix()] and [t.UnixNano()]: seconds and nanoseconds since 1970, the
    latter an int64. *)
Definition unixToInternal : Z := 62135596800%Z.
Definition Unix (t : Instant) : Z := (t / Second - unixToInternal)%Z.
Definition UnixNano (t : Instant) : Z := wrap64 (t - unixToInternal * Second)%Z.

End GoTime.

(* ===================================================================== *)
(** ** internal/services/features/extractor.go *)
(* ===================================================================== *)

Module Features.
Import GoTime.

Section Generic.
Context {F : Type} {ops : Float64Ops F}.

(** [models.Candle]. *)
Record Candle := mkCandle {
  Bucket : Instant;
  Symbol : string;
  Open : F; High : F; Low : F; Close : F; Volume : F;
  OrgID : string }.

Definition zeroCandle : Candle :=
  mkCandle 0%Z "" f_zero f_zero f_zero f_zero f_zero "".

(** One turn of the loop of [ComputeLogReturns], at index [i]. *)
Definition logReturnStep (candles : list Candle) (out : list F) (i : nat) : list F :=
  let prev := Close (nth (i - 1) candles zeroCandle) in
  let cur := Close (nth i candles zeroCandle) in
  if (prev <=? f_zero)%f64 || (cur <=? f_zero)%f64
  then out ++ [f_zero]
  else out ++ [f_log (cur / prev)%f64].

(** [ComputeLogReturns]: [nil] below two candles, else the loop over
    [i = 1 .. len-1] appending to [out]. *)
Definition ComputeLogReturns (candles : list Candle) : list F :=
  if (length candles <? 2)%nat then []
  else fold_left (logReturnStep candles) (seq 1 (length candles - 1)) [].

(** The accumulation of [sum] and [sum2] at index [i]. *)
Definition volStep (logReturns : list F) (acc : F * F) (i : nat) : F * F :=
  let r := nth i logReturns f_zero in
  (fst acc + r, snd acc + r * r)%f64.

(** [RealizedVolatility]. *)
Definition RealizedVolatility (logReturns : list F) (window : Z) (barsPerYear : F) : F :=
  if (window <=? 1)%Z || (Z.of_nat (length logReturns) <? window)%Z then f_zero
  else
    let w := Z.to_nat window in
    let '(sum, sum2) :=
      fold_left (volStep logReturns) (seq (length logReturns - w) w) (f_zero, f_zero) in
    let n := f_of_int window in
    let mean := (sum / n)%f64 in
    let variance := ((sum2 - n * mean * mean) / (n - f_one))%f64 in
    let variance := if (variance <? f_zero)%f64 then f_zero else variance in
    f_sqrt (variance * barsPerYear)%f64.

(** [BarsPerYearForTF]. *)
Definition BarsPerYearForTF (tf : string) : F :=
  if String.eqb tf "1s" then f_of_int (365 * 24 * 60 * 60)
  else if String.eqb tf "1m" then f_of_int (365 * 24 * 60)
  else if String.eqb tf "5m" then f_of_int (365 * 24 * 12)
  else f_of_int (365 * 24 * 60).

(** *** Properties that hold for every arithmetic *)

Lemma logReturns_fold_length (candles : list Candle) (idx : list nat) (out : list F) :
  length (fold_left (logReturnStep candles) idx out) = (length out + length idx)%nat.
Proof.
  revert out. induction idx as [|i idx IH]; intros out; simpl.
  - lia.
  - rewrite IH. unfold logReturnStep.
    destruct (_ || _); rewrite length_app; simpl; lia.
Qed.

Lemma ComputeLogReturns_length (candles : list Candle) :
  length (ComputeLogReturns candles) = (length candles - 1)%nat.
Proof.
  unfold ComputeLogReturns.
  destruct (Nat.ltb_spec (length candles) 2) as [Hlt|Hge].
  - simpl. lia.
  - rewrite logReturns_fold_length, length_seq. simpl. lia.
Qed.

(** The loop appends, so what is already in [out] stays where it is. *)
Lemma logReturns_fold_app (candles : list Candle) (idx : list nat) (out : list F) :
  fold_left (logReturnStep candles) idx out =
  out ++ fold_left (logReturnStep candles) idx [].
Proof.
  revert out. induction idx as [|i idx IH]; intros out; simpl.
  - now rewrite app_nil_r.
  - rewrite IH. rewrite (IH (logReturnStep candles [] i)).
    unfold logReturnStep. destruct (_ || _); simpl; now rewrite <- app_assoc.
Qed.

(** Element [k] of the loop's output over [a, a+1, ...] is the step at
    index [a + k]. *)
Lemma logReturns_fold_nth (candles : list Candle) (n a k : nat) :
  (k < n)%nat ->
  nth k (fold_left (logReturnStep candles) (seq a n) []) f_zero =
  nth 0 (logReturnStep candles [] (a + k)) f_zero.
Proof.
  revert a k. induction n as [|n IH]; intros a k Hk; [lia|].
  simpl. rewrite logReturns_fold_app.
  assert (Hlen : length (logReturnStep candles [] a) = 1%nat).
  { unfold logReturnStep. destruct (_ || _); reflexivity. }
  destruct k as [|k].
  - rewrite app_nth1 by lia. now rewrite Nat.add_0_r.
  - rewrite app_nth2 by lia. rewrite Hlen.
    replace (S k - 1)%nat with k by lia.
    rewrite IH by lia. f_equal. f_equal. lia.
Qed.

Lemma ComputeLogReturns_nth (candles : list Candle) (k : nat) :
  (S k < length candles)%nat ->
  nth k (ComputeLogReturns candles) f_zero =
  let prev := Close (nth k candles zeroCandle) in
  let cur := Close (nth (S k) candles zeroCandle) in
  if (prev <=? f_zero)%f64 || (cur <=? f_zero)%f64 then f_zero
  else f_log (cur / prev)%f64.
Proof.
  intros Hk. unfold ComputeLogReturns.
  destruct (Nat.ltb_spec (length candles) 2) as [Hlt|Hge]; [lia|].
  rewrite logReturns_fold_nth by lia.
  unfold logReturnStep. simpl.
  replace (k - 0)%nat with k by lia.
  destruct (_ || _); reflexivity.
Qed.

Lemma RealizedVolatility_short (logReturns : list F) (window : Z) (barsPerYear : F) :
  (window <= 1)%Z \/ (Z.of_nat (length logReturns) < window)%Z ->
  RealizedVolatility logReturns window barsPerYear = f_zero.
Proof.
  intros Hw. unfold RealizedVolatility.
  destruct (Z.leb_spec window 1); [reflexivity|].
  destruct (Z.ltb_spec (Z.of_nat (length logReturns)) window); [reflexivity|].
  lia.
Qed.

End Generic.
Arguments Candle F : clear implicits.

(** *** The real-number instance *)

Section Reals.
Local Open Scope R_scope.

(** The window the spec speaks of: the last [w] elements. *)
Definition lastN (w : nat) (l : list R) : list R := skipn (length l - w) l.
Definition sumR (l : list R) : R := fold_right Rplus 0 l.
Definition sumSqR (l : list R) : R := fold_right (fun r acc => r * r + acc) 0 l.

(** The formula of the spec, in its words:
    sqrt(max(0, (sum r^2 - W mu^2) / (W - 1)) * barsPerYear) over the last
    [W] returns, mu their mean. *)
Definition sigmaFormula (logReturns : list R) (W : Z) (barsPerYear : R) : R :=
  let xs := lastN (Z.to_nat W) logReturns in
  let mu := sumR xs / IZR W in
  R_sqrt.sqrt (Rmax 0 ((sumSqR xs - IZR W * (mu * mu)) / (IZR W - 1)) * barsPerYear).











Lemma volStep_fold (rs : list R) (w a : nat) (s s2 : R) :
  (a + w <= length rs)%nat ->
  fold_left (volStep rs) (seq a w) (s, s2) =
  (s + sumR (firstn w (skipn a rs)), s2 + sumSqR (firstn w (skipn a rs))).
Proof.
  revert a s s2. induction w as [|w IH]; intros a s s2 Hlen.
  - simpl. f_equal; lra.
  - cbn [seq fold_left].
    change (volStep rs (s, s2) a)
      with ((s + nth a rs f_zero)%f64, (s2 + nth a rs f_zero * nth a rs f_zero)%f64).
    rewrite IH by lia. cbn [f_add f_mul real_ops].
    assert (Hsk : skipn a rs = nth a rs f_zero :: skipn (S a) rs).
    { clear IH. revert a Hlen. induction rs as [|r rs IHrs]; intros a Hlen.
      - simpl in Hlen. lia.
      - destruct a as [|a]; [reflexivity|]. simpl. apply IHrs. simpl in Hlen. lia. }
    rewrite Hsk. unfold sumR, sumSqR. cbn [firstn fold_right]. f_equal; lra.
Qed.

Lemma lastN_firstn (w : nat) (rs : list R) :
  (w <= length rs)%nat -> firstn w (skipn (length rs - w) rs) = lastN w rs.
Proof.
  intros Hw. unfold lastN. apply firstn_all2. rewrite length_skipn. lia.
Qed.

Lemma RealizedVolatility_formula (rs : list R) (W : Z) (bars : R) :
  (1 < W <= Z.of_nat (length rs))%Z ->
  RealizedVolatility rs W bars = sigmaFormula rs W bars.
Proof.
  intros [Hw1 Hw2]. unfold RealizedVolatility, sigmaFormula.
  destruct (Z.leb_spec W 1); [lia|].
  destruct (Z.ltb_spec (Z.of_nat (length rs)) W); [lia|].
  cbn [orb]. unfold f_zero. cbn [f_of_int real_ops].
  rewrite volStep_fold by lia. rewrite lastN_firstn by lia.
  cbn [f_add f_sub f_mul f_div f_ltb f_sqrt f_of_int real_ops f_one].
  rewrite !Rplus_0_l.
  set (xs := lastN (Z.to_nat W) rs).
  set (v := (sumSqR xs - IZR W * (sumR xs / IZR W) * (sumR xs / IZR W)) / (IZR W - 1)).
  replace ((sumSqR xs - IZR W * (sumR xs / IZR W * (sumR xs / IZR W))) / (IZR W - 1))
    with v by (unfold v; f_equal; ring).
  f_equal. f_equal.
  unfold Rltb. destruct (Rlt_dec v 0) as [Hv|Hv].
  - rewrite Rmax_left; lra.
  - rewrite Rmax_right; lra.
Qed.




End Reals.

(** *** The same definitions on IEEE binary64 *)

Section Binary64.
#[local] Set Warnings "-inexact-float".
Variable log : float -> float.
Let ops64 := binary64_ops log.

Definition candleOfClose (c : float) : Candle float :=
  mkCandle 0%Z "BTC" c c c c 0%float "".

(** On the machine both quotients round to the double nearest 1.1. *)
Example ComputeLogReturns_binary64 :
  ComputeLogReturns (ops:=ops64)
    [candleOfClose 100; candleOfClose 110; candleOfClose 121]
  = [log 1.1%float; log 1.1%float].
Proof. vm_compute. reflexivity. Qed.

Example ComputeLogReturns_binary64_nonpositive :
  ComputeLogReturns (ops:=ops64)
    [candleOfClose 100; candleOfClose 0; candleOfClose (-5)%float]
  = [0%float; 0%float].
Proof. vm_compute. reflexivity. Qed.

Example RealizedVolatility_binary64 :
  let v := RealizedVolatility (ops:=ops64)
             [0.01%float; (-0.01)%float; 0.01%float; (-0.01)%float] 4 525600%float in
  ((8.3713 <? v)%float && (v <? 8.3714)%float) = true.
Proof. vm_compute. reflexivity. Qed.

(** On the machine too the result is never below zero, NaN and
    infinities included: a square root is NaN, a zero, or positive. *)
Lemma sqrt_not_negative (x : float) : (PrimFloat.sqrt x <? 0)%float = false.
Proof.
  rewrite ltb_spec, sqrt_spec.
  change (Prim2SF 0) with (S754_zero false).
  unfold SF64sqrt, SFsqrt.
  destruct (Prim2SF x) as [s|[|]| |[|] m e]; try reflexivity.
  destruct (SFsqrt_core_binary prec emax (Z.pos m) e) as [[mz ez] lz].
  unfold binary_round_aux.
  destruct (shr_fexp prec emax mz ez lz) as [mrs' e'].
  destruct (shr_fexp prec emax _ e' loc_Exact) as [mrs'' e''].
  destruct (shr_m mrs''); try reflexivity.
  destruct (_ <=? _)%Z; reflexivity.
Qed.

Lemma RealizedVolatility_binary64_nonneg (rs : list float) (W : Z) (bars : float) :
  (RealizedVolatility (ops:=ops64) rs W bars <? 0)%float = false.
Proof.
  unfold RealizedVolatility. destruct (_ || _); [reflexivity|].
  destruct (fold_left _ _ _) as [s s2]. apply sqrt_not_negative.
Qed.

Example RealizedVolatility_binary64_short :
  RealizedVolatility (ops:=ops64) [0.01%float] 2 525600%float = 0%float.
Proof. vm_compute. reflexivity. Qed.

End Binary64.

(** *** The claims *)




(** *** Bars and their boundaries *)

(** [AlignFromTo] (the features package and package util hold the same
    function). *)
Definition AlignFromTo (from to : Instant) (tf : string) : Instant * Instant :=
  if String.eqb tf "1s" then (Truncate from Second, Truncate to Second)
  else if String.eqb tf "1m" then (Truncate from Minute, Truncate to Minute)
  else if String.eqb tf "5m" then
    let d := (5 * Minute)%Z in (Truncate from d, Truncate to d)
  else (Truncate from Minute, Truncate to Minute).

(** timeframe.go: [Timeframe] is a string type. *)
Definition TF1s : string := "1s".
Definition TF1m : string := "1m".
Definition TF5m : string := "5m".

Definition IsValidTimeframe (tf : string) : bool :=
  String.eqb tf TF1s || String.eqb tf TF1m || String.eqb tf TF5m.

Definition DefaultTimeframe : string := TF1m.

Definition NormalizeTimeframe (s : string) : string :=
  if String.eqb s "" then DefaultTimeframe
  else if IsValidTimeframe s then s
  else DefaultTimeframe.

(** The length of a bar of the timeframe, as [AlignFromTo] reads it. *)
Definition barLength (tf : string) : Duration :=
  if String.eqb tf "1s" then Second
  else if String.eqb tf "5m" then (5 * Minute)%Z
  else Minute.

Lemma barLength_pos (tf : string) : (0 < barLength tf)%Z.
Proof.
  unfold barLength. destruct (String.eqb tf "1s"); [reflexivity|].
  destruct (String.eqb tf "5m"); reflexivity.
Qed.

Lemma AlignFromTo_truncates (from to : Instant) (tf : string) :
  AlignFromTo from to tf = (Truncate from (barLength tf), Truncate to (barLength tf)).
Proof.
  unfold AlignFromTo, barLength.
  destruct (String.eqb_spec tf "1s") as [->|_]; [reflexivity|].
  destruct (String.eqb_spec tf "1m") as [->|_]; [reflexivity|].
  destruct (String.eqb tf "5m"); reflexivity.
Qed.

(** X1. [AlignFromTo] moves each end of the range down to the start of
    its bar: a multiple of the bar length (one second, one minute or five
    minutes since the zero time; a minute for any other timeframe) at or
    before the given time and less than one bar away.  It keeps the order
    of the two ends, and aligning an aligned range changes nothing. *)
Theorem AlignFromTo_spec (from to : Instant) (tf : string) :
  let d := barLength tf in
  let '(from', to') := AlignFromTo from to tf in
  (d | from')%Z /\ (d | to')%Z /\
  (from' <= from < from' + d)%Z /\ (to' <= to < to' + d)%Z /\
  ((from <= to)%Z -> (from' <= to')%Z) /\
  AlignFromTo from' to' tf = (from', to').
Proof.
  intros d. rewrite AlignFromTo_truncates. fold d.
  pose proof (barLength_pos tf) as Hd. fold d in Hd.
  destruct (Truncate_multiple from d Hd) as [Hf1 Hf2].
  destruct (Truncate_multiple to d Hd) as [Ht1 Ht2].
  split; [exact Hf1|]. split; [exact Ht1|]. split; [exact Hf2|]. split; [exact Ht2|].
  split; [apply Truncate_mono|].
  rewrite AlignFromTo_truncates. fold d.
  rewrite (Truncate_fixed _ d Hf1), (Truncate_fixed _ d Ht1). reflexivity.
Qed.

(** X2. [NormalizeTimeframe] answers with a supported timeframe for every
    string: a supported one unchanged, anything else (the empty string
    included) as one minute.  The annualisation factor and the alignment
    do not tell a string from its normal form, so the three defaults
    agree. *)
Theorem NormalizeTimeframe_spec (s : string) :
  IsValidTimeframe (NormalizeTimeframe s) = true /\
  (IsValidTimeframe s = true -> NormalizeTimeframe s = s) /\
  (IsValidTimeframe s = false -> NormalizeTimeframe s = "1m"%string) /\
  NormalizeTimeframe (NormalizeTimeframe s) = NormalizeTimeframe s /\
  (forall (F : Type) (ops : Float64Ops F),
     BarsPerYearForTF (F:=F) (NormalizeTimeframe s) = BarsPerYearForTF s) /\
  (forall from to, AlignFromTo from to (NormalizeTimeframe s) = AlignFromTo from to s).
Proof.
  unfold NormalizeTimeframe, IsValidTimeframe, DefaultTimeframe, TF1s, TF1m, TF5m,
    BarsPerYearForTF, AlignFromTo.
  destruct (String.eqb_spec s "") as [->|Hne]; [repeat split; intros; discriminate || reflexivity|].
  destruct (String.eqb_spec s "1s") as [->|H1]; [repeat split; intros; discriminate || reflexivity|].
  destruct (String.eqb_spec s "1m") as [->|H2]; [repeat split; intros; discriminate || reflexivity|].
  destruct (String.eqb_spec s "5m") as [->|H3]; [repeat split; intros; discriminate || reflexivity|].
  repeat split; intros; discriminate || reflexivity.
Qed.

(** *** What the two features do not depend on *)

Section Invariance.
Local Open Scope R_scope.

(** The same candle in another unit of price. *)
Definition rescale (k : R) (c : Candle R) : Candle R :=
  mkCandle (Bucket c) (Symbol c) (k * Open c) (k * High c) (k * Low c) (k * Close c)
           (Volume c) (OrgID c).

Lemma nth_rescale (k : R) (candles : list (Candle R)) (i : nat) :
  (i < length candles)%nat ->
  Close (nth i (map (rescale k) candles) zeroCandle) = k * Close (nth i candles zeroCandle).
Proof.
  intros Hi.
  rewrite (nth_indep _ zeroCandle (rescale k zeroCandle)) by (rewrite length_map; exact Hi).
  rewrite map_nth. reflexivity.
Qed.

(** X3. Log returns do not depend on the unit of price: multiplying
    every close by the same positive factor leaves every return as it
    was, the zero returns of non-positive closes included. *)
Theorem ComputeLogReturns_scale (k : R) (candles : list (Candle R)) :
  0 < k ->
  ComputeLogReturns (map (rescale k) candles) = ComputeLogReturns candles.
Proof.
  intros Hk. apply (nth_ext _ _ 0 0).
  - rewrite !ComputeLogReturns_length, length_map. reflexivity.
  - intros i Hi. rewrite ComputeLogReturns_length, length_map in Hi.
    change 0 with (@f_zero R real_ops).
    rewrite !ComputeLogReturns_nth by (rewrite ?length_map; lia).
    cbn zeta. rewrite !nth_rescale by lia.
    set (p := Close (nth i candles zeroCandle)).
    set (c := Close (nth (S i) candles zeroCandle)).
    change (@f_zero R real_ops) with 0. cbn [f_leb f_div f_log real_ops].
    assert (Hsign : forall x, Rleb (k * x) 0 = Rleb x 0).
    { intros x. unfold Rleb. destruct (Rle_dec (k * x) 0), (Rle_dec x 0); try reflexivity.
      - exfalso. apply n. nra.
      - exfalso. apply n. nra. }
    rewrite !Hsign. unfold Rleb. destruct (Rle_dec p 0) as [Hp|Hp]; [reflexivity|].
    destruct (Rle_dec c 0) as [Hc|Hc]; [reflexivity|]. cbn [orb].
    f_equal. field. lra.
Qed.

Lemma ComputeLogReturns_scale_witness :
  ComputeLogReturns
    (map (rescale 1000) [mkCandle 0%Z "BTC" 1 1 1 100 0 ""; mkCandle 0%Z "BTC" 1 1 1 110 0 ""])
  = ComputeLogReturns [mkCandle 0%Z "BTC" 1 1 1 100 0 ""; mkCandle 0%Z "BTC" 1 1 1 110 0 ""].
Proof. apply (ComputeLogReturns_scale 1000). lra. Defined.

Lemma sumR_affine (a c : R) (xs : list R) :
  sumR (map (fun r => a * r + c) xs) = a * sumR xs + c * INR (length xs).
Proof.
  induction xs as [|x xs IH].
  - cbn. lra.
  - unfold sumR in *. cbn [map fold_right length]. rewrite IH, S_INR. lra.
Qed.

Lemma sumSqR_affine (a c : R) (xs : list R) :
  sumSqR (map (fun r => a * r + c) xs) =
  a * a * sumSqR xs + 2 * a * c * sumR xs + c * c * INR (length xs).
Proof.
  induction xs as [|x xs IH].
  - cbn. lra.
  - unfold sumSqR, sumR in *. cbn [map fold_right length]. rewrite IH, S_INR. lra.
Qed.

(** X4. Realized volatility is a spread: adding a constant to every
    return does not change it, and multiplying every return by [a]
    multiplies it by the absolute value of [a].  So a series of equal
    returns has volatility zero. *)
Theorem RealizedVolatility_affine (a c : R) (rs : list R) (W : Z) (bars : R) :
  RealizedVolatility (map (fun r => a * r + c) rs) W bars =
  Rabs a * RealizedVolatility rs W bars.
Proof.
  destruct (Z_le_gt_dec W 1) as [Hw|Hw];
    [|destruct (Z_lt_le_dec (Z.of_nat (length rs)) W) as [Hlen|Hlen]].
  - rewrite !RealizedVolatility_short by (left; exact Hw).
    change (@f_zero R real_ops) with 0. lra.
  - rewrite (RealizedVolatility_short (map _ rs)) by (right; rewrite length_map; exact Hlen).
    rewrite (RealizedVolatility_short rs) by (right; exact Hlen).
    change (@f_zero R real_ops) with 0. lra.
  - rewrite !RealizedVolatility_formula by (rewrite ?length_map; lia).
    unfold sigmaFormula, lastN. rewrite length_map, skipn_map.
    set (xs := skipn (length rs - Z.to_nat W) rs).
    assert (Hn : INR (length xs) = IZR W).
    { unfold xs. rewrite length_skipn.
      replace (length rs - (length rs - Z.to_nat W))%nat with (Z.to_nat W) by lia.
      rewrite INR_IZR_INZ. f_equal. lia. }
    rewrite sumR_affine, sumSqR_affine, Hn.
    assert (HW : 1 < IZR W) by (apply IZR_lt; lia).
    set (v := (sumSqR xs - IZR W * (sumR xs / IZR W * (sumR xs / IZR W))) / (IZR W - 1)).
    match goal with |- R_sqrt.sqrt (Rmax 0 ?e * bars) = _ => replace e with (a * a * v) end.
    2:{ unfold v. field. lra. }
    assert (Ha : 0 <= a * a) by nra.
    assert (Hmax : Rmax 0 (a * a * v) = a * a * Rmax 0 v).
    { destruct (Rle_or_lt 0 v) as [Hv|Hv].
      - rewrite !Rmax_right; [reflexivity|exact Hv|nra].
      - rewrite (Rmax_left 0 v) by lra. rewrite Rmult_0_r.
        apply Rmax_left. nra. }
    rewrite Hmax, Rmult_assoc, sqrt_mult_alt by exact Ha.
    f_equal. replace (a * a) with (Rsqr a) by reflexivity. apply sqrt_Rsqr_abs.
Qed.

End Invariance.

End Features.

(* ===================================================================== *)
(** ** package usecase: SignalAggregator *)
(* ===================================================================== *)

Module Signals.
Import GoTime Features.

Section Aggregator.
Context {F : Type} {ops : Float64Ops F}.

(** The results of the four analytics services; their fields are not
    read here. *)
Variables Regime VolatilityForecast MarketAnomaly EdgeScore : Type.
Variable zeroRegime : Regime.
Variable zeroForecast : VolatilityForecast.
Variable zeroEdge : EdgeScore.

(** The feature store and the four services behind the aggregator; an
    error is its text. *)
Variable GetLatestNCandles : string -> Z -> string -> list (Candle F) * option string.
Variable regimeDetect : string -> list F -> Regime * option string.
Variable volForecast : string -> gmap string F -> string -> VolatilityForecast * option string.
Variable anomalyDetect : string -> list F -> list F -> list MarketAnomaly * option string.
Variable edgePredict : string -> gmap string F -> string -> EdgeScore * option string.

Definition min (a b : Z) : Z := if (a <? b)%Z then a else b.

Definition lastOrZero (xs : list F) : F :=
  if (length xs =? 0)%nat then f_zero else nth (length xs - 1) xs f_zero.

Definition LatestRegime (symbol : string) (n : Z) (tf : string) : Regime * option string :=
  match GetLatestNCandles symbol n tf with
  | (_, Some err) => (zeroRegime, Some err)
  | (cs, None) => regimeDetect symbol (ComputeLogReturns cs)
  end.

Definition VolForecast (symbol horizon : string) (n : Z) (tf : string)
    : VolatilityForecast * option string :=
  match GetLatestNCandles symbol n tf with
  | (_, Some err) => (zeroForecast, Some err)
  | (cs, None) =>
      let rets := ComputeLogReturns cs in
      let bpY := BarsPerYearForTF tf in
      let feats : gmap string F :=
        <["nowcast_sigma"%string :=
            RealizedVolatility rets (min 60 (Z.of_nat (length rets))) bpY]> ∅ in
      volForecast symbol feats horizon
  end.

(** The loop of [Anomalies] over [i := range rets]. *)
Definition volSeries (rets : list F) (bpY : F) : list F :=
  fold_left (fun vols i =>
               let w := min 60 (Z.of_nat i + 1) in
               vols ++ [RealizedVolatility (firstn (i + 1) rets) w bpY])
            (seq 0 (length rets)) [].

Definition Anomalies (symbol : string) (n : Z) (tf : string)
    : list MarketAnomaly * option string :=
  match GetLatestNCandles symbol n tf with
  | (_, Some err) => ([], Some err)
  | (cs, None) =>
      let rets := ComputeLogReturns cs in
      let bpY := BarsPerYearForTF tf in
      anomalyDetect symbol rets (volSeries rets bpY)
  end.

Definition Edge (symbol horizon : string) (n : Z) (tf : string) : EdgeScore * option string :=
  match GetLatestNCandles symbol n tf with
  | (_, Some err) => (zeroEdge, Some err)
  | (cs, None) =>
      let rets := ComputeLogReturns cs in
      let bpY := BarsPerYearForTF tf in
      let feats : gmap string F :=
        <["sigma_now"%string :=
            RealizedVolatility rets (min 60 (Z.of_nat (length rets))) bpY]>
          (<["ret_1"%string := lastOrZero rets]> ∅) in
      edgePredict symbol feats horizon
  end.

Lemma volSeries_fold (rets : list F) (bpY : F) (idx : list nat) (vols : list F) :
  fold_left (fun vols i =>
               let w := min 60 (Z.of_nat i + 1) in
               vols ++ [RealizedVolatility (firstn (i + 1) rets) w bpY]) idx vols =
  vols ++ map (fun i => RealizedVolatility (firstn (i + 1) rets)
                          (min 60 (Z.of_nat i + 1)) bpY) idx.
Proof.
  revert vols. induction idx as [|i idx IH]; intros vols; cbn [fold_left map].
  - now rewrite app_nil_r.
  - rewrite IH, <- app_assoc. reflexivity.
Qed.

(** X5. [Anomalies] hands the detector two series that line up: the log
    returns of the candles and, for every return, the realized volatility
    of the returns up to and including it over a window of at most 60.
    The volatility series is as long as the return series (one shorter
    than the candles), and its first entry is zero, the window there being
    one.  When the store fails nothing is computed and its error comes
    back with no anomalies. *)
Theorem Anomalies_inputs (symbol : string) (n : Z) (tf : string) :
  match GetLatestNCandles symbol n tf with
  | (_, Some err) => Anomalies symbol n tf = ([], Some err)
  | (cs, None) =>
      let rets := ComputeLogReturns cs in
      let vols := volSeries rets (BarsPerYearForTF tf) in
      Anomalies symbol n tf = anomalyDetect symbol rets vols /\
      length vols = length rets /\
      length rets = (length cs - 1)%nat /\
      (forall i, (i < length rets)%nat ->
         nth i vols f_zero =
         RealizedVolatility (firstn (S i) rets) (min 60 (Z.of_nat (S i)))
                            (BarsPerYearForTF tf)) /\
      (forall v vols', vols = v :: vols' -> v = f_zero)
  end.
Proof.
  unfold Anomalies. destruct (GetLatestNCandles symbol n tf) as [cs [err|]]; [reflexivity|].
  cbn zeta. set (rets := ComputeLogReturns cs). set (bpY := BarsPerYearForTF tf).
  assert (Hv : volSeries rets bpY =
               map (fun i => RealizedVolatility (firstn (i + 1) rets)
                               (min 60 (Z.of_nat i + 1)) bpY) (seq 0 (length rets))).
  { unfold volSeries. now rewrite volSeries_fold. }
  split; [reflexivity|]. split; [now rewrite Hv, length_map, length_seq|].
  split; [apply ComputeLogReturns_length|]. split.
  - intros i Hi. rewrite Hv.
    rewrite (nth_indep _ f_zero
               (RealizedVolatility (firstn (0 + 1) rets) (min 60 (Z.of_nat 0 + 1)) bpY))
      by (rewrite length_map, length_seq; exact Hi).
    rewrite (map_nth (fun i => RealizedVolatility (firstn (i + 1) rets)
                                 (min 60 (Z.of_nat i + 1)) bpY)).
    rewrite seq_nth by exact Hi. cbn [Nat.add].
    replace (i + 1)%nat with (S i) by lia.
    replace (Z.of_nat i + 1)%Z with (Z.of_nat (S i)) by lia. reflexivity.
  - intros v vols' Hvols. rewrite Hv in Hvols.
    destruct (length rets) as [|m]; [discriminate|].
    cbn [seq map] in Hvols. injection Hvols as <- _.
    apply RealizedVolatility_short. left. vm_compute. discriminate.
Qed.

(** The volatility that [VolForecast] and [Edge] pass on as
    [nowcast_sigma] and [sigma_now] is the realized volatility of all the
    returns when there are at most 60 and of the last 60 otherwise; it is
    zero when the store returns fewer than three candles.  [Edge] adds
    the last return as [ret_1], zero when there is none.  When the store
    fails, the error comes back and no service is asked. *)
Theorem nowcast_features (symbol horizon : string) (n : Z) (tf : string) :
  match GetLatestNCandles symbol n tf with
  | (_, Some err) =>
      VolForecast symbol horizon n tf = (zeroForecast, Some err) /\
      Edge symbol horizon n tf = (zeroEdge, Some err) /\
      LatestRegime symbol n tf = (zeroRegime, Some err)
  | (cs, None) =>
      let rets := ComputeLogReturns cs in
      let sigma := RealizedVolatility rets (Z.min 60 (Z.of_nat (length rets)))
                                      (BarsPerYearForTF tf) in
      VolForecast symbol horizon n tf =
        volForecast symbol (<["nowcast_sigma"%string := sigma]> ∅) horizon /\
      Edge symbol horizon n tf =
        edgePredict symbol
          (<["sigma_now"%string := sigma]>
             (<["ret_1"%string := List.last rets f_zero]> ∅)) horizon /\
      LatestRegime symbol n tf = regimeDetect symbol rets /\
      ((length cs < 3)%nat -> sigma = f_zero)
  end.
Proof.
  unfold VolForecast, Edge, LatestRegime.
  destruct (GetLatestNCandles symbol n tf) as [cs [err|]]; [auto|].
  cbn zeta. set (rets := ComputeLogReturns cs).
  assert (Hmin : forall a b, min a b = Z.min a b).
  { intros a b. unfold min. destruct (Z.ltb_spec a b); lia. }
  assert (Hlast : lastOrZero rets = List.last rets f_zero).
  { unfold lastOrZero. destruct rets as [|r rs] using rev_ind; [reflexivity|].
    rewrite length_app, last_last. cbn [length].
    replace (length rs + 1 =? 0)%nat with false by (symmetry; apply Nat.eqb_neq; lia).
    rewrite app_nth2 by lia.
    replace (length rs + 1 - 1 - length rs)%nat with 0%nat by lia. reflexivity. }
  rewrite Hmin, Hlast. split; [reflexivity|]. split; [reflexivity|]. split; [reflexivity|].
  intros Hcs. apply RealizedVolatility_short. left.
  unfold rets. rewrite ComputeLogReturns_length. lia.
Qed.

End Aggregator.

End Signals.

(* ===================================================================== *)
(** ** package ratelimit: the keyed token bucket *)
(* ===================================================================== *)

Module Ratelimit.
Import GoTime.

Section Generic.
Context {F : Type} {ops : Float64Ops F}.

Record bucket := mkBucket {
  tokens : F;
  capacity : F;
  refillRate : F;     (* tokens per second *)
  last : Instant }.

(** [Limiter.m]; the mutex is not modelled, a call is one atomic step. *)
Local Abbreviation Limiter := (gmap string bucket).

Definition New : Limiter := ∅.

(** The bucket [Allow] works on: the stored one, or a full one created at
    the first observation of [key]. *)
Definition observe (l : Limiter) (now : Instant) (key : string)
    (capacity refillPerSec : F) : bucket :=
  match l !! key with
  | Some b => b
  | None => mkBucket capacity capacity refillPerSec now
  end.

(** The block under the [// refill] comment. *)
Definition refill (b : bucket) (now : Instant) : bucket :=
  let elapsed : F := Seconds (Sub now (last b)) in
  if (elapsed >? f_zero)%f64 then
    let t := (tokens b + elapsed * refillRate b)%f64 in
    let t := if (t >? capacity b)%f64 then capacity b else t in
    mkBucket t (capacity b) (refillRate b) now
  else b.

(** [b.tokens -= 1]. *)
Definition takeOne (b : bucket) : bucket :=
  mkBucket (tokens b - f_one)%f64 (capacity b) (refillRate b) (last b).

(** [Allow], with [time.Now()] passed in as [now]; the result is the
    returned boolean and the map after the call. *)
Definition Allow (l : Limiter) (now : Instant) (key : string)
    (capacity refillPerSec : F) : bool * Limiter :=
  let b := observe l now key capacity refillPerSec in
  let b := refill b now in
  if (tokens b >=? f_one)%f64
  then (true, <[key := takeOne b]> l)
  else (false, <[key := b]> l).

End Generic.
Arguments bucket F : clear implicits.
Abbreviation Limiter F := (gmap string (bucket F)).

(** *** The same code on IEEE binary64 *)

Section Binary64.
Let ops64 := binary64_ops (fun x => x).

(** The spec's scenario, run on the machine arithmetic: capacity 2, one
    token per second, three calls at the same instant and one a second
    later. *)
Example Allow_binary64_scenario :
  let t0 : Instant := 1700000000000000000%Z in
  let '(a1, l1) := Allow (ops:=ops64) New t0 "k" 2%float 1%float in
  let '(a2, l2) := Allow (ops:=ops64) l1 t0 "k" 2%float 1%float in
  let '(a3, l3) := Allow (ops:=ops64) l2 t0 "k" 2%float 1%float in
  let '(a4, _) := Allow (ops:=ops64) l3 (t0 + Second)%Z "k" 2%float 1%float in
  [a1; a2; a3; a4] = [true; true; false; true].
Proof. vm_compute. reflexivity. Qed.

End Binary64.

(** *** The real-number instance *)

Section Reals.
Local Open Scope R_scope.

(** What holds of every bucket the limiter can hold when the rates given
    are not negative. *)
Definition bucket_ok (b : bucket R) : Prop :=
  Rmin 0 (capacity b) <= tokens b <= capacity b /\ 0 <= refillRate b.

Definition limiter_ok (l : Limiter R) : Prop :=
  forall k b, l !! k = Some b -> bucket_ok b.

Definition elapsedSeconds (b : bucket R) (now : Instant) : R :=
  Seconds (Sub now (last b)).

Lemma refill_idle (b : bucket R) (now : Instant) :
  elapsedSeconds b now <= 0 -> refill b now = b.
Proof.
  intros He. unfold refill, f_gtb. fold (elapsedSeconds b now).
  change (@f_zero R real_ops) with 0. cbn [f_ltb real_ops].
  destruct (Rltb_false 0 (elapsedSeconds b now)) as [_ ->]; [reflexivity|exact He].
Qed.

Lemma refill_elapsed (b : bucket R) (now : Instant) :
  0 < elapsedSeconds b now ->
  refill b now =
  mkBucket (Rmin (tokens b + elapsedSeconds b now * refillRate b) (capacity b))
           (capacity b) (refillRate b) now.
Proof.
  intros He. unfold refill, f_gtb. fold (elapsedSeconds b now).
  change (@f_zero R real_ops) with 0. cbn [f_ltb f_add f_mul real_ops].
  destruct (Rltb_true 0 (elapsedSeconds b now)) as [_ ->]; [|exact He].
  f_equal. unfold Rltb.
  destruct (Rlt_dec _ _) as [Hlt|Hge].
  - rewrite Rmin_right; lra.
  - rewrite Rmin_left; lra.
Qed.

Lemma refill_fields (b : bucket R) (now : Instant) :
  capacity (refill b now) = capacity b /\ refillRate (refill b now) = refillRate b.
Proof.
  destruct (Rle_or_lt (elapsedSeconds b now) 0) as [He|He].
  - rewrite refill_idle by exact He. tauto.
  - rewrite refill_elapsed by exact He. simpl. tauto.
Qed.

Lemma refill_ok (b : bucket R) (now : Instant) :
  bucket_ok b -> bucket_ok (refill b now).
Proof.
  intros Hb. destruct (Rle_or_lt (elapsedSeconds b now) 0) as [He|He].
  - rewrite refill_idle by exact He. exact Hb.
  - rewrite refill_elapsed by exact He.
    destruct Hb as [[Hlo Hhi] Hr]. unfold bucket_ok. cbn [tokens capacity refillRate].
    split; [|exact Hr]. split; [|apply Rmin_r].
    assert (0 <= elapsedSeconds b now * refillRate b) by (apply Rmult_le_pos; lra).
    apply Rmin_glb; [lra|]. apply Rle_trans with (tokens b); [exact Hlo|exact Hhi].
Qed.

(** The bucket is full after an idle time of at least capacity / rate. *)
Lemma refill_full (b : bucket R) (now : Instant) :
  bucket_ok b -> 0 < refillRate b ->
  capacity b / refillRate b <= elapsedSeconds b now ->
  tokens (refill b now) = capacity b.
Proof.
  intros [[Hlo Hhi] _] Hr Hidle.
  assert (Hcap : capacity b <= elapsedSeconds b now * refillRate b).
  { apply (Rmult_le_compat_r (refillRate b)) in Hidle; [|lra].
    unfold Rdiv in Hidle. rewrite Rmult_assoc, Rinv_l, Rmult_1_r in Hidle by lra.
    exact Hidle. }
  destruct (Rle_or_lt (elapsedSeconds b now) 0) as [He|He].
  - rewrite refill_idle by exact He.
    assert (elapsedSeconds b now * refillRate b <= 0).
    { replace 0 with (0 * refillRate b) by ring. apply Rmult_le_compat_r; lra. }
    assert (Hc0 : capacity b <= 0) by lra.
    rewrite Rmin_right in Hlo by exact Hc0. lra.
  - rewrite refill_elapsed by exact He. cbn [tokens].
    apply Rmin_right.
    destruct (Rle_or_lt 0 (capacity b)) as [Hc|Hc].
    + rewrite Rmin_left in Hlo by exact Hc. lra.
    + rewrite Rmin_right in Hlo by lra.
      assert (0 < elapsedSeconds b now * refillRate b) by (apply Rmult_lt_0_compat; lra).
      lra.
Qed.

Lemma Allow_result (l : Limiter R) (now : Instant) (key : string) (cap rate : R) :
  let b := refill (observe l now key cap rate) now in
  (1 <= tokens b ->
     Allow l now key cap rate =
     (true, <[key := mkBucket (tokens b - 1) (capacity b) (refillRate b) (last b)]> l)) /\
  (tokens b < 1 -> Allow l now key cap rate = (false, <[key := b]> l)).
Proof.
  intros b. unfold Allow, f_geb, takeOne. fold b.
  change (@f_one R real_ops) with 1. cbn [f_leb f_sub real_ops].
  split; intros Ht.
  - destruct (Rleb_true 1 (tokens b)) as [_ ->]; [reflexivity|exact Ht].
  - destruct (Rleb_false 1 (tokens b)) as [_ ->]; [reflexivity|exact Ht].
Qed.

Lemma observe_fresh (l : Limiter R) (now : Instant) (key : string) (cap rate : R) :
  l !! key = None ->
  refill (observe l now key cap rate) now = mkBucket cap cap rate now.
Proof.
  intros Hnone. unfold observe. rewrite Hnone.
  apply refill_idle. unfold elapsedSeconds. cbn [last].
  rewrite Seconds_real, Sub_exact; rewrite Z.sub_diag; [lra|].
  unfold minDuration, maxDuration. lia.
Qed.

Lemma Allow_keeps_ok (l : Limiter R) (now : Instant) (key : string) (cap rate : R) :
  limiter_ok l -> 0 <= rate ->
  limiter_ok (snd (Allow l now key cap rate)).
Proof.
  intros Hl Hrate.
  assert (Hobs : bucket_ok (observe l now key cap rate)).
  { unfold observe. destruct (l !! key) as [b|] eqn:E; [exact (Hl _ _ E)|].
    unfold bucket_ok. cbn [tokens capacity refillRate].
    split; [|exact Hrate]. split; [apply Rmin_r|lra]. }
  apply (refill_ok _ now) in Hobs.
  set (b := refill (observe l now key cap rate) now) in *.
  destruct (Allow_result l now key cap rate) as [Hyes Hno]. fold b in Hyes, Hno.
  destruct (Rle_or_lt 1 (tokens b)) as [Ht|Ht].
  - rewrite (Hyes Ht). cbn [snd]. intros k b' Hk.
    destruct (decide (key = k)) as [->|Hne].
    + rewrite lookup_insert_eq in Hk. injection Hk as <-.
      destruct Hobs as [[Hlo Hhi] Hr]. unfold bucket_ok. cbn [tokens capacity refillRate].
      split; [|exact Hr]. split; [|lra].
      apply Rle_trans with 0; [apply Rmin_l|lra].
    + rewrite lookup_insert_ne in Hk by exact Hne. exact (Hl _ _ Hk).
  - rewrite (Hno Ht). cbn [snd]. intros k b' Hk.
    destruct (decide (key = k)) as [->|Hne].
    + rewrite lookup_insert_eq in Hk. injection Hk as <-. exact Hobs.
    + rewrite lookup_insert_ne in Hk by exact Hne. exact (Hl _ _ Hk).
Qed.

End Reals.

(** *** In any arithmetic, and on binary64 *)

Section GenericProofs.
Context {F : Type} {ops : Float64Ops F}.

(** The first observation of a key makes a full bucket with the capacity
    and rate of that call; a later one finds the stored bucket, whatever
    capacity and rate it passes. *)
Lemma observe_cases (l : Limiter F) (now : Instant) (key : string) (cap rate : F) :
  (l !! key = None -> observe l now key cap rate = mkBucket cap cap rate now) /\
  (forall b, l !! key = Some b -> observe l now key cap rate = b).
Proof.
  unfold observe. split.
  - intros ->. reflexivity.
  - intros b ->. reflexivity.
Qed.

(** [refill], branch by branch. *)
Lemma refill_cases (b : bucket F) (now : Instant) :
  let elapsed : F := Seconds (Sub now (last b)) in
  let sum := (tokens b + elapsed * refillRate b)%f64 in
  ((elapsed >? f_zero)%f64 = false -> refill b now = b) /\
  ((elapsed >? f_zero)%f64 = true -> (sum >? capacity b)%f64 = true ->
     refill b now = mkBucket (capacity b) (capacity b) (refillRate b) now) /\
  ((elapsed >? f_zero)%f64 = true -> (sum >? capacity b)%f64 = false ->
     refill b now = mkBucket sum (capacity b) (refillRate b) now).
Proof.
  intros elapsed sum. unfold refill. fold elapsed. fold sum.
  repeat split; intros; repeat match goal with H : _ = _ |- _ => rewrite H end; reflexivity.
Qed.

(** [Allow]: the answer is the test of the refilled bucket against one
    token; the bucket is stored, less one token when the answer is true;
    no other key is touched. *)
Lemma Allow_cases (l : Limiter F) (now : Instant) (key : string) (cap rate : F) :
  let b := refill (observe l now key cap rate) now in
  let r := Allow l now key cap rate in
  fst r = (tokens b >=? f_one)%f64 /\
  snd r !! key = Some (if fst r then takeOne b else b) /\
  takeOne b = mkBucket (tokens b - f_one)%f64 (capacity b) (refillRate b) (last b) /\
  (forall k, k <> key -> snd r !! k = l !! k).
Proof.
  intros b r. subst r. unfold Allow. fold b.
  destruct (tokens b >=? f_one)%f64; cbn [fst snd].
  - split; [reflexivity|]. split; [apply lookup_insert_eq|]. split; [reflexivity|].
    intros k Hk. apply lookup_insert_ne. congruence.
  - split; [reflexivity|]. split; [apply lookup_insert_eq|]. split; [reflexivity|].
    intros k Hk. apply lookup_insert_ne. congruence.
Qed.

End GenericProofs.

Section Binary64Proofs.
Let ops64 := binary64_ops (fun x => x).

Lemma Sub_diag (t : Instant) : Sub t t = 0%Z.
Proof. unfold Sub. rewrite Z.sub_diag. reflexivity. Qed.

Lemma Sub_second (t : Instant) : Sub (t + Second) t = Second.
Proof.
  unfold Sub. replace (t + Second - t)%Z with Second by lia. reflexivity.
Qed.

Lemma Allow_on (l : Limiter float) (now : Instant) (key : string) (cap rate : float)
    (b : bucket float) :
  observe l now key cap rate = b ->
  Allow (ops:=ops64) l now key cap rate =
  if PrimFloat.leb 1 (tokens (refill (ops:=ops64) b now))
  then (true, <[key := takeOne (ops:=ops64) (refill (ops:=ops64) b now)]> l)
  else (false, <[key := refill (ops:=ops64) b now]> l).
Proof. intros Hb. unfold Allow. rewrite Hb. reflexivity. Qed.

Lemma refill64_same (tk c r : float) (t0 : Instant) :
  refill (ops:=ops64) (mkBucket tk c r t0) t0 = mkBucket tk c r t0.
Proof. unfold refill. cbn [last]. rewrite Sub_diag. reflexivity. Qed.

Lemma refill64_second (tk c r : float) (t0 : Instant) :
  refill (ops:=ops64) (mkBucket tk c r t0) (t0 + Second) =
  mkBucket (let t := PrimFloat.add tk (PrimFloat.mul 1 r) in
            if PrimFloat.ltb c t then c else t) c r (t0 + Second).
Proof. unfold refill. cbn [last]. rewrite Sub_second. reflexivity. Qed.

(** The scenario on binary64, from any limiter that has not seen the key
    and at any time. *)
Lemma Allow_binary64_any (l : Limiter float) (t0 : Instant) :
  l !! "k" = None ->
  let '(a1, l1) := Allow (ops:=ops64) l t0 "k" 2%float 1%float in
  let '(a2, l2) := Allow (ops:=ops64) l1 t0 "k" 2%float 1%float in
  let '(a3, l3) := Allow (ops:=ops64) l2 t0 "k" 2%float 1%float in
  let '(a4, _) := Allow (ops:=ops64) l3 (t0 + Second)%Z "k" 2%float 1%float in
  [a1; a2; a3; a4] = [true; true; false; true].
Proof.
  intros Hnone.
  rewrite (Allow_on l t0 "k" 2 1 (mkBucket 2%float 2%float 1%float t0))
    by (unfold observe; now rewrite Hnone).
  rewrite refill64_same. cbn [tokens].
  change (PrimFloat.leb 1 2) with true. cbn iota.
  rewrite (Allow_on _ t0 "k" 2 1 (mkBucket 1%float 2%float 1%float t0))
    by (unfold observe; now rewrite lookup_insert_eq).
  rewrite refill64_same. cbn [tokens].
  change (PrimFloat.leb 1 1) with true. cbn iota.
  rewrite (Allow_on _ t0 "k" 2 1 (mkBucket 0%float 2%float 1%float t0))
    by (unfold observe; now rewrite lookup_insert_eq).
  rewrite refill64_same. cbn [tokens].
  change (PrimFloat.leb 1 0) with false. cbn iota.
  rewrite (Allow_on _ (t0 + Second)%Z "k" 2 1 (mkBucket 0%float 2%float 1%float t0))
    by (unfold observe; now rewrite lookup_insert_eq).
  rewrite refill64_second. cbn [tokens].
  reflexivity.
Qed.

End Binary64Proofs.

Section Claims.
Local Open Scope R_scope.

Lemma elapsedSeconds_exact (b : bucket R) (now : Instant) :
  (minDuration <= now - last b <= maxDuration)%Z ->
  elapsedSeconds b now = IZR (now - last b) / 1000000000.
Proof.
  intros Hr. unfold elapsedSeconds. now rewrite Seconds_real, Sub_exact.
Qed.

Lemma New_ok : limiter_ok New.
Proof. intros k b Hk. unfold New in Hk. rewrite lookup_empty in Hk. discriminate. Qed.

Lemma Allow_stored (l : Limiter R) (now : Instant) (key : string) (cap rate : R)
    (b : bucket R) :
  l !! key = Some b ->
  Allow l now key cap rate =
  if Rleb 1 (tokens (refill b now))
  then (true, <[key := takeOne (refill b now)]> l)
  else (false, <[key := refill b now]> l).
Proof.
  intros Hb. unfold Allow, observe, f_geb. rewrite Hb. reflexivity.
Qed.

Lemma Allow_scenario (l : Limiter R) (t0 : Instant) :
  l !! "k" = None ->
  let '(a1, l1) := Allow l t0 "k" 2 1 in
  let '(a2, l2) := Allow l1 t0 "k" 2 1 in
  let '(a3, l3) := Allow l2 t0 "k" 2 1 in
  let '(a4, _) := Allow l3 (t0 + Second)%Z "k" 2 1 in
  [a1; a2; a3; a4] = [true; true; false; true].
Proof.
  intros Hnone.
  assert (Hsame : forall t c r, refill (mkBucket t c r t0) t0 = mkBucket t c r t0).
  { intros t c r. apply refill_idle. rewrite elapsedSeconds_exact; cbn [last].
    - rewrite Z.sub_diag. lra.
    - rewrite Z.sub_diag. unfold minDuration, maxDuration. lia. }
  (* first call: a fresh, full bucket *)
  destruct (Allow_result l t0 "k" 2 1) as [H1 _].
  rewrite (observe_fresh _ _ _ _ _ Hnone) in H1. cbn [tokens capacity refillRate last] in H1.
  rewrite H1 by lra. clear H1.
  (* second call, same instant *)
  rewrite (Allow_stored _ t0 "k" 2 1 _ (lookup_insert_eq _ _ _)).
  rewrite Hsame. cbn [tokens].
  destruct (Rleb_true 1 (2 - 1)) as [_ ->]; [|lra].
  unfold takeOne at 1. cbn [tokens capacity refillRate last].
  change (@f_sub R real_ops) with Rminus. change (@f_one R real_ops) with 1.
  (* third call, same instant: the bucket is empty *)
  rewrite (Allow_stored _ t0 "k" 2 1 _ (lookup_insert_eq _ _ _)).
  rewrite Hsame. cbn [tokens].
  destruct (Rleb_false 1 (2 - 1 - 1)) as [_ ->]; [|lra].
  (* fourth call, one second later *)
  rewrite (Allow_stored _ (t0 + Second)%Z "k" 2 1 _ (lookup_insert_eq _ _ _)).
  rewrite refill_elapsed.
  - rewrite elapsedSeconds_exact; cbn [tokens capacity refillRate last].
    + replace (t0 + Second - t0)%Z with Second by lia. unfold Second.
      rewrite Rmin_left by lra.
      destruct (Rleb_true 1 (2 - 1 - 1 + 1000000000 / 1000000000 * 1)) as [_ ->]; [|lra].
      reflexivity.
    + replace (t0 + Second - t0)%Z with Second by lia.
      unfold Second, minDuration, maxDuration. lia.
  - rewrite elapsedSeconds_exact; cbn [last].
    + replace (t0 + Second - t0)%Z with Second by lia. unfold Second. lra.
    + replace (t0 + Second - t0)%Z with Second by lia.
      unfold Second, minDuration, maxDuration. lia.
Qed.

(** C7, as the code has it.  In any arithmetic, float64 included: one
    bucket per key, full at the capacity of the call that first sees the
    key (a later call finds the stored bucket, whatever capacity and rate
    it passes); when the elapsed seconds are positive, refill adds them
    times the bucket's rate, clamps to its capacity and records the time;
    [Allow] answers true exactly when the refilled bucket holds at least
    one token and then takes one, touching no other key.  The spec's
    scenario (capacity 2, rate 1/s) answers true, true, false and, a second
    later, true, on binary64 and in exact arithmetic, at any time.  In
    exact arithmetic the refill is min(tokens + elapsed * rate, capacity)
    and the bucket is full after an idle time of at least capacity/rate;
    on binary64 it is full when the rounded sum is above the capacity,
    which an idle time of capacity/rate does not ensure. *)
Theorem Allow_spec :
  (forall (F : Type) (ops : Float64Ops F) (l : Limiter F) (now : Instant) (key : string)
          (cap rate : F),
      (l !! key = None -> observe l now key cap rate = mkBucket cap cap rate now) /\
      (forall b, l !! key = Some b -> observe l now key cap rate = b) /\
      (let b := refill (observe l now key cap rate) now in
       let r := Allow l now key cap rate in
       fst r = (tokens b >=? f_one)%f64 /\
       snd r !! key = Some (if fst r then takeOne b else b) /\
       takeOne b = mkBucket (tokens b - f_one)%f64 (capacity b) (refillRate b) (last b) /\
       (forall k, k <> key -> snd r !! k = l !! k))) /\
  (forall (F : Type) (ops : Float64Ops F) (b : bucket F) (now : Instant),
      let elapsed : F := Seconds (Sub now (last b)) in
      let sum := (tokens b + elapsed * refillRate b)%f64 in
      ((elapsed >? f_zero)%f64 = false -> refill b now = b) /\
      ((elapsed >? f_zero)%f64 = true -> (sum >? capacity b)%f64 = true ->
         refill b now = mkBucket (capacity b) (capacity b) (refillRate b) now) /\
      ((elapsed >? f_zero)%f64 = true -> (sum >? capacity b)%f64 = false ->
         refill b now = mkBucket sum (capacity b) (refillRate b) now)) /\
  (forall (l : Limiter float) (t0 : Instant),
      l !! "k" = None ->
      let '(a1, l1) := Allow (ops:=binary64_ops (fun x => x)) l t0 "k" 2%float 1%float in
      let '(a2, l2) := Allow (ops:=binary64_ops (fun x => x)) l1 t0 "k" 2%float 1%float in
      let '(a3, l3) := Allow (ops:=binary64_ops (fun x => x)) l2 t0 "k" 2%float 1%float in
      let '(a4, _) :=
        Allow (ops:=binary64_ops (fun x => x)) l3 (t0 + Second)%Z "k" 2%float 1%float in
      [a1; a2; a3; a4] = [true; true; false; true]) /\
  (forall (l : Limiter R) (now : Instant) (key : string) (cap rate : R),
      l !! key = None ->
      refill (observe l now key cap rate) now = mkBucket cap cap rate now) /\
  (forall (l : Limiter R) (now : Instant) (key : string) (cap rate : R) (b : bucket R),
      l !! key = Some b -> observe l now key cap rate = b) /\
  (forall (b : bucket R) (now : Instant),
      (0 < elapsedSeconds b now ->
         refill b now =
         mkBucket (Rmin (tokens b + elapsedSeconds b now * refillRate b) (capacity b))
                  (capacity b) (refillRate b) now) /\
      (elapsedSeconds b now <= 0 -> refill b now = b) /\
      ((minDuration <= now - last b <= maxDuration)%Z ->
         elapsedSeconds b now = IZR (now - last b) / 1000000000)) /\
  (forall (l : Limiter R) (now : Instant) (key : string) (cap rate : R),
      let b := refill (observe l now key cap rate) now in
      let r := Allow l now key cap rate in
      (fst r = true <-> 1 <= tokens b) /\
      snd r !! key = Some (if fst r then takeOne b else b) /\
      tokens (takeOne b) = tokens b - 1 /\
      (forall k, k <> key -> snd r !! k = l !! k)) /\
  (forall (l : Limiter R) (t0 : Instant),
      l !! "k" = None ->
      let '(a1, l1) := Allow l t0 "k" 2 1 in
      let '(a2, l2) := Allow l1 t0 "k" 2 1 in
      let '(a3, l3) := Allow l2 t0 "k" 2 1 in
      let '(a4, _) := Allow l3 (t0 + Second)%Z "k" 2 1 in
      [a1; a2; a3; a4] = [true; true; false; true]) /\
  (limiter_ok New /\
   forall (l : Limiter R) (now : Instant) (key : string) (cap rate : R),
      limiter_ok l -> 0 <= rate -> limiter_ok (snd (Allow l now key cap rate))) /\
  (forall (l : Limiter R) (now : Instant) (key : string) (b : bucket R),
      limiter_ok l -> l !! key = Some b ->
      0 < refillRate b ->
      capacity b / refillRate b <= elapsedSeconds b now ->
      tokens (refill b now) = capacity b).
Proof.
  split; [|split; [|split]].
  { intros F ops l now key cap rate.
    destruct (observe_cases l now key cap rate) as [Hnew Hold].
    split; [exact Hnew|]. split; [exact Hold|]. apply Allow_cases. }
  { intros F ops b now. apply refill_cases. }
  { apply Allow_binary64_any. }
  split; [|split; [|split; [|split; [|split; [|split]]]]].
  - intros l now key cap rate Hnone. apply observe_fresh; exact Hnone.
  - intros l now key cap rate b Hb. unfold observe. now rewrite Hb.
  - intros b now. split; [|split].
    + apply refill_elapsed.
    + apply refill_idle.
    + apply elapsedSeconds_exact.
  - intros l now key cap rate b r.
    destruct (Allow_result l now key cap rate) as [Hyes Hno]. fold b in Hyes, Hno.
    assert (Htk : tokens (takeOne b) = tokens b - 1) by reflexivity.
    destruct (Rle_or_lt 1 (tokens b)) as [Ht|Ht].
    + unfold r. rewrite (Hyes Ht). cbn [fst snd].
      split; [tauto|]. split; [apply lookup_insert_eq|]. split; [exact Htk|].
      intros k Hk. apply lookup_insert_ne. congruence.
    + unfold r. rewrite (Hno Ht). cbn [fst snd].
      split; [split; [discriminate|lra]|]. split; [apply lookup_insert_eq|].
      split; [exact Htk|].
      intros k Hk. apply lookup_insert_ne. congruence.
  - apply Allow_scenario.
  - split; [apply New_ok|apply Allow_keeps_ok].
  - intros l now key b Hl Hb Hr Hidle.
    apply refill_full; [exact (Hl _ _ Hb)|exact Hr|exact Hidle].
Qed.

End Claims.

(** The scenario on the empty limiter, on binary64. *)
Lemma Allow_spec_witness :
  let '(a1, l1) :=
    Allow (ops:=binary64_ops (fun x => x)) New 1700000000000000000%Z "k" 2%float 1%float in
  let '(a2, l2) :=
    Allow (ops:=binary64_ops (fun x => x)) l1 1700000000000000000%Z "k" 2%float 1%float in
  let '(a3, l3) :=
    Allow (ops:=binary64_ops (fun x => x)) l2 1700000000000000000%Z "k" 2%float 1%float in
  let '(a4, _) :=
    Allow (ops:=binary64_ops (fun x => x)) l3 (1700000000000000000 + Second)%Z "k"
          2%float 1%float in
  [a1; a2; a3; a4] = [true; true; false; true].
Proof.
  apply (proj1 (proj2 (proj2 Allow_spec)) New 1700000000000000000%Z).
  apply lookup_empty.
Defined.


(** *** A run of calls for one key *)

Section Runs.
Context {F : Type} {ops : Float64Ops F}.

(** [Allow] called for [key] once for each entry, with the time of the
    call and the capacity and rate it passes. *)
Fixpoint AllowEach (l : Limiter F) (calls : list (Instant * F * F)) (key : string)
    : list bool * Limiter F :=
  match calls with
  | [] => ([], l)
  | (now, capacity, refillPerSec) :: rest =>
      let '(ok, l) := Allow l now key capacity refillPerSec in
      let '(oks, l) := AllowEach l rest key in
      (ok :: oks, l)
  end.

End Runs.

Section RunProofs.
Local Open Scope R_scope.

(** The calls come at times that do not go back, each within a
    [Duration] of the one before. *)
Fixpoint ascending (t : Instant) (calls : list (Instant * R * R)) : Prop :=
  match calls with
  | [] => True
  | (t', _, _) :: rest => (t <= t' /\ t' - t <= maxDuration)%Z /\ ascending t' rest
  end.

Definition lastTime (t : Instant) (calls : list (Instant * R * R)) : Instant :=
  fold_left (fun _ c => fst (fst c)) calls t.

Definition granted (oks : list bool) : nat := length (filter (fun ok => ok = true) oks).

Lemma granted_cons (ok : bool) (oks : list bool) :
  INR (granted (ok :: oks)) = (if ok then 1 else 0) + INR (granted oks).
Proof.
  unfold granted. destruct ok.
  - rewrite filter_cons_True by reflexivity. cbn [length]. rewrite S_INR. lra.
  - rewrite filter_cons_False by discriminate. lra.
Qed.

Lemma refill_ascending (b : bucket R) (now : Instant) :
  0 <= tokens b <= capacity b -> 0 <= refillRate b ->
  (last b <= now /\ now - last b <= maxDuration)%Z ->
  0 <= tokens (refill b now) <= capacity b /\
  tokens (refill b now) <= tokens b + refillRate b * (IZR (now - last b) / 1000000000) /\
  capacity (refill b now) = capacity b /\
  refillRate (refill b now) = refillRate b /\
  last (refill b now) = now.
Proof.
  intros [Ht Hc] Hr [Hle Hrange].
  assert (Hel : elapsedSeconds b now = IZR (now - last b) / 1000000000).
  { apply elapsedSeconds_exact. unfold minDuration, maxDuration in *. lia. }
  assert (Hel0 : 0 <= elapsedSeconds b now).
  { rewrite Hel. apply Rmult_le_pos; [apply IZR_le; lia|lra]. }
  rewrite <- Hel.
  destruct (Rle_or_lt (elapsedSeconds b now) 0) as [He|He].
  - rewrite refill_idle by exact He.
    assert (He0 : elapsedSeconds b now = 0) by lra.
    rewrite He0. split; [lra|]. split; [lra|]. split; [reflexivity|].
    split; [reflexivity|].
    rewrite Hel in He0.
    assert (Hz : IZR (now - last b) = 0) by lra.
    apply eq_IZR_R0 in Hz. lia.
  - rewrite refill_elapsed by exact He. cbn [tokens capacity refillRate last].
    assert (0 <= elapsedSeconds b now * refillRate b) by (apply Rmult_le_pos; lra).
    split; [split; [apply Rmin_glb; lra|apply Rmin_r]|].
    split; [|auto].
    eapply Rle_trans; [apply Rmin_l|]. lra.
Qed.

Lemma lastTime_cons (t now : Instant) (cap rate : R) (calls : list (Instant * R * R)) :
  lastTime t ((now, cap, rate) :: calls) = lastTime now calls.
Proof. reflexivity. Qed.

Lemma lastTime_ascending (t : Instant) (calls : list (Instant * R * R)) :
  ascending t calls -> (t <= lastTime t calls)%Z.
Proof.
  revert t. induction calls as [|[[now cap] rate] calls IH]; intros t Hasc.
  - cbn. lia.
  - destruct Hasc as [[Hle _] Hasc]. rewrite lastTime_cons.
    specialize (IH now Hasc). lia.
Qed.

Lemma AllowEach_stored (calls : list (Instant * R * R)) (l : Limiter R) (key : string)
    (b : bucket R) :
  l !! key = Some b -> 0 <= tokens b <= capacity b -> 0 <= refillRate b ->
  ascending (last b) calls ->
  exists b',
    snd (AllowEach l calls key) !! key = Some b' /\
    0 <= tokens b' <= capacity b /\
    capacity b' = capacity b /\ refillRate b' = refillRate b /\
    INR (granted (fst (AllowEach l calls key))) + tokens b' <=
    tokens b + refillRate b * (IZR (lastTime (last b) calls - last b) / 1000000000).
Proof.
  revert l b. induction calls as [|[[now cap] rate] calls IH]; intros l b Hb Ht Hr Hasc.
  - cbn. exists b. rewrite Z.sub_diag.
    unfold granted. cbn. repeat split; try assumption; lra.
  - destruct Hasc as [Hstep Hasc]. cbn [AllowEach].
    rewrite (Allow_stored l now key cap rate b Hb).
    destruct (refill_ascending b now Ht Hr Hstep) as (Ht1 & Hup & Hc1 & Hr1 & Hl1).
    set (b1 := refill b now) in *.
    rewrite lastTime_cons.
    pose proof (lastTime_ascending now calls Hasc) as Hmono.
    assert (Hsplit : IZR (lastTime now calls - last b) =
                     IZR (lastTime now calls - now) + IZR (now - last b)).
    { rewrite <- plus_IZR. f_equal. lia. }
    unfold Rleb. destruct (Rle_dec 1 (tokens b1)) as [Hone|Hnone].
    + set (b2 := takeOne b1).
      assert (Hb2 : tokens b2 = tokens b1 - 1 /\ capacity b2 = capacity b /\
                    refillRate b2 = refillRate b /\ last b2 = now).
      { unfold b2, takeOne. cbn [tokens capacity refillRate last]. auto. }
      destruct Hb2 as (Ht2 & Hc2 & Hr2 & Hl2).
      destruct (IH (<[key := b2]> l) b2) as (b' & Hb' & Ht' & Hc' & Hr' & Hsum).
      { apply lookup_insert_eq. }
      { rewrite Ht2, Hc2. lra. }
      { rewrite Hr2. exact Hr. }
      { rewrite Hl2. exact Hasc. }
      destruct (AllowEach (<[key := b2]> l) calls key) as [oks l'].
      cbn [fst snd] in *. exists b'. rewrite granted_cons.
      split; [exact Hb'|]. split; [rewrite <- Hc2; exact Ht'|].
      split; [congruence|]. split; [congruence|].
      rewrite Hl2, Hr2, Ht2 in Hsum. rewrite Hsplit. lra.
    + destruct (IH (<[key := b1]> l) b1) as (b' & Hb' & Ht' & Hc' & Hr' & Hsum).
      { apply lookup_insert_eq. }
      { rewrite Hc1. exact Ht1. }
      { rewrite Hr1. exact Hr. }
      { rewrite Hl1. exact Hasc. }
      destruct (AllowEach (<[key := b1]> l) calls key) as [oks l'].
      cbn [fst snd] in *. exists b'. rewrite granted_cons.
      split; [exact Hb'|]. split; [rewrite <- Hc1; exact Ht'|].
      split; [congruence|]. split; [congruence|].
      rewrite Hl1, Hr1 in Hsum. rewrite Hsplit. lra.
Qed.

(** X6. The limit a key is held to: over any run of calls for a key first
    seen at [t1] with capacity [cap] and rate [rate] (neither negative),
    at times that do not go back, the number of calls allowed is at most
    [cap] plus [rate] times the seconds from the first call to the last.
    The capacity and rate passed by the later calls do not matter: the
    bucket keeps those of the first. *)
Theorem Allow_rate_bound (l : Limiter R) (key : string) (t1 : Instant) (cap rate : R)
    (calls : list (Instant * R * R)) :
  l !! key = None -> 0 <= cap -> 0 <= rate -> ascending t1 calls ->
  let '(oks, l') := AllowEach l ((t1, cap, rate) :: calls) key in
  INR (granted oks) <= cap + rate * (IZR (lastTime t1 calls - t1) / 1000000000) /\
  exists b, l' !! key = Some b /\ capacity b = cap /\ refillRate b = rate.
Proof.
  intros Hnone Hcap Hrate Hasc. cbn [AllowEach].
  destruct (Allow_result l t1 key cap rate) as [Hyes Hno].
  rewrite (observe_fresh l t1 key cap rate Hnone) in Hyes, Hno.
  cbn [tokens capacity refillRate last] in Hyes, Hno.
  destruct (Rle_or_lt 1 cap) as [Hone|Hlt].
  - rewrite (Hyes Hone).
    destruct (AllowEach_stored calls (<[key := mkBucket (cap - 1) cap rate t1]> l) key
                (mkBucket (cap - 1) cap rate t1)) as (b' & Hb' & Ht' & Hc' & Hr' & Hsum).
    { apply lookup_insert_eq. }
    { cbn [tokens capacity]. lra. }
    { exact Hrate. }
    { exact Hasc. }
    cbn [tokens capacity refillRate last] in *.
    destruct (AllowEach _ calls key) as [oks l']. cbn [fst snd] in *.
    rewrite granted_cons. split; [lra|]. exists b'. auto.
  - rewrite (Hno Hlt).
    destruct (AllowEach_stored calls (<[key := mkBucket cap cap rate t1]> l) key
                (mkBucket cap cap rate t1)) as (b' & Hb' & Ht' & Hc' & Hr' & Hsum).
    { apply lookup_insert_eq. }
    { cbn [tokens capacity]. lra. }
    { exact Hrate. }
    { exact Hasc. }
    cbn [tokens capacity refillRate last] in *.
    destruct (AllowEach _ calls key) as [oks l']. cbn [fst snd] in *.
    rewrite granted_cons. split; [lra|]. exists b'. auto.
Qed.

End RunProofs.

Lemma Allow_rate_bound_witness :
  let '(oks, l') :=
    AllowEach (F:=R) New [(0%Z, 2%R, 1%R); (0%Z, 9%R, 9%R); (Second, 9%R, 9%R)] "k" in
  (INR (granted oks) <=
   2 + 1 * (IZR (lastTime 0%Z [(0%Z, 9%R, 9%R); (Second, 9%R, 9%R)] - 0) / 1000000000))%R /\
  exists b, l' !! "k" = Some b /\ capacity b = 2%R /\ refillRate b = 1%R.
Proof.
  apply (Allow_rate_bound New "k" 0%Z 2%R 1%R [(0%Z, 9%R, 9%R); (Second, 9%R, 9%R)]).
  - apply lookup_empty.
  - lra.
  - lra.
  - cbn. unfold maxDuration, Second. lia.
Defined.

(** The same run on IEEE binary64: the second and third call ask for a
    larger bucket and do not get it. *)
Example AllowEach_binary64 :
  let t0 : Instant := 1700000000000000000%Z in
  fst (AllowEach (ops:=binary64_ops (fun x => x)) New
         [(t0, 2%float, 1%float); (t0, 9%float, 9%float); (t0, 9%float, 9%float);
          ((t0 + Second)%Z, 9%float, 9%float)] "k")
  = [true; true; false; true].
Proof. vm_compute. reflexivity. Qed.

Section Binary64Runs.
Let ops64 := binary64_ops (fun x => x).
#[local] Set Warnings "-inexact-float".

(** C7 fails on float64.  A bucket of capacity 29 and rate 100/s is
    drained by 29 calls at one instant (the 30th is refused) and left idle
    for 0.29 s, which is capacity/rate as float64 computes it.  The refill
    0.29 * 100 rounds to 28.999999999999996, so the bucket is not full:
    of 30 calls at that instant 28 are allowed, not 29. *)
Lemma Allow_binary64_not_full :
  let t0 : Instant := 1700000000000000000%Z in
  let later : Instant := (t0 + 290 * Millisecond)%Z in
  let '(oks, drained) :=
    AllowEach (ops:=ops64) New (repeat (t0, 29%float, 100%float) 30) "k" in
  oks = repeat true 29 ++ [false] /\
  drained !! "k" = Some (mkBucket 0%float 29%float 100%float t0) /\
  PrimFloat.leb (PrimFloat.div 29 100) (Seconds (H:=ops64) (Sub later t0)) = true /\
  tokens (refill (ops:=ops64) (mkBucket 0%float 29%float 100%float t0) later)
    = 28.999999999999996%float /\
  PrimFloat.ltb
    (tokens (refill (ops:=ops64) (mkBucket 0%float 29%float 100%float t0) later)) 29 = true /\
  fst (AllowEach (ops:=ops64) drained (repeat (later, 29%float, 100%float) 30) "k")
    = repeat true 28 ++ [false; false].
Proof. vm_compute. repeat split. Qed.

End Binary64Runs.

End Ratelimit.

(* ===================================================================== *)
(** ** package cache: MemoryCache *)
(* ===================================================================== *)

Module Cache.
Import GoTime.

(** An [interface{}] value, as far as [Get] and [Increment] tell values
    apart. *)
Inductive Value :=
  | VString (s : string)
  | VInt64 (n : Z)
  | VOther (id : nat).

Record MemoryItem := mkItem { Value_ : Value; ExpireAt : Instant }.

(** [IsExpired], with [time.Now()] passed in. *)
Definition IsExpired (now : Instant) (m : MemoryItem) : bool :=
  (ExpireAt m <? now)%Z.

Record MemoryCache := mkCache {
  data : gmap string MemoryItem;
  access : gmap string Instant;
  maxSize : Z }.

Inductive error := ErrCacheMiss.

(** What [dest] points to. *)
Inductive Dest := DestString | DestIface | DestOther.

(** What a [Get] leaves behind: an error, the value written through
    [dest], or the panic of the failed type assertion. *)
Inductive GetOutcome :=
  | GetErr (e : error)
  | GetString (s : string)
  | GetIface (v : Value)
  | GetPanic.

Definition Hour : Duration := (3600 * Second)%Z.

(** [evictLRU]: the key with the earliest access time before [now] goes.
    Go ranges over the map in no fixed order; the model ranges in the order
    of [map_to_list]. *)
Definition evictLRU (now : Instant) (mc : MemoryCache) : MemoryCache :=
  if (size (data mc) =? 0)%nat then mc
  else
    let '(oldestKey, _) :=
      fold_left (fun '(ok, ot) '(key, accessTime) =>
                   if (accessTime <? ot)%Z then (key, accessTime) else (ok, ot))
                (map_to_list (access mc)) (""%string, now) in
    if String.eqb oldestKey "" then mc
    else mkCache (delete oldestKey (data mc)) (delete oldestKey (access mc)) (maxSize mc).

Definition Set_ (now : Instant) (mc : MemoryCache) (key : string) (value : Value)
    (expiration : Duration) : option error * MemoryCache :=
  let mc := if (maxSize mc <=? Z.of_nat (size (data mc)))%Z then evictLRU now mc else mc in
  let expireAt := if (expiration <=? 0)%Z then (now + 7 * 24 * Hour)%Z
                  else (now + expiration)%Z in
  (None, mkCache (<[key := mkItem value expireAt]> (data mc))
                 (<[key := now]> (access mc)) (maxSize mc)).

Definition Get (now : Instant) (mc : MemoryCache) (key : string) (dest : Dest)
    : GetOutcome * MemoryCache :=
  match data mc !! key with
  | None => (GetErr ErrCacheMiss, mc)
  | Some item =>
      if IsExpired now item
      then (GetErr ErrCacheMiss,
            mkCache (delete key (data mc)) (delete key (access mc)) (maxSize mc))
      else
        let mc := mkCache (data mc) (<[key := now]> (access mc)) (maxSize mc) in
        match dest, Value_ item with
        | DestString, VString str => (GetString str, mc)
        | DestIface, v => (GetIface v, mc)
        | _, _ => (GetPanic, mc)
        end
  end.

Definition Delete (mc : MemoryCache) (keys : list string) : option error * MemoryCache :=
  (None, fold_left (fun mc key => mkCache (delete key (data mc)) (delete key (access mc)) (maxSize mc))
                   keys mc).

(** [DeleteByPattern]: the pattern is not looked at. *)
Definition DeleteByPattern (mc : MemoryCache) (pattern : string)
    : option error * MemoryCache :=
  (None, mkCache ∅ ∅ (maxSize mc)).

Lemma Get_empty (now : Instant) (n : Z) (key : string) (dest : Dest) :
  Get now (mkCache ∅ ∅ n) key dest = (GetErr ErrCacheMiss, mkCache ∅ ∅ n).
Proof. unfold Get. cbn [data]. now rewrite lookup_empty. Qed.

Lemma Set_stores (now : Instant) (mc : MemoryCache) (key : string) (v : Value)
    (ttl : Duration) :
  exists item, data (snd (Set_ now mc key v ttl)) !! key = Some item /\ Value_ item = v.
Proof.
  unfold Set_. cbn [snd data]. eexists. split; [apply lookup_insert_eq|reflexivity].
Qed.

Example DeleteByPattern_no_match :
  let mc0 := mkCache ∅ ∅ 1000%Z in
  let mc1 := snd (Set_ 100%Z mc0 "regime:BTC:1m" (VString "bull") (30 * Second)%Z) in
  let before := fst (Get 200%Z mc1 "regime:BTC:1m" DestString) in
  let mc2 := snd (DeleteByPattern mc1 "edge:*") in
  let after := fst (Get 200%Z mc2 "regime:BTC:1m" DestString) in
  before = GetString "bull" /\ after = GetErr ErrCacheMiss.
Proof. vm_compute. split; reflexivity. Qed.

(** C10. Whatever the pattern, [DeleteByPattern] returns nil and leaves both
    maps empty, so a later [Get] misses on every key, those stored before
    included. *)
Theorem DeleteByPattern_wipes (mc : MemoryCache) (pattern : string) :
  fst (DeleteByPattern mc pattern) = None /\
  data (snd (DeleteByPattern mc pattern)) = ∅ /\
  access (snd (DeleteByPattern mc pattern)) = ∅ /\
  (forall (key : string) (now : Instant) (dest : Dest),
      fst (Get now (snd (DeleteByPattern mc pattern)) key dest) = GetErr ErrCacheMiss) /\
  (forall (key : string) (v : Value) (ttl : Duration) (t now : Instant) (dest : Dest),
      let stored := snd (Set_ t mc key v ttl) in
      is_Some (data stored !! key) /\
      fst (Get now (snd (DeleteByPattern stored pattern)) key dest) = GetErr ErrCacheMiss).
Proof.
  split; [reflexivity|]. split; [reflexivity|]. split; [reflexivity|]. split.
  - intros key now dest. unfold DeleteByPattern. cbn [snd]. now rewrite Get_empty.
  - intros key v ttl t now dest stored. split.
    + destruct (Set_stores t mc key v ttl) as [item [Hitem _]]. unfold stored.
      rewrite Hitem. eauto.
    + unfold DeleteByPattern. cbn [snd]. now rewrite Get_empty.
Qed.


(** *** The rest of MemoryCache *)

(** [NewMemoryCache]: the options set the size and the cleanup interval;
    [time.NewTicker] panics on an interval that is not positive ([None]). *)
Inductive MemoryOption :=
  | WithMemoryMaxSize (size : Z)
  | WithMemoryCleanup (interval : Duration).

Record MemoryConfig := mkMemoryConfig { MaxSize : Z; CleanupInterval : Duration }.

Definition applyMemoryOption (c : MemoryConfig) (opt : MemoryOption) : MemoryConfig :=
  match opt with
  | WithMemoryMaxSize size => mkMemoryConfig size (CleanupInterval c)
  | WithMemoryCleanup interval => mkMemoryConfig (MaxSize c) interval
  end.

Definition NewMemoryCache (opts : list MemoryOption) : option MemoryCache :=
  let cfg := fold_left applyMemoryOption opts (mkMemoryConfig 1000 (5 * Minute)%Z) in
  if (CleanupInterval cfg <=? 0)%Z then None
  else Some (mkCache ∅ ∅ (MaxSize cfg)).

(** [Exists]: the first key that is stored and not expired answers. *)
Fixpoint Exists (now : Instant) (mc : MemoryCache) (keys : list string) : bool :=
  match keys with
  | [] => false
  | key :: rest =>
      match data mc !! key with
      | Some item => if negb (IsExpired now item) then true else Exists now mc rest
      | None => Exists now mc rest
      end
  end.

(** [Increment]: the new count and the error text, if any. *)
Definition Increment (now : Instant) (mc : MemoryCache) (key : string)
    : Z * option string * MemoryCache :=
  match data mc !! key with
  | None =>
      (1%Z, None,
       mkCache (<[key := mkItem (VInt64 1) (now + 7 * 24 * Hour)%Z]> (data mc))
               (access mc) (maxSize mc))
  | Some item =>
      match Value_ item with
      | VInt64 val =>
          let newVal := wrap64 (val + 1) in
          (newVal, None,
           mkCache (<[key := mkItem (VInt64 newVal) (ExpireAt item)]> (data mc))
                   (access mc) (maxSize mc))
      | _ => (0%Z, Some "value is not int64"%string, mc)
      end
  end.

Definition Expire (now : Instant) (mc : MemoryCache) (key : string) (expiration : Duration)
    : bool * MemoryCache :=
  match data mc !! key with
  | Some item =>
      (true, mkCache (<[key := mkItem (Value_ item) (now + expiration)%Z]> (data mc))
                     (access mc) (maxSize mc))
  | None => (false, mc)
  end.

(** [MGet]: the strings stored under the keys and not expired. *)
Definition MGet (now : Instant) (mc : MemoryCache) (keys : list string) : gmap string string :=
  fold_left (fun results key =>
               match data mc !! key with
               | Some item =>
                   if negb (IsExpired now item)
                   then match Value_ item with
                        | VString str => <[key := str]> results
                        | _ => results
                        end
                   else results
               | None => results
               end)
            keys ∅.

Definition TryLock (now : Instant) (mc : MemoryCache) (key : string) (ttl : Duration)
    : bool * MemoryCache :=
  match data mc !! key with
  | Some item =>
      if negb (IsExpired now item) then (false, mc)
      else (true, mkCache (<[key := mkItem (VString "locked") (now + ttl)%Z]> (data mc))
                          (access mc) (maxSize mc))
  | None =>
      (true, mkCache (<[key := mkItem (VString "locked") (now + ttl)%Z]> (data mc))
                     (access mc) (maxSize mc))
  end.

Definition Unlock (mc : MemoryCache) (key : string) : option error * MemoryCache :=
  Delete mc [key].

(** One tick of [cleanupExpired]: the expired keys are collected, then
    deleted from both maps. *)
Definition cleanupExpired (now : Instant) (mc : MemoryCache) : MemoryCache :=
  let expiredKeys :=
    fold_left (fun acc '(key, item) =>
                 if (ExpireAt item <? now)%Z then acc ++ [key] else acc)
              (map_to_list (data mc)) [] in
  fold_left (fun mc key =>
               mkCache (delete key (data mc)) (delete key (access mc)) (maxSize mc))
            expiredKeys mc.

(** *** Reading and writing one key *)

Definition lifetime (expiration : Duration) : Duration :=
  if (expiration <=? 0)%Z then (7 * 24 * Hour)%Z else expiration.

Lemma Set_data (t : Instant) (mc : MemoryCache) (key : string) (v : Value) (exp : Duration) :
  data (snd (Set_ t mc key v exp)) !! key = Some (mkItem v (t + lifetime exp)%Z).
Proof.
  unfold Set_, lifetime. cbn [snd data]. rewrite lookup_insert_eq.
  destruct (exp <=? 0)%Z; reflexivity.
Qed.

Lemma Get_hit (now : Instant) (mc : MemoryCache) (key : string) (item : MemoryItem)
    (dest : Dest) :
  data mc !! key = Some item -> (now <= ExpireAt item)%Z ->
  Get now mc key dest =
  (match dest, Value_ item with
   | DestString, VString str => GetString str
   | DestIface, v => GetIface v
   | _, _ => GetPanic
   end,
   mkCache (data mc) (<[key := now]> (access mc)) (maxSize mc)).
Proof.
  intros Hk Hlive. unfold Get, IsExpired. rewrite Hk.
  destruct (Z.ltb_spec (ExpireAt item) now); [lia|].
  destruct dest, (Value_ item); reflexivity.
Qed.

Lemma Get_expired (now : Instant) (mc : MemoryCache) (key : string) (item : MemoryItem)
    (dest : Dest) :
  data mc !! key = Some item -> (ExpireAt item < now)%Z ->
  Get now mc key dest =
  (GetErr ErrCacheMiss,
   mkCache (delete key (data mc)) (delete key (access mc)) (maxSize mc)).
Proof.
  intros Hk Hdead. unfold Get, IsExpired. rewrite Hk.
  destruct (Z.ltb_spec (ExpireAt item) now); [reflexivity|lia].
Qed.

Lemma Get_missing (now : Instant) (mc : MemoryCache) (key : string) (dest : Dest) :
  data mc !! key = None -> Get now mc key dest = (GetErr ErrCacheMiss, mc).
Proof. intros Hk. unfold Get. now rewrite Hk. Qed.

(** X7. A value stored by [Set] at [t] is what [Get] returns until its
    deadline (the expiration, or seven days when that is not positive): as
    it is through an [*interface{}], as a string through a [*string] if it
    is one, and by a panic of the type assertion otherwise; the read
    refreshes the access time and leaves the data alone. *)
Theorem Set_Get_roundtrip (t now : Instant) (mc : MemoryCache) (key : string) (v : Value)
    (exp : Duration) :
  (now <= t + lifetime exp)%Z ->
  let stored := snd (Set_ t mc key v exp) in
  fst (Set_ t mc key v exp) = None /\
  fst (Get now stored key DestIface) = GetIface v /\
  fst (Get now stored key DestString) =
    match v with VString s => GetString s | _ => GetPanic end /\
  fst (Get now stored key DestOther) = GetPanic /\
  (forall dest, data (snd (Get now stored key dest)) = data stored) /\
  (forall dest, access (snd (Get now stored key dest)) !! key = Some now).
Proof.
  intros Hlive stored.
  pose proof (Set_data t mc key v exp) as Hk. fold stored in Hk.
  assert (HG : forall dest, Get now stored key dest =
            (match dest, v with
             | DestString, VString str => GetString str
             | DestIface, v => GetIface v
             | _, _ => GetPanic
             end,
             mkCache (data stored) (<[key := now]> (access stored)) (maxSize stored))).
  { intros dest. now rewrite (Get_hit now stored key _ dest Hk). }
  split; [reflexivity|]. split; [now rewrite HG|].
  split; [rewrite HG; now destruct v|]. split; [rewrite HG; now destruct v|].
  split; intros dest; rewrite HG; cbn [snd data access]; [reflexivity|].
  apply lookup_insert_eq.
Qed.

Lemma Set_Get_roundtrip_witness :
  let stored := snd (Set_ 100%Z (mkCache ∅ ∅ 1000%Z) "k" (VString "v") 0%Z) in
  fst (Set_ 100%Z (mkCache ∅ ∅ 1000%Z) "k" (VString "v") 0%Z) = None /\
  fst (Get 200%Z stored "k" DestIface) = GetIface (VString "v") /\
  fst (Get 200%Z stored "k" DestString) = GetString "v" /\
  fst (Get 200%Z stored "k" DestOther) = GetPanic /\
  (forall dest, data (snd (Get 200%Z stored "k" dest)) = data stored) /\
  (forall dest, access (snd (Get 200%Z stored "k" dest)) !! "k" = Some 200%Z).
Proof.
  apply (Set_Get_roundtrip 100%Z 200%Z (mkCache ∅ ∅ 1000%Z) "k" (VString "v") 0%Z).
  vm_compute. discriminate.
Defined.

(** X8. Past its deadline a key reads as a miss, whatever the destination:
    the first [Get] that finds it expired deletes it from both maps, and
    every later [Get] misses on the absent key; the other keys stay. *)
Theorem Get_expired_evicts (now later : Instant) (mc : MemoryCache) (key : string)
    (item : MemoryItem) (dest dest' : Dest) :
  data mc !! key = Some item -> (ExpireAt item < now)%Z ->
  let after := snd (Get now mc key dest) in
  fst (Get now mc key dest) = GetErr ErrCacheMiss /\
  data after !! key = None /\ access after !! key = None /\
  Get later after key dest' = (GetErr ErrCacheMiss, after) /\
  (forall k, k <> key -> data after !! k = data mc !! k /\ access after !! k = access mc !! k).
Proof.
  intros Hk Hdead after. unfold after.
  rewrite (Get_expired now mc key item dest Hk Hdead). cbn [fst snd data access].
  split; [reflexivity|]. split; [apply lookup_delete_eq|]. split; [apply lookup_delete_eq|].
  split.
  - apply Get_missing. cbn [data]. apply lookup_delete_eq.
  - intros k Hne. split; now apply lookup_delete_ne.
Qed.

Lemma Get_expired_evicts_witness :
  let mc := snd (Set_ 100%Z (mkCache ∅ ∅ 1000%Z) "k" (VString "v") 50%Z) in
  let after := snd (Get 151%Z mc "k" DestString) in
  fst (Get 151%Z mc "k" DestString) = GetErr ErrCacheMiss /\
  data after !! "k" = None /\ access after !! "k" = None /\
  Get 120%Z after "k" DestIface = (GetErr ErrCacheMiss, after) /\
  (forall k, k <> "k" -> data after !! k = data mc !! k /\ access after !! k = access mc !! k).
Proof.
  apply (Get_expired_evicts 151%Z 120%Z _ "k" (mkItem (VString "v") 150%Z)).
  - apply Set_data.
  - vm_compute. reflexivity.
Defined.

(** *** Deleting *)

Definition deleteKey (mc : MemoryCache) (key : string) : MemoryCache :=
  mkCache (delete key (data mc)) (delete key (access mc)) (maxSize mc).

Lemma deleteKeys_lookup (keys : list string) (mc : MemoryCache) (k : string) :
  let mc' := fold_left deleteKey keys mc in
  data mc' !! k = (if decide (k ∈ keys) then None else data mc !! k) /\
  access mc' !! k = (if decide (k ∈ keys) then None else access mc !! k) /\
  maxSize mc' = maxSize mc.
Proof.
  revert mc. induction keys as [|key keys IH]; intros mc; cbn [fold_left].
  - destruct (decide (k ∈ [])) as [Hin|_]; [now apply elem_of_nil in Hin|]. auto.
  - destruct (IH (deleteKey mc key)) as (Hd & Ha & Hm). cbn zeta in *.
    rewrite Hd, Ha, Hm. unfold deleteKey. cbn [data access maxSize].
    destruct (decide (k ∈ keys)) as [Hin|Hnin].
    + destruct (decide (k ∈ key :: keys)) as [_|Hn]; [auto|].
      exfalso. apply Hn. now right.
    + destruct (decide (k = key)) as [->|Hne].
      * rewrite !lookup_delete_eq.
        destruct (decide (key ∈ key :: keys)) as [_|Hn]; [auto|].
        exfalso. apply Hn. left.
      * rewrite !lookup_delete_ne by congruence.
        destruct (decide (k ∈ key :: keys)) as [Hin|_]; [|auto].
        apply elem_of_cons in Hin as [?|?]; contradiction.
Qed.

(** X9. [Delete] returns nil and removes exactly the listed keys, from the
    data and from the access times; every other key keeps its item, and a
    deleted key reads as a miss.  Deleting a key that is not stored is not
    an error. *)
Theorem Delete_spec (mc : MemoryCache) (keys : list string) :
  fst (Delete mc keys) = None /\
  maxSize (snd (Delete mc keys)) = maxSize mc /\
  (forall k, k ∈ keys ->
     data (snd (Delete mc keys)) !! k = None /\
     access (snd (Delete mc keys)) !! k = None /\
     forall now dest, fst (Get now (snd (Delete mc keys)) k dest) = GetErr ErrCacheMiss) /\
  (forall k, k ∉ keys ->
     data (snd (Delete mc keys)) !! k = data mc !! k /\
     access (snd (Delete mc keys)) !! k = access mc !! k).
Proof.
  unfold Delete. cbn [fst snd].
  split; [reflexivity|]. split; [apply (deleteKeys_lookup keys mc "")|].
  split; intros k Hk; destruct (deleteKeys_lookup keys mc k) as (Hd & Ha & _);
    cbn zeta in *; unfold deleteKey in *; rewrite Hd, Ha;
    destruct (decide (k ∈ keys)); try contradiction; auto.
  split; [reflexivity|]. split; [reflexivity|].
  intros now dest. rewrite Get_missing; [reflexivity|].
  rewrite Hd. now destruct (decide (k ∈ keys)).
Qed.

(** *** Eviction *)

Definition older (acc : string * Instant) (kv : string * Instant) : string * Instant :=
  let '(ok, ot) := acc in
  let '(key, accessTime) := kv in
  if (accessTime <? ot)%Z then (key, accessTime) else (ok, ot).

Lemma oldest_fold (l : list (string * Instant)) (k0 : string) (t0 : Instant) :
  let r := fold_left older l (k0, t0) in
  (snd r <= t0)%Z /\
  (forall k t, (k, t) ∈ l -> (snd r <= t)%Z) /\
  (r = (k0, t0) \/ (r ∈ l /\ (snd r < t0)%Z)).
Proof.
  revert k0 t0. induction l as [|[key at_] l IH]; intros k0 t0; cbn [fold_left].
  - cbn. split; [lia|]. split; [|now left]. intros k t Hin. now apply elem_of_nil in Hin.
  - change (older (k0, t0) (key, at_))
      with (if (at_ <? t0)%Z then (key, at_) else (k0, t0)).
    destruct (Z.ltb_spec at_ t0) as [Hlt|Hge].
    + destruct (IH key at_) as (Hle & Hall & Hor). cbn zeta in *.
      split; [lia|]. split.
      * intros k t Hin. apply elem_of_cons in Hin as [Heq|Hin].
        -- injection Heq as -> ->. exact Hle.
        -- eapply Hall, Hin.
      * right. destruct Hor as [->|[Hin Hlt']].
        -- split; [left|exact Hlt].
        -- split; [now right|lia].
    + destruct (IH k0 t0) as (Hle & Hall & Hor). cbn zeta in *.
      split; [lia|]. split.
      * intros k t Hin. apply elem_of_cons in Hin as [Heq|Hin].
        -- injection Heq as -> ->. lia.
        -- eapply Hall, Hin.
      * destruct Hor as [->|[Hin Hlt']]; [now left|]. right. split; [now right|exact Hlt'].
Qed.

Lemma evictLRU_unfold (now : Instant) (mc : MemoryCache) :
  evictLRU now mc =
  if (size (data mc) =? 0)%nat then mc
  else
    let r := fold_left older (map_to_list (access mc)) (""%string, now) in
    if String.eqb (fst r) "" then mc else deleteKey mc (fst r).
Proof.
  unfold evictLRU. destruct (size (data mc) =? 0)%nat; [reflexivity|].
  assert (Hf : forall l acc,
             fold_left (fun '(ok, ot) '(key, accessTime) =>
                          if (accessTime <? ot)%Z then (key, accessTime) else (ok, ot)) l acc =
             fold_left older l acc).
  { induction l as [|[k t] l IH]; intros [ok ot]; cbn [fold_left]; [reflexivity|].
    rewrite IH. reflexivity. }
  rewrite Hf. cbn zeta.
  assert (E : forall r : string * Instant,
             (let '(oldestKey, _) := r in
              if String.eqb oldestKey "" then mc
              else mkCache (delete oldestKey (data mc)) (delete oldestKey (access mc))
                           (maxSize mc)) =
             (if String.eqb (fst r) "" then mc else deleteKey mc (fst r)))
    by (intros [ok ot]; reflexivity).
  apply E.
Qed.

(** X10. [evictLRU] removes at most one key, and the one it removes is
    least recently used: its access time is before [now] and no key has
    an earlier one.  Nothing goes when the cache is empty or no access time
    is before [now]. *)
Theorem evictLRU_least_recent (now : Instant) (mc : MemoryCache) :
  evictLRU now mc = mc \/
  exists key t,
    access mc !! key = Some t /\ (t < now)%Z /\ key <> ""%string /\
    (forall k' t', access mc !! k' = Some t' -> (t <= t')%Z) /\
    evictLRU now mc =
    mkCache (delete key (data mc)) (delete key (access mc)) (maxSize mc).
Proof.
  rewrite evictLRU_unfold. destruct (size (data mc) =? 0)%nat; [now left|].
  cbn zeta.
  destruct (oldest_fold (map_to_list (access mc)) "" now) as (_ & Hall & Hor).
  cbn zeta in *.
  destruct (fold_left older (map_to_list (access mc)) (""%string, now)) as [ok ot] eqn:Hr.
  cbn [fst snd] in *.
  destruct (String.eqb_spec ok "") as [->|Hne]; [now left|].
  right. destruct Hor as [Heq|[Hin Hlt]]; [congruence|].
  exists ok, ot. apply elem_of_map_to_list in Hin.
  split; [exact Hin|]. split; [exact Hlt|]. split; [exact Hne|]. split; [|reflexivity].
  intros k' t' Hk'. apply (Hall k' t'). now apply elem_of_map_to_list.
Qed.

(** The state [Set], [Get] and [Delete] keep: every stored key has an
    access time before [now] and the other way round, and no key is the
    empty string. *)
Definition cache_ok (now : Instant) (mc : MemoryCache) : Prop :=
  dom (data mc) = dom (access mc) /\
  data mc !! ""%string = None /\
  (forall k t, access mc !! k = Some t -> (t < now)%Z).

Lemma evictLRU_makes_room (now : Instant) (mc : MemoryCache) :
  cache_ok now mc -> size (data mc) <> 0%nat ->
  exists key, is_Some (data mc !! key) /\ key <> ""%string /\
              evictLRU now mc = deleteKey mc key.
Proof.
  intros (Hdom & Hempty & Hold) Hsize.
  rewrite evictLRU_unfold. destruct (Nat.eqb_spec (size (data mc)) 0); [contradiction|].
  cbn zeta.
  destruct (oldest_fold (map_to_list (access mc)) "" now) as (_ & _ & Hor).
  cbn zeta in *.
  assert (Hne : exists k t, access mc !! k = Some t).
  { apply map_size_non_empty_iff in Hsize.
    apply map_choose in Hsize as (k & item & Hk).
    assert (Hin : k ∈ dom (access mc)) by (rewrite <- Hdom; apply elem_of_dom; eauto).
    apply elem_of_dom in Hin as [t Ht]. eauto. }
  destruct Hne as (k1 & t1 & Hk1).
  destruct Hor as [Heq|[Hin Hlt]].
  - exfalso.
    destruct (oldest_fold (map_to_list (access mc)) "" now) as (_ & Hall & _).
    cbn zeta in Hall. rewrite Heq in Hall. cbn [snd] in Hall.
    specialize (Hall k1 t1 ltac:(now apply elem_of_map_to_list)).
    specialize (Hold k1 t1 Hk1). lia.
  - destruct (fold_left older (map_to_list (access mc)) (""%string, now)) as [ok ot].
    cbn [fst snd] in *. apply elem_of_map_to_list in Hin.
    assert (Hd : is_Some (data mc !! ok)).
    { apply elem_of_dom. rewrite Hdom. apply elem_of_dom. eauto. }
    assert (Hnz : ok <> ""%string).
    { intros ->. rewrite Hempty in Hd. now destruct Hd. }
    exists ok. split; [exact Hd|]. split; [exact Hnz|].
    destruct (String.eqb_spec ok ""); [contradiction|reflexivity].
Qed.

(** X11. With a size limit of at least one, keys that are not empty and a
    clock that moves between calls, [Set] never takes the cache over its
    limit: a full cache loses its least recently used key first.  [Set]
    keeps the state this needs, and so do [Get] and [Delete], which never
    grow the cache. *)
Theorem Set_keeps_capacity (now next : Instant) (mc : MemoryCache) (key : string)
    (v : Value) (exp : Duration) :
  cache_ok now mc ->
  (Z.of_nat (size (data mc)) <= maxSize mc)%Z -> (1 <= maxSize mc)%Z ->
  key <> ""%string -> (now < next)%Z ->
  let mc' := snd (Set_ now mc key v exp) in
  cache_ok next mc' /\ maxSize mc' = maxSize mc /\
  (Z.of_nat (size (data mc')) <= maxSize mc)%Z /\
  (forall k dest, k <> ""%string ->
     cache_ok next (snd (Get now mc k dest)) /\
     (size (data (snd (Get now mc k dest))) <= size (data mc))%nat) /\
  (forall keys,
     cache_ok now (snd (Delete mc keys)) /\
     (size (data (snd (Delete mc keys))) <= size (data mc))%nat).
Proof.
  intros Hok Hsize Hmax Hkey Hnext mc'.
  assert (Hroom : exists mc1,
            (if (maxSize mc <=? Z.of_nat (size (data mc)))%Z then evictLRU now mc else mc) = mc1 /\
            cache_ok now mc1 /\ maxSize mc1 = maxSize mc /\
            (Z.of_nat (size (data mc1)) < maxSize mc \/
             (data mc1 !! key = None -> Z.of_nat (size (data mc1)) < maxSize mc))%Z /\
            (Z.of_nat (size (data mc1)) <= maxSize mc)%Z).
  { destruct (Z.leb_spec (maxSize mc) (Z.of_nat (size (data mc)))) as [Hfull|Hfree].
    - destruct (evictLRU_makes_room now mc Hok ltac:(lia)) as (k & [item Hk] & Hnz & ->).
      eexists. split; [reflexivity|]. unfold deleteKey. cbn [data access maxSize].
      destruct Hok as (Hdom & Hempty & Hold).
      assert (Hs : size (delete k (data mc)) = pred (size (data mc)))
        by (eapply map_size_delete_Some; eauto).
      split; [|split; [reflexivity|split; [left; rewrite Hs; lia|rewrite Hs; lia]]].
      unfold cache_ok. cbn [data access]. split; [|split].
      + rewrite !dom_delete_L. now rewrite Hdom.
      + rewrite lookup_delete_ne by congruence. exact Hempty.
      + intros k' t' Hk'. apply lookup_delete_Some in Hk' as [_ Hk']. eauto.
    - exists mc. split; [reflexivity|]. split; [exact Hok|]. split; [reflexivity|].
      split; [left; lia|lia]. }
  destruct Hroom as (mc1 & Heq & (Hdom & Hempty & Hold) & Hm & Hlt & Hle).
  assert (Hmc' : mc' = mkCache (<[key := mkItem v (now + lifetime exp)%Z]> (data mc1))
                              (<[key := now]> (access mc1)) (maxSize mc1)).
  { unfold mc', Set_, lifetime. cbn [snd]. rewrite Heq.
    destruct (exp <=? 0)%Z; reflexivity. }
  split; [|split; [|split; [|split]]].
  - rewrite Hmc'. unfold cache_ok. cbn [data access]. split; [|split].
    + rewrite !dom_insert_L. now rewrite Hdom.
    + rewrite lookup_insert_ne by congruence. exact Hempty.
    + intros k t Hk. apply lookup_insert_Some in Hk as [[_ <-]|[_ Hk]]; [lia|].
      specialize (Hold k t Hk). lia.
  - rewrite Hmc'. exact Hm.
  - rewrite Hmc'. cbn [data].
    destruct (data mc1 !! key) as [old|] eqn:Hold1.
    + erewrite map_size_insert_Some by eauto. exact Hle.
    + rewrite map_size_insert_None by exact Hold1.
      destruct Hlt as [Hlt|Hlt]; [lia|]. specialize (Hlt eq_refl). lia.
  - intros k dest Hk. destruct Hok as (Hdom0 & Hempty0 & Hold0). unfold Get.
    destruct (data mc !! k) as [item|] eqn:Hitem.
    + destruct (IsExpired now item).
      * cbn [snd data access]. split.
        -- unfold cache_ok. cbn [data access]. split; [|split].
           ++ rewrite !dom_delete_L. now rewrite Hdom0.
           ++ rewrite lookup_delete_ne by congruence. exact Hempty0.
           ++ intros k' t' Hk'. apply lookup_delete_Some in Hk' as [_ Hk'].
              specialize (Hold0 k' t' Hk'). lia.
        -- erewrite map_size_delete_Some by eauto. lia.
      * assert (Hc : cache_ok next (mkCache (data mc) (<[k := now]> (access mc)) (maxSize mc))).
        { unfold cache_ok. cbn [data access]. split; [|split].
          - rewrite dom_insert_lookup_L; [exact Hdom0|].
            apply elem_of_dom. rewrite <- Hdom0. apply elem_of_dom. eauto.
          - exact Hempty0.
          - intros k' t' Hk'. apply lookup_insert_Some in Hk' as [[_ <-]|[_ Hk']]; [lia|].
            specialize (Hold0 k' t' Hk'). lia. }
        destruct dest, (Value_ item); cbn [snd data]; (split; [exact Hc|lia]).
    + cbn [snd]. split; [|lia]. split; [exact Hdom0|]. split; [exact Hempty0|].
      intros k' t' Hk'. specialize (Hold0 k' t' Hk'). lia.
  - intros keys. unfold Delete. cbn [snd]. fold deleteKey.
    change (fun mc0 key0 => mkCache (delete key0 (data mc0)) (delete key0 (access mc0)) (maxSize mc0))
      with deleteKey.
    clear - Hok. revert mc Hok. induction keys as [|k keys IH]; intros mc Hok; cbn [fold_left].
    + split; [exact Hok|lia].
    + destruct Hok as (Hdom0 & Hempty0 & Hold0).
      assert (Hok1 : cache_ok now (deleteKey mc k)).
      { unfold deleteKey. split; [|split]; cbn [data access].
        - rewrite !dom_delete_L. now rewrite Hdom0.
        - destruct (decide (k = ""%string)) as [->|Hne];
            [apply lookup_delete_eq|rewrite lookup_delete_ne by congruence; exact Hempty0].
        - intros k' t' Hk'. apply lookup_delete_Some in Hk' as [_ Hk']. eauto. }
      destruct (IH _ Hok1) as [Hc Hs]. split; [exact Hc|].
      etransitivity; [exact Hs|]. unfold deleteKey. cbn [data].
      destruct (data mc !! k) eqn:Hk.
      * erewrite map_size_delete_Some by eauto. lia.
      * rewrite map_size_delete_None by exact Hk. lia.
Qed.

Lemma cache_ok_empty (now : Instant) (n : Z) : cache_ok now (mkCache ∅ ∅ n).
Proof.
  unfold cache_ok. cbn [data access]. split; [now rewrite !dom_empty_L|].
  split; [apply lookup_empty|]. intros k t Hk. now rewrite lookup_empty in Hk.
Qed.

Lemma Set_keeps_capacity_witness :
  let full := snd (Set_ 1%Z (mkCache ∅ ∅ 1%Z) "a" (VString "x") 0%Z) in
  let mc' := snd (Set_ 2%Z full "b" (VString "y") 0%Z) in
  cache_ok 3%Z mc' /\ maxSize mc' = maxSize full /\
  (Z.of_nat (size (data mc')) <= maxSize full)%Z /\
  (forall k dest, k <> ""%string ->
     cache_ok 3%Z (snd (Get 2%Z full k dest)) /\
     (size (data (snd (Get 2%Z full k dest))) <= size (data full))%nat) /\
  (forall keys,
     cache_ok 2%Z (snd (Delete full keys)) /\
     (size (data (snd (Delete full keys))) <= size (data full))%nat).
Proof.
  apply (Set_keeps_capacity 2%Z 3%Z
           (snd (Set_ 1%Z (mkCache ∅ ∅ 1%Z) "a" (VString "x") 0%Z)) "b" (VString "y") 0%Z).
  - apply (Set_keeps_capacity 1%Z 2%Z (mkCache ∅ ∅ 1%Z) "a" (VString "x") 0%Z).
    + apply cache_ok_empty.
    + vm_compute. discriminate.
    + vm_compute. discriminate.
    + discriminate.
    + reflexivity.
  - vm_compute. discriminate.
  - vm_compute. discriminate.
  - discriminate.
  - reflexivity.
Defined.

(** The full cache of the witness does lose its older key, and two writes
    in the same instant are what the clock condition rules out. *)
Example Set_evicts_oldest :
  let full := snd (Set_ 1%Z (mkCache ∅ ∅ 1%Z) "a" (VString "x") 0%Z) in
  data (snd (Set_ 2%Z full "b" (VString "y") 0%Z)) !! "a" = None /\
  size (data (snd (Set_ 2%Z full "b" (VString "y") 0%Z))) = 1%nat /\
  size (data (snd (Set_ 1%Z full "b" (VString "y") 0%Z))) = 2%nat.
Proof. vm_compute. repeat split. Qed.

(** *** Locks *)

Lemma TryLock_free (now : Instant) (mc : MemoryCache) (key : string) (ttl : Duration) :
  (data mc !! key = None \/
   exists item, data mc !! key = Some item /\ (ExpireAt item < now)%Z) ->
  TryLock now mc key ttl =
  (true, mkCache (<[key := mkItem (VString "locked") (now + ttl)%Z]> (data mc))
                 (access mc) (maxSize mc)).
Proof.
  intros [Hk|(item & Hk & Hdead)]; unfold TryLock, IsExpired; rewrite Hk; [reflexivity|].
  destruct (Z.ltb_spec (ExpireAt item) now); [reflexivity|lia].
Qed.

Lemma TryLock_held (now : Instant) (mc : MemoryCache) (key : string) (ttl : Duration)
    (item : MemoryItem) :
  data mc !! key = Some item -> (now <= ExpireAt item)%Z ->
  TryLock now mc key ttl = (false, mc).
Proof.
  intros Hk Hlive. unfold TryLock, IsExpired. rewrite Hk.
  destruct (Z.ltb_spec (ExpireAt item) now); [lia|reflexivity].
Qed.

(** X12. [TryLock] succeeds exactly when the key is absent or expired (a
    live value of any kind under the key counts as held).  Once taken at
    [t] for [ttl], every [TryLock] up to [t + ttl] fails and changes
    nothing; the lock is free again after [Unlock], and by itself once
    [t + ttl] has passed. *)
Theorem TryLock_excludes (t : Instant) (mc : MemoryCache) (key : string) (ttl : Duration) :
  (fst (TryLock t mc key ttl) = true <->
   data mc !! key = None \/
   exists item, data mc !! key = Some item /\ (ExpireAt item < t)%Z) /\
  (fst (TryLock t mc key ttl) = false -> snd (TryLock t mc key ttl) = mc) /\
  (fst (TryLock t mc key ttl) = true ->
   let held := snd (TryLock t mc key ttl) in
   (forall now ttl', (now <= t + ttl)%Z -> TryLock now held key ttl' = (false, held)) /\
   (forall now ttl', fst (TryLock now (snd (Unlock held key)) key ttl') = true) /\
   (forall now ttl', (t + ttl < now)%Z -> fst (TryLock now held key ttl') = true)).
Proof.
  split; [|split].
  - split.
    + unfold TryLock, IsExpired. destruct (data mc !! key) as [item|]; [|now left].
      destruct (Z.ltb_spec (ExpireAt item) t); cbn; [|discriminate].
      right. eauto.
    + intros H. now rewrite (TryLock_free t mc key ttl H).
  - unfold TryLock. destruct (data mc !! key) as [item|]; [|discriminate].
    destruct (negb (IsExpired t item)); [reflexivity|discriminate].
  - intros Hgot held.
    assert (Hheld : held = mkCache (<[key := mkItem (VString "locked") (t + ttl)%Z]> (data mc))
                                   (access mc) (maxSize mc)).
    { unfold held, TryLock in *. destruct (data mc !! key) as [item|]; [|reflexivity].
      destruct (negb (IsExpired t item)); [discriminate|reflexivity]. }
    assert (Hk : data held !! key = Some (mkItem (VString "locked") (t + ttl)%Z))
      by (rewrite Hheld; apply lookup_insert_eq).
    split; [|split].
    + intros now ttl' Hnow. now apply (TryLock_held now held key ttl' _ Hk).
    + intros now ttl'. rewrite TryLock_free; [reflexivity|]. left.
      unfold Unlock, Delete. cbn. apply lookup_delete_eq.
    + intros now ttl' Hnow. rewrite TryLock_free; [reflexivity|]. right. eauto.
Qed.

(** *** Counters *)

(** [Increment] called once at each of the given times. *)
Fixpoint IncrementEach (times : list Instant) (mc : MemoryCache) (key : string)
    : list (Z * option string) * MemoryCache :=
  match times with
  | [] => ([], mc)
  | now :: rest =>
      let '(n, err, mc) := Increment now mc key in
      let '(out, mc) := IncrementEach rest mc key in
      ((n, err) :: out, mc)
  end.

Lemma IncrementEach_from (times : list Instant) (mc : MemoryCache) (key : string)
    (v : Z) (e : Instant) :
  data mc !! key = Some (mkItem (VInt64 v) e) ->
  (0 <= v)%Z -> (v + Z.of_nat (length times) < 2 ^ 63)%Z ->
  fst (IncrementEach times mc key) =
    map (fun i => ((v + 1 + Z.of_nat i)%Z, None)) (seq 0 (length times)) /\
  data (snd (IncrementEach times mc key)) !! key =
    Some (mkItem (VInt64 (v + Z.of_nat (length times))) e) /\
  access (snd (IncrementEach times mc key)) = access mc.
Proof.
  revert mc v. induction times as [|now times IH]; intros mc v Hk Hv Hmax.
  - cbn. rewrite Z.add_0_r. auto.
  - cbn [IncrementEach]. unfold Increment. rewrite Hk. cbn [Value_ ExpireAt].
    rewrite wrap64_small by (cbn [length] in Hmax; lia).
    set (mc1 := mkCache _ _ _).
    destruct (IH mc1 (v + 1)%Z) as (Hout & Hd & Ha).
    { unfold mc1. cbn [data]. apply lookup_insert_eq. }
    { lia. }
    { cbn [length] in Hmax. lia. }
    destruct (IncrementEach times mc1 key) as [out mc2]. cbn [fst snd] in *.
    split; [|split].
    + cbn [length seq map]. rewrite Hout. f_equal; [f_equal; lia|].
      rewrite <- seq_shift, map_map. apply map_ext. intros i. f_equal. lia.
    + rewrite Hd. cbn [length]. do 3 f_equal. lia.
    + rewrite Ha. reflexivity.
Qed.

(** X13. On a key that is not stored, the i-th of any number of
    [Increment] calls (fewer than 2^63) returns [i] with no error, the
    count is what an [*interface{}] read finds within seven days of the
    first call, and no access time is written.  A value that is not an
    int64 gives the error and is left alone.  The expiry is not looked at:
    an expired counter goes on counting from its old value and stays
    expired. *)
Theorem Increment_counts (t : Instant) (times : list Instant) (mc : MemoryCache)
    (key : string) :
  (data mc !! key = None -> (Z.of_nat (length times) < 2 ^ 63 - 1)%Z ->
   let '(out, mc') := IncrementEach (t :: times) mc key in
   out = map (fun i => (Z.of_nat (S i), None)) (seq 0 (S (length times))) /\
   access mc' = access mc /\
   forall now, (now <= t + 7 * 24 * Hour)%Z ->
     fst (Get now mc' key DestIface) = GetIface (VInt64 (Z.of_nat (S (length times))))) /\
  (forall item,
     data mc !! key = Some item -> (forall n, Value_ item <> VInt64 n) ->
     Increment t mc key = (0%Z, Some "value is not int64"%string, mc)) /\
  (forall v e,
     data mc !! key = Some (mkItem (VInt64 v) e) -> (e < t)%Z -> (v < 2 ^ 63 - 1)%Z ->
     (- 2 ^ 63 <= v)%Z ->
     fst (Increment t mc key) = ((v + 1)%Z, None) /\
     data (snd (Increment t mc key)) !! key = Some (mkItem (VInt64 (v + 1)) e) /\
     forall dest, fst (Get t (snd (Increment t mc key)) key dest) = GetErr ErrCacheMiss).
Proof.
  split; [|split].
  - intros Hk Hmax. cbn [IncrementEach]. unfold Increment. rewrite Hk.
    set (mc1 := mkCache _ _ _).
    destruct (IncrementEach_from times mc1 key 1 (t + 7 * 24 * Hour)%Z) as (Hout & Hd & Ha).
    { unfold mc1. cbn [data]. apply lookup_insert_eq. }
    { lia. }
    { lia. }
    destruct (IncrementEach times mc1 key) as [out mc2]. cbn [fst snd] in *.
    split; [|split].
    + cbn [seq map]. f_equal. rewrite Hout.
      rewrite <- seq_shift, map_map. apply map_ext. intros i. f_equal. lia.
    + rewrite Ha. reflexivity.
    + intros now Hnow. rewrite (Get_hit now mc2 key _ DestIface Hd) by (cbn; lia).
      cbn. do 2 f_equal. lia.
  - intros item Hk Hno. unfold Increment. rewrite Hk.
    destruct (Value_ item) as [s|n|i] eqn:Hv; [reflexivity| |reflexivity].
    now destruct (Hno n).
  - intros v e Hk Hdead Hmax Hmin. unfold Increment. rewrite Hk. cbn [Value_ ExpireAt].
    rewrite wrap64_small by lia. cbn [fst snd data].
    split; [reflexivity|]. split; [apply lookup_insert_eq|].
    intros dest.
    rewrite (Get_expired t _ key (mkItem (VInt64 (v + 1)) e) dest); [reflexivity| |exact Hdead].
    cbn [data]. apply lookup_insert_eq.
Qed.

Example Increment_thrice :
  fst (IncrementEach [10; 20; 30]%Z (mkCache ∅ ∅ 1000%Z) "hits") =
  [(1%Z, None); (2%Z, None); (3%Z, None)].
Proof. vm_compute. reflexivity. Qed.

(** *** The janitor *)

Lemma expiredKeys_fold (now : Instant) (l : list (string * MemoryItem)) (acc : list string)
    (k : string) :
  k ∈ fold_left (fun acc '(key, item) =>
                   if (ExpireAt item <? now)%Z then acc ++ [key] else acc) l acc <->
  k ∈ acc \/ exists item, (k, item) ∈ l /\ (ExpireAt item < now)%Z.
Proof.
  revert acc. induction l as [|[key item] l IH]; intros acc; cbn [fold_left].
  - split; [now left|]. intros [H|(item & Hin & _)]; [exact H|].
    now apply elem_of_nil in Hin.
  - rewrite IH. destruct (Z.ltb_spec (ExpireAt item) now) as [Hdead|Hlive].
    + rewrite elem_of_app, list_elem_of_singleton. split.
      * intros [[H| ->]|(it & Hin & Hd)]; [now left| |].
        -- right. exists item. split; [left|exact Hdead].
        -- right. exists it. split; [now right|exact Hd].
      * intros [H|(it & Hin & Hd)]; [now left; left|].
        apply elem_of_cons in Hin as [Heq|Hin].
        -- injection Heq as -> ->. left. now right.
        -- right. eauto.
    + split.
      * intros [H|(it & Hin & Hd)]; [now left|]. right. exists it. split; [now right|exact Hd].
      * intros [H|(it & Hin & Hd)]; [now left|].
        apply elem_of_cons in Hin as [Heq|Hin].
        -- injection Heq as -> ->. lia.
        -- right. eauto.
Qed.

(** X14. One tick of [cleanupExpired] at [now] removes exactly the items
    whose deadline is before [now], with their access times; every other
    item and access time stays as it was, so no live key is lost and no
    expired one survives. *)
Theorem cleanupExpired_spec (now : Instant) (mc : MemoryCache) (k : string) :
  let mc' := cleanupExpired now mc in
  data mc' !! k =
    match data mc !! k with
    | Some item => if IsExpired now item then None else Some item
    | None => None
    end /\
  access mc' !! k =
    match data mc !! k with
    | Some item => if IsExpired now item then None else access mc !! k
    | None => access mc !! k
    end /\
  maxSize mc' = maxSize mc /\
  (forall item, data mc' !! k = Some item -> (now <= ExpireAt item)%Z).
Proof.
  intros mc'. unfold mc', cleanupExpired.
  set (expiredKeys := fold_left _ (map_to_list (data mc)) []).
  change (fun mc0 key => mkCache (delete key (data mc0)) (delete key (access mc0)) (maxSize mc0))
    with deleteKey.
  destruct (deleteKeys_lookup expiredKeys mc k) as (Hd & Ha & Hm). cbn zeta in *.
  assert (Hin : k ∈ expiredKeys <->
                exists item, data mc !! k = Some item /\ (ExpireAt item < now)%Z).
  { unfold expiredKeys. rewrite expiredKeys_fold. split.
    - intros [H|(item & Hi & Hdead)]; [now apply elem_of_nil in H|].
      apply elem_of_map_to_list in Hi. eauto.
    - intros (item & Hi & Hdead). right. exists item.
      split; [now apply elem_of_map_to_list|exact Hdead]. }
  assert (Hdata : data (fold_left deleteKey expiredKeys mc) !! k =
                  match data mc !! k with
                  | Some item => if IsExpired now item then None else Some item
                  | None => None
                  end).
  { rewrite Hd. unfold IsExpired. destruct (decide (k ∈ expiredKeys)) as [Hk|Hk].
    - apply Hin in Hk as (item & -> & Hdead).
      destruct (Z.ltb_spec (ExpireAt item) now); [reflexivity|lia].
    - destruct (data mc !! k) as [item|] eqn:Hitem; [|reflexivity].
      destruct (Z.ltb_spec (ExpireAt item) now); [|reflexivity].
      exfalso. apply Hk, Hin. eauto. }
  split; [exact Hdata|]. split; [|split; [exact Hm|]].
  - rewrite Ha. unfold IsExpired. destruct (decide (k ∈ expiredKeys)) as [Hk|Hk].
    + apply Hin in Hk as (item & -> & Hdead).
      destruct (Z.ltb_spec (ExpireAt item) now); [reflexivity|lia].
    + destruct (data mc !! k) as [item|] eqn:Hitem; [|reflexivity].
      destruct (Z.ltb_spec (ExpireAt item) now); [|reflexivity].
      exfalso. apply Hk, Hin. eauto.
  - intros item. rewrite Hdata. unfold IsExpired.
    destruct (data mc !! k) as [it|]; [|discriminate].
    destruct (Z.ltb_spec (ExpireAt it) now); [discriminate|].
    intros [= <-]. exact H.
Qed.

(** *** Reading without writing *)

(** The string a live item under [key] holds, if there is one. *)
Definition liveString (now : Instant) (mc : MemoryCache) (key : string) : option string :=
  match data mc !! key with
  | Some item =>
      if negb (IsExpired now item)
      then match Value_ item with
           | VString str => Some str
           | _ => None
           end
      else None
  | None => None
  end.

Lemma MGet_fold (now : Instant) (mc : MemoryCache) (keys : list string)
    (acc : gmap string string) (k : string) :
  fold_left (fun results key =>
               match data mc !! key with
               | Some item =>
                   if negb (IsExpired now item)
                   then match Value_ item with
                        | VString str => <[key := str]> results
                        | _ => results
                        end
                   else results
               | None => results
               end) keys acc !! k =
  match (if decide (k ∈ keys) then liveString now mc k else None) with
  | Some s => Some s
  | None => acc !! k
  end.
Proof.
  revert acc. induction keys as [|key keys IH]; intros acc; cbn [fold_left].
  - destruct (decide (k ∈ [])) as [Hin|_]; [now apply elem_of_nil in Hin|reflexivity].
  - rewrite IH. clear IH.
    destruct (decide (k ∈ keys)) as [Hin|Hnin].
    + destruct (decide (k ∈ key :: keys)) as [_|Hn]; [|exfalso; apply Hn; now right].
      destruct (liveString now mc k) as [s|] eqn:Hs; [reflexivity|].
      destruct (decide (k = key)) as [->|Hne].
      * unfold liveString in Hs. destruct (data mc !! key) as [item|]; [|reflexivity].
        destruct (negb (IsExpired now item)); [|reflexivity].
        destruct (Value_ item); [discriminate|reflexivity|reflexivity].
      * destruct (data mc !! key) as [item|]; [|reflexivity].
        destruct (negb (IsExpired now item)); [|reflexivity].
        destruct (Value_ item); [|reflexivity|reflexivity].
        now rewrite lookup_insert_ne by congruence.
    + destruct (decide (k = key)) as [->|Hne].
      * destruct (decide (key ∈ key :: keys)) as [_|Hn]; [|exfalso; apply Hn; left].
        unfold liveString. destruct (data mc !! key) as [item|]; [|reflexivity].
        destruct (negb (IsExpired now item)); [|reflexivity].
        destruct (Value_ item); [|reflexivity|reflexivity].
        apply lookup_insert_eq.
      * destruct (decide (k ∈ key :: keys)) as [Hin|_].
        { apply elem_of_cons in Hin as [?|?]; contradiction. }
        destruct (data mc !! key) as [item|]; [|reflexivity].
        destruct (negb (IsExpired now item)); [|reflexivity].
        destruct (Value_ item); [|reflexivity|reflexivity].
        now rewrite lookup_insert_ne by congruence.
Qed.

(** X15. [Exists] answers true exactly when one of the keys holds an item
    that has not expired; [MGet] returns, for exactly the asked keys that
    hold a live string, that string, and leaves out keys that are absent,
    expired or hold another kind of value.  Neither changes the cache. *)
Theorem Exists_MGet_spec (now : Instant) (mc : MemoryCache) (keys : list string) :
  (Exists now mc keys = true <->
   exists key item, key ∈ keys /\ data mc !! key = Some item /\ (now <= ExpireAt item)%Z) /\
  (forall k s,
     MGet now mc keys !! k = Some s <->
     k ∈ keys /\
     exists item, data mc !! k = Some item /\ (now <= ExpireAt item)%Z /\
                  Value_ item = VString s).
Proof.
  split.
  - induction keys as [|key keys IH]; cbn [Exists].
    + split; [discriminate|]. intros (k & item & Hin & _). now apply elem_of_nil in Hin.
    + destruct (data mc !! key) as [item|] eqn:Hitem.
      * unfold IsExpired. destruct (Z.ltb_spec (ExpireAt item) now) as [Hdead|Hlive]; cbn [negb].
        -- rewrite IH. split.
           ++ intros (k & it & Hin & H). exists k, it. split; [now right|exact H].
           ++ intros (k & it & Hin & Hk & Hl). apply elem_of_cons in Hin as [->|Hin].
              ** rewrite Hitem in Hk. injection Hk as <-. lia.
              ** eauto.
        -- split; [|reflexivity]. intros _. exists key, item. split; [left|auto].
      * rewrite IH. split.
        -- intros (k & it & Hin & H). exists k, it. split; [now right|exact H].
        -- intros (k & it & Hin & Hk & Hl). apply elem_of_cons in Hin as [->|Hin].
           ++ congruence.
           ++ eauto.
  - intros k s. unfold MGet. rewrite MGet_fold, lookup_empty.
    unfold liveString, IsExpired. destruct (decide (k ∈ keys)) as [Hin|Hnin].
    + destruct (data mc !! k) as [item|].
      * destruct (Z.ltb_spec (ExpireAt item) now) as [Hdead|Hlive]; cbn [negb].
        -- split; [discriminate|]. intros (_ & it & [= <-] & Hl & _). lia.
        -- destruct (Value_ item) as [str|n|i] eqn:Hv.
           ++ split.
              ** intros [= ->]. split; [exact Hin|]. exists item. auto.
              ** intros (_ & it & [= <-] & _ & Hs). congruence.
           ++ split; [discriminate|]. intros (_ & it & [= <-] & _ & Hs). congruence.
           ++ split; [discriminate|]. intros (_ & it & [= <-] & _ & Hs). congruence.
      * split; [discriminate|]. intros (_ & it & [=] & _).
    + split; [discriminate|]. intros [Hk _]. contradiction.
Qed.

(** X16. [Expire] reports whether the key is stored, expired or not.  A
    stored key gets the new deadline [now + expiration] and keeps its
    value, so even an item that had expired but was not yet collected
    reads again until then; a missing key leaves the cache unchanged. *)
Theorem Expire_spec (now : Instant) (mc : MemoryCache) (key : string) (exp : Duration) :
  (fst (Expire now mc key exp) = true <-> is_Some (data mc !! key)) /\
  (data mc !! key = None -> Expire now mc key exp = (false, mc)) /\
  (forall item,
     data mc !! key = Some item ->
     data (snd (Expire now mc key exp)) !! key = Some (mkItem (Value_ item) (now + exp)%Z) /\
     (forall k, k <> key -> data (snd (Expire now mc key exp)) !! k = data mc !! k) /\
     access (snd (Expire now mc key exp)) = access mc /\
     (forall at_, (at_ <= now + exp)%Z ->
        fst (Get at_ (snd (Expire now mc key exp)) key DestIface) = GetIface (Value_ item)) /\
     (forall at_ dest, (now + exp < at_)%Z ->
        fst (Get at_ (snd (Expire now mc key exp)) key dest) = GetErr ErrCacheMiss)).
Proof.
  unfold Expire. destruct (data mc !! key) as [item|] eqn:Hitem.
  - set (mc1 := mkCache _ _ _). cbn [fst snd]. split; [split; eauto|]. split; [discriminate|].
    intros it [= <-].
    assert (Hk : data mc1 !! key = Some (mkItem (Value_ item) (now + exp)%Z))
      by apply lookup_insert_eq.
    split; [exact Hk|]. split; [intros k Hne; now apply lookup_insert_ne|].
    split; [reflexivity|]. split.
    + intros at_ Hat. now rewrite (Get_hit at_ mc1 key _ DestIface Hk).
    + intros at_ dest Hat. now rewrite (Get_expired at_ mc1 key _ dest Hk).
  - cbn [fst snd]. split; [split; [discriminate|intros [? [=]]]|].
    split; [reflexivity|]. intros item [=].
Qed.

(** *** LayeredCache: the memory cache in front of Redis *)

(** What Redis answered to a call: nil, [ErrCacheMiss], or another
    error. *)
Inductive RedisAnswer :=
  | RedisNil
  | RedisErrCacheMiss
  | RedisError (msg : string).

Inductive LayeredOption := WithLayeredMemorySize (size : Z).

(** [NewLayeredCache]: the memory cache it builds (the Redis cache is the
    caller's). *)
Definition NewLayeredCache (opts : list LayeredOption) : option MemoryCache :=
  let MemoryMaxSize :=
    fold_left (fun _ opt => match opt with WithLayeredMemorySize size => size end)
              opts 1000%Z in
  NewMemoryCache [WithMemoryMaxSize MemoryMaxSize].

(** [LayeredCache.Set]: Redis first; the memory cache is written only when
    Redis took the value. *)
Definition LayeredSet (now : Instant) (mem : MemoryCache) (key : string) (value : Value)
    (expiration : Duration) (redis : RedisAnswer) : RedisAnswer * MemoryCache :=
  match redis with
  | RedisNil => (RedisNil, snd (Set_ now mem key value expiration))
  | err => (err, mem)
  end.

(** How a [LayeredCache.Get] ends: answered by the memory cache (a value
    written through [dest], or the panic of its type assertion), answered
    by Redis, or the error of Redis. *)
Inductive LayeredOutcome :=
  | FromMemory (out : GetOutcome)
  | FromRedis
  | RedisFailed (err : RedisAnswer).

(** [LayeredCache.Get]; [ptr] tells the pointer [dest] apart, [redis] is
    what Redis answers if asked.  After a hit in Redis it is [dest] itself,
    the pointer, that goes into the memory cache. *)
Definition LayeredGet (now : Instant) (mem : MemoryCache) (key : string) (dest : Dest)
    (ptr : nat) (redis : RedisAnswer) : LayeredOutcome * MemoryCache :=
  match Get now mem key dest with
  | (GetErr _, mem) =>
      match redis with
      | RedisNil => (FromRedis, snd (Set_ now mem key (VOther ptr) 0%Z))
      | err => (RedisFailed err, mem)
      end
  | (out, mem) => (FromMemory out, mem)
  end.

Definition LayeredDelete (mem : MemoryCache) (keys : list string) (redis : RedisAnswer)
    : RedisAnswer * MemoryCache :=
  (redis, snd (Delete mem keys)).

Definition LayeredDeleteByPattern (mem : MemoryCache) (pattern : string)
    (redis : RedisAnswer) : RedisAnswer * MemoryCache :=
  (redis, snd (DeleteByPattern mem pattern)).

(** X17. Writes go to Redis first.  When Redis refuses a [Set] the memory
    cache is left as it was and the error is returned; when it accepts,
    the value is in the memory cache and is read from there, without
    asking Redis, until its deadline.  [Delete] and [DeleteByPattern]
    clear the memory cache whatever Redis answers, the latter all of it
    whatever the pattern, and return the answer of Redis. *)
Theorem LayeredSet_write_through (t : Instant) (mem : MemoryCache) (key : string)
    (v : Value) (exp : Duration) :
  (forall redis, redis <> RedisNil -> LayeredSet t mem key v exp redis = (redis, mem)) /\
  (fst (LayeredSet t mem key v exp RedisNil) = RedisNil /\
   forall now ptr redis, (now <= t + lifetime exp)%Z ->
     fst (LayeredGet now (snd (LayeredSet t mem key v exp RedisNil)) key DestIface ptr redis)
     = FromMemory (GetIface v)) /\
  (forall keys redis k now dest ptr, k ∈ keys ->
     fst (LayeredDelete mem keys redis) = redis /\
     fst (LayeredGet now (snd (LayeredDelete mem keys redis)) k dest ptr redis)
     = match redis with RedisNil => FromRedis | err => RedisFailed err end) /\
  (forall pattern redis,
     fst (LayeredDeleteByPattern mem pattern redis) = redis /\
     data (snd (LayeredDeleteByPattern mem pattern redis)) = ∅).
Proof.
  split; [|split; [|split]].
  - intros redis Hne. destruct redis; [contradiction|reflexivity|reflexivity].
  - split; [reflexivity|]. intros now ptr redis Hnow. cbn [LayeredSet snd].
    unfold LayeredGet.
    rewrite (Get_hit now _ key _ DestIface (Set_data t mem key v exp)) by (cbn; lia).
    reflexivity.
  - intros keys redis k now dest ptr Hk. split; [reflexivity|].
    unfold LayeredDelete, LayeredGet. cbn [snd].
    destruct (Delete_spec mem keys) as (_ & _ & Hdel & _).
    destruct (Hdel k Hk) as (Hd & _ & _).
    rewrite Get_missing by exact Hd. now destruct redis.
  - intros pattern redis. split; reflexivity.
Qed.

(** X18. A read that misses the memory cache and hits Redis stores the
    destination pointer itself, for seven days, where the value should
    go.  Until then the memory cache answers every read of the key
    without asking Redis, and never with the value: a read into a
    [*string] panics on the type assertion, a read into an
    [*interface{}] is handed the first reader's pointer. *)
Theorem LayeredGet_caches_pointer (now : Instant) (mem : MemoryCache) (key : string)
    (dest : Dest) (ptr : nat) :
  fst (Get now mem key dest) = GetErr ErrCacheMiss ->
  let filled := snd (LayeredGet now mem key dest ptr RedisNil) in
  fst (LayeredGet now mem key dest ptr RedisNil) = FromRedis /\
  data filled !! key = Some (mkItem (VOther ptr) (now + 7 * 24 * Hour)%Z) /\
  (forall err, err <> RedisNil ->
     fst (LayeredGet now mem key dest ptr err) = RedisFailed err) /\
  (forall later ptr' redis, (later <= now + 7 * 24 * Hour)%Z ->
     fst (LayeredGet later filled key DestString ptr' redis) = FromMemory GetPanic /\
     fst (LayeredGet later filled key DestIface ptr' redis)
     = FromMemory (GetIface (VOther ptr))).
Proof.
  intros Hmiss filled. unfold filled, LayeredGet.
  destruct (Get now mem key dest) as [out mem1]. cbn [fst] in Hmiss. subst out.
  cbn [fst snd].
  pose proof (Set_data now mem1 key (VOther ptr) 0%Z) as Hk.
  change (lifetime 0) with (7 * 24 * Hour)%Z in Hk.
  split; [reflexivity|]. split; [exact Hk|]. split.
  - intros err Hne. destruct err; [contradiction|reflexivity|reflexivity].
  - intros later ptr' redis Hlater.
    rewrite (Get_hit later _ key _ DestString Hk) by (cbn; lia).
    rewrite (Get_hit later _ key _ DestIface Hk) by (cbn; lia).
    split; reflexivity.
Qed.

Lemma LayeredGet_caches_pointer_witness :
  let filled := snd (LayeredGet 5%Z (mkCache ∅ ∅ 1000%Z) "k" DestString 7 RedisNil) in
  fst (LayeredGet 5%Z (mkCache ∅ ∅ 1000%Z) "k" DestString 7 RedisNil) = FromRedis /\
  data filled !! "k" = Some (mkItem (VOther 7) (5 + 7 * 24 * Hour)%Z) /\
  (forall err, err <> RedisNil ->
     fst (LayeredGet 5%Z (mkCache ∅ ∅ 1000%Z) "k" DestString 7 err) = RedisFailed err) /\
  (forall later ptr' redis, (later <= 5 + 7 * 24 * Hour)%Z ->
     fst (LayeredGet later filled "k" DestString ptr' redis) = FromMemory GetPanic /\
     fst (LayeredGet later filled "k" DestIface ptr' redis)
     = FromMemory (GetIface (VOther 7))).
Proof.
  apply (LayeredGet_caches_pointer 5%Z (mkCache ∅ ∅ 1000%Z) "k" DestString 7).
  reflexivity.
Defined.

End Cache.

(* ===================================================================== *)
(** ** package middleware: RealtimePipeline *)
(* ===================================================================== *)

Module Pipeline.
Import GoTime.

(** Go errors as [fmt.Errorf] builds them: a message, or a message wrapping
    another error with [%w]. *)
Inductive error :=
  | Errorf (msg : string)
  | Wrapf (msg : string) (inner : error).

(** What the pipeline reports through [domrepo.Metrics] and its two gauge
    hooks. *)
Inductive Metric :=
  | RecordError (name : string)
  | RecordLatency (name : string) (elapsed : Duration)
  | RecordDepth (name : string) (depth : nat).

Section Generic.
Context {F : Type} {ops : Float64Ops F}.

(** Modelled from the spec: the declaration of [models.Trade] is not among
    the sources; the spec's data model gives it a symbol, a unix timestamp
    in seconds and a price and a volume, and the stream client builds it
    with the fields [Symbol], [Timestamp], [Price], [Volume]. *)
Record Trade := mkTrade {
  Symbol : string;
  Timestamp : Z;
  Price : F;
  Volume : F }.

(** [validateTrade] on a [*models.Trade]; [None] is the nil pointer. *)
Definition validateTrade (t : option Trade) : option error :=
  match t with
  | None => Some (Errorf "trade nil")
  | Some t =>
      if String.eqb (Symbol t) "" then Some (Errorf "symbol empty")
      else if (Timestamp t <=? 0)%Z then Some (Errorf "timestamp invalid")
      else if (Price t <? f_zero)%f64 || (Volume t <? f_zero)%f64
           then Some (Errorf "negative price/volume")
      else None
  end.

(** The pipeline's own fields.  [bufCh] is the buffered channel, oldest
    element first, its capacity kept beside it; [backoff] is the local
    variable of the flusher goroutine. *)
Record RealtimePipeline := mkPipeline {
  maxRPS : Z;
  bufSize : Z;
  bufCh : list (option Trade);
  bufCap : Z;
  started : bool;
  lastSeen : gmap string Instant;
  transform : option (Trade -> option Trade);
  backoff : Duration }.

Inductive PipelineOption :=
  | WithMaxRPS (n : Z)
  | WithBufferSize (n : Z)
  | WithTransform (fn : option (Trade -> option Trade)).

Definition applyOption (p : RealtimePipeline) (opt : PipelineOption) : RealtimePipeline :=
  match opt with
  | WithMaxRPS n =>
      if (0 <? n)%Z
      then mkPipeline n (bufSize p) (bufCh p) (bufCap p) (started p) (lastSeen p) (transform p) (backoff p)
      else p
  | WithBufferSize n =>
      if (0 <? n)%Z
      then mkPipeline (maxRPS p) n (bufCh p) (bufCap p) (started p) (lastSeen p) (transform p) (backoff p)
      else p
  | WithTransform fn =>
      mkPipeline (maxRPS p) (bufSize p) (bufCh p) (bufCap p) (started p) (lastSeen p) fn (backoff p)
  end.

Definition NewRealtimePipeline (opts : list PipelineOption) : RealtimePipeline :=
  let p := mkPipeline 20 1000 [] 1000 false ∅ None (50 * Millisecond)%Z in
  let p := fold_left applyOption opts p in
  if (bufSize p =? bufCap p)%Z then p
  else mkPipeline (maxRPS p) (bufSize p) [] (bufSize p) (started p) (lastSeen p) (transform p) (backoff p).

(** [p.lastSeen[symbol]]: the zero time for a missing key. *)
Definition lastSeenOf (p : RealtimePipeline) (symbol : string) : Instant :=
  match lastSeen p !! symbol with
  | Some t => t
  | None => 0%Z
  end.

Definition setLastSeen (p : RealtimePipeline) (symbol : string) (now : Instant) : RealtimePipeline :=
  mkPipeline (maxRPS p) (bufSize p) (bufCh p) (bufCap p) (started p)
             (<[symbol := now]> (lastSeen p)) (transform p) (backoff p).

(** [allow]: the per-symbol gap check. *)
Definition allow (p : RealtimePipeline) (symbol : string) (now : Instant)
    : bool * RealtimePipeline :=
  if (maxRPS p <=? 0)%Z then (true, p)
  else
    let last := lastSeenOf p symbol in
    if IsZero last then (true, setLastSeen p symbol now)
    else if (Sub now last <? Z.quot Second (maxRPS p))%Z then (false, p)
    else (true, setLastSeen p symbol now).

(** The world outside the pipeline: what was handed to the processor, in
    order, and what was recorded as metrics or slept. *)
Record World := mkWorld {
  forwarded : list Trade;
  metrics : list Metric;
  sleeps : list Duration }.

Definition record (m : Metric) (w : World) : World :=
  mkWorld (forwarded w) (metrics w ++ [m]) (sleeps w).

Definition sleep (d : Duration) (w : World) : World :=
  mkWorld (forwarded w) (metrics w) (sleeps w ++ [d]).

(** The processor behind the pipeline: its answer may depend on the calls it
    has seen. *)
Variable proc : list Trade -> Trade -> option error.

Definition callProc (t : Trade) (w : World) : option error * World :=
  (proc (forwarded w) t, mkWorld (forwarded w ++ [t]) (metrics w) (sleeps w)).

(** A non-blocking send on [bufCh]: [None] when the channel is full. *)
Definition trySend (p : RealtimePipeline) (t : option Trade) : option RealtimePipeline :=
  if (Z.of_nat (length (bufCh p)) <? bufCap p)%Z
  then Some (mkPipeline (maxRPS p) (bufSize p) (bufCh p ++ [t]) (bufCap p) (started p)
                        (lastSeen p) (transform p) (backoff p))
  else None.

(** [Process]; [now] is [time.Now()] at entry, [since] what
    [time.Since(start)] reads on success. *)
Definition Process (now : Instant) (since : Duration) (p : RealtimePipeline)
    (w : World) (t : option Trade) : option error * RealtimePipeline * World :=
  match validateTrade t, t with
  | Some err, _ => (Some err, p, record (RecordError "pipeline_validate") w)
  | None, None => (* not reached: [validateTrade] refuses the nil pointer *)
      (Some (Errorf "trade nil"), p, record (RecordError "pipeline_validate") w)
  | None, Some t0 =>
      let check :=
        match transform p with
        | None => inr t0
        | Some fn =>
            match validateTrade (fn t0), fn t0 with
            | None, Some t1 => inr t1
            | Some err, _ => inl err
            | None, None => inl (Errorf "trade nil")
            end
        end in
      match check with
      | inl err => (Some err, p, record (RecordError "pipeline_transform_invalid") w)
      | inr t1 =>
          let '(ok, p1) := allow p (Symbol t1) now in
          if negb ok then
            let w := record (RecordError "pipeline_throttle") w in
            let w := record (RecordError ("pipeline_throttle_" ++ Symbol t1)) w in
            (None, p1, w)
          else
            let '(res, w) := callProc t1 w in
            match res with
            | Some err =>
                let w := record (RecordError "pipeline_process") w in
                match trySend p1 (Some t1) with
                | Some p2 =>
                    (Some (Wrapf "pipeline downstream: " err), p2,
                     record (RecordDepth "pipeline_buffer_depth" (length (bufCh p2))) w)
                | None =>
                    (Some (Wrapf "pipeline downstream: " err), p1,
                     record (RecordError "pipeline_buffer_full") w)
                end
            | None => (None, p1, record (RecordLatency "pipeline_process" since) w)
            end
      end
  end.

Definition setBackoff (p : RealtimePipeline) (d : Duration) : RealtimePipeline :=
  mkPipeline (maxRPS p) (bufSize p) (bufCh p) (bufCap p) (started p)
             (lastSeen p) (transform p) d.

Definition setBuf (p : RealtimePipeline) (buf : list (option Trade)) : RealtimePipeline :=
  mkPipeline (maxRPS p) (bufSize p) buf (bufCap p) (started p)
             (lastSeen p) (transform p) (backoff p).

(** One turn of the flusher started by [Start], on the branch that receives
    from [bufCh]; [None] when the channel is empty (the goroutine waits).
    [arrived] is what concurrent [Process] calls managed to enqueue while
    the flusher slept. *)
Definition flushTurn (arrived : list (option Trade)) (p : RealtimePipeline) (w : World)
    : option (RealtimePipeline * World) :=
  match bufCh p with
  | [] => None
  | None :: rest => Some (setBuf p rest, w)
  | Some t :: rest =>
      let p := setBuf p rest in
      let '(res, w) := callProc t w in
      match res with
      | Some _ =>
          let p := if (backoff p <? 2 * Second)%Z then setBackoff p (wrap64 (backoff p * 2)) else p in
          let w := record (RecordError "pipeline_flush") w in
          let w := sleep (backoff p) w in
          let p := fold_left (fun p t' => default p (trySend p t')) arrived p in
          match trySend p (Some t) with
          | Some p' => Some (p', w)
          | None => Some (p, record (RecordError "pipeline_buffer_drop") w)
          end
      | None => Some (setBackoff p (50 * Millisecond)%Z, w)
      end
  end.

(** The flusher left alone for at most [n] turns. *)
Fixpoint flusher (n : nat) (p : RealtimePipeline) (w : World) : RealtimePipeline * World :=
  match n with
  | O => (p, w)
  | S n =>
      match flushTurn [] p w with
      | None => (p, w)
      | Some (p', w') => flusher n p' w'
      end
  end.

End Generic.
Arguments Trade F : clear implicits.
Arguments RealtimePipeline F : clear implicits.
Arguments PipelineOption F : clear implicits.
Arguments World F : clear implicits.

Section Properties.
Context {F : Type} {ops : Float64Ops F}.
Variable proc : list (Trade F) -> Trade F -> option error.

(** The trade after the optional transform hook. *)
Definition transformed (p : RealtimePipeline F) (t0 : Trade F) : option (Trade F) :=
  match transform p with
  | None => Some t0
  | Some fn => fn t0
  end.

(** No symbol is recorded at the zero time. *)
Definition lastSeen_ok (p : RealtimePipeline F) : Prop :=
  forall s t, lastSeen p !! s = Some t -> t <> 0%Z.

Lemma validateTrade_valid (t : Trade F) :
  validateTrade (Some t) = None <->
  Symbol t <> ""%string /\ (0 < Timestamp t)%Z /\
  (Price t <? f_zero)%f64 = false /\ (Volume t <? f_zero)%f64 = false.
Proof.
  unfold validateTrade.
  destruct (String.eqb_spec (Symbol t) "") as [Hs|Hs].
  { split; [discriminate|]. tauto. }
  destruct (Z.leb_spec (Timestamp t) 0) as [Ht|Ht].
  { split; [discriminate|]. lia. }
  destruct (Price t <? f_zero)%f64; [split; [discriminate|]; intros (_ & _ & ? & _); discriminate|].
  destruct (Volume t <? f_zero)%f64; [split; [discriminate|]; intros (_ & _ & _ & ?); discriminate|].
  cbn [orb]. split; [|reflexivity]. intros _. repeat split; (assumption || lia).
Qed.

Lemma validateTrade_nil : validateTrade (F:=F) None = Some (Errorf "trade nil").
Proof. reflexivity. Qed.

Lemma Process_invalid (now : Instant) (since : Duration) (p : RealtimePipeline F)
    (w : World F) (t : option (Trade F)) (e : error) :
  validateTrade t = Some e ->
  Process proc now since p w t = (Some e, p, record (RecordError "pipeline_validate") w).
Proof. intros Hv. unfold Process. rewrite Hv. reflexivity. Qed.

Lemma Process_transform_invalid (now : Instant) (since : Duration)
    (p : RealtimePipeline F) (w : World F) (t0 : Trade F) (e : error) :
  validateTrade (Some t0) = None ->
  validateTrade (transformed p t0) = Some e ->
  Process proc now since p w (Some t0) =
  (Some e, p, record (RecordError "pipeline_transform_invalid") w).
Proof.
  intros Hv Ht. unfold Process. rewrite Hv. unfold transformed in Ht.
  destruct (transform p) as [fn|].
  - rewrite Ht. reflexivity.
  - congruence.
Qed.

Lemma allow_refuses (p : RealtimePipeline F) (symbol : string) (now : Instant) :
  fst (allow p symbol now) = false -> snd (allow p symbol now) = p.
Proof.
  unfold allow. destruct (_ <=? _)%Z; [discriminate|].
  destruct (IsZero _); [discriminate|].
  destruct (_ <? _)%Z; [reflexivity|discriminate].
Qed.

Lemma Process_throttled (now : Instant) (since : Duration) (p : RealtimePipeline F)
    (w : World F) (t0 t1 : Trade F) :
  validateTrade (Some t0) = None ->
  transformed p t0 = Some t1 ->
  validateTrade (Some t1) = None ->
  fst (allow p (Symbol t1) now) = false ->
  Process proc now since p w (Some t0) =
  (None, p,
   record (RecordError ("pipeline_throttle_" ++ Symbol t1))
          (record (RecordError "pipeline_throttle") w)).
Proof.
  intros Hv Ht Hv1 Hal. unfold Process. rewrite Hv.
  assert (Hp1 := allow_refuses _ _ _ Hal).
  unfold transformed in Ht. destruct (transform p) as [fn|].
  - rewrite Ht, Hv1. destruct (allow p (Symbol t1) now) as [ok p1].
    cbn [fst snd] in *. subst. reflexivity.
  - injection Ht as ->. destruct (allow p (Symbol t1) now) as [ok p1].
    cbn [fst snd] in *. subst. reflexivity.
Qed.

(** What an admitted trade does: one call of the processor with the
    transformed trade, then success, or the wrapped error with the trade
    buffered when there is room. *)
Lemma Process_admitted (now : Instant) (since : Duration) (p : RealtimePipeline F)
    (w : World F) (t0 t1 : Trade F) :
  validateTrade (Some t0) = None ->
  transformed p t0 = Some t1 ->
  validateTrade (Some t1) = None ->
  fst (allow p (Symbol t1) now) = true ->
  let '(res, p', w') := Process proc now since p w (Some t0) in
  forwarded w' = forwarded w ++ [t1] /\
  res = match proc (forwarded w) t1 with
        | Some err => Some (Wrapf "pipeline downstream: " err)
        | None => None
        end.
Proof.
  intros Hv Ht Hv1 Hal. unfold Process. rewrite Hv.
  assert (Hcheck :
    match transform p with
    | Some fn =>
        match validateTrade (fn t0), fn t0 with
        | None, Some t2 => inr t2
        | Some err, _ => inl err
        | None, None => inl (Errorf "trade nil")
        end
    | None => inr t0
    end = inr t1).
  { unfold transformed in Ht. destruct (transform p) as [fn|].
    - rewrite Ht, Hv1. reflexivity.
    - congruence. }
  rewrite Hcheck. destruct (allow p (Symbol t1) now) as [ok p1].
  cbn [fst] in Hal. subst ok. cbn [negb]. unfold callProc.
  destruct (proc (forwarded w) t1) as [err|].
  - destruct (trySend p1 (Some t1)); cbn; tauto.
  - cbn. tauto.
Qed.

Lemma Process_forwards_only_valid (now : Instant) (since : Duration)
    (p : RealtimePipeline F) (w : World F) (t : option (Trade F)) :
  let '(_, _, w') := Process proc now since p w t in
  forwarded w' = forwarded w \/
  exists t0 t1,
    t = Some t0 /\ validateTrade (Some t0) = None /\
    transformed p t0 = Some t1 /\ validateTrade (Some t1) = None /\
    fst (allow p (Symbol t1) now) = true /\
    forwarded w' = forwarded w ++ [t1].
Proof.
  destruct (validateTrade t) as [e|] eqn:Hv.
  { rewrite (Process_invalid _ _ _ _ _ _ Hv). left. reflexivity. }
  destruct t as [t0|]; [|discriminate].
  destruct (validateTrade (transformed p t0)) as [e|] eqn:Hv1.
  { rewrite (Process_transform_invalid _ _ _ _ _ _ Hv Hv1). left. reflexivity. }
  destruct (transformed p t0) as [t1|] eqn:Ht; [|discriminate].
  destruct (fst (allow p (Symbol t1) now)) eqn:Hal.
  - pose proof (Process_admitted now since p w t0 t1 Hv Ht Hv1 Hal) as H.
    destruct (Process proc now since p w (Some t0)) as [[res p'] w'].
    destruct H as [Hf _]. right. exists t0, t1. tauto.
  - rewrite (Process_throttled _ _ _ _ _ _ Hv Ht Hv1 Hal). left. reflexivity.
Qed.

Lemma Sub_lt_gap (now last gap : Z) :
  (0 <= gap <= 1000000000)%Z ->
  ((Sub now last <? gap)%Z = true <-> (now - last < gap)%Z).
Proof.
  intros Hg. unfold Sub, minDuration, maxDuration.
  destruct (Z.ltb_spec (now - last) (- 2 ^ 63)) as [H1|H1];
    [|destruct (Z.ltb_spec (2 ^ 63 - 1) (now - last)) as [H2|H2]];
    rewrite Z.ltb_lt; lia.
Qed.

Lemma gap_range (n : Z) : (0 < n)%Z -> (0 <= Z.quot Second n <= 1000000000)%Z.
Proof.
  intros Hn. unfold Second. rewrite Z.quot_div_nonneg by lia.
  split; [apply Z.div_pos; lia|].
  apply Z.div_le_upper_bound; nia.
Qed.

(** The gap check: a trade is let through exactly when its symbol has no
    accepted trade yet or the last accepted one is at least
    [Second / maxRPS] back. *)
Lemma allow_gap (p : RealtimePipeline F) (symbol : string) (now : Instant) :
  (0 < maxRPS p)%Z -> lastSeen_ok p ->
  (fst (allow p symbol now) = true <->
   lastSeen p !! symbol = None \/
   exists last, lastSeen p !! symbol = Some last /\
                (Z.quot Second (maxRPS p) <= now - last)%Z).
Proof.
  intros Hrps Hok. unfold allow, lastSeenOf.
  destruct (Z.leb_spec (maxRPS p) 0); [lia|].
  destruct (lastSeen p !! symbol) as [last|] eqn:Hl.
  - assert (Hnz : IsZero last = false).
    { unfold IsZero. apply Z.eqb_neq. exact (Hok _ _ Hl). }
    rewrite Hnz.
    pose proof (Sub_lt_gap now last _ (gap_range _ Hrps)) as Hsub.
    destruct (Sub now last <? Z.quot Second (maxRPS p))%Z; cbn [fst].
    + split; [discriminate|]. intros [?|[l [[= <-] Hge]]]; [discriminate|].
      destruct Hsub as [Hsub _]. specialize (Hsub eq_refl). lia.
    + split; [|reflexivity]. intros _. right. exists last. split; [reflexivity|].
      destruct (Z.lt_ge_cases (now - last) (Z.quot Second (maxRPS p))) as [Hlt|Hge];
        [|exact Hge].
      destruct Hsub as [_ Hsub]. specialize (Hsub Hlt). discriminate.
  - cbn. tauto.
Qed.

Lemma allow_keeps_ok (p : RealtimePipeline F) (symbol : string) (now : Instant) :
  now <> 0%Z -> lastSeen_ok p -> lastSeen_ok (snd (allow p symbol now)).
Proof.
  intros Hnow Hok.
  assert (Hset : lastSeen_ok (setLastSeen p symbol now)).
  { intros s t. unfold setLastSeen. cbn [lastSeen].
    destruct (decide (symbol = s)) as [->|Hne].
    - rewrite lookup_insert_eq. congruence.
    - rewrite lookup_insert_ne by exact Hne. apply Hok. }
  unfold allow. destruct (_ <=? _)%Z; [exact Hok|].
  destruct (IsZero _); [exact Hset|].
  destruct (_ <? _)%Z; [exact Hok|exact Hset].
Qed.

Lemma applyOption_maxRPS (p : RealtimePipeline F) (opt : PipelineOption F) :
  (0 < maxRPS p)%Z -> (0 < maxRPS (applyOption p opt))%Z.
Proof.
  intros Hp. destruct opt as [n|n|fn]; cbn [applyOption].
  - destruct (Z.ltb_spec 0 n); [cbn; lia|exact Hp].
  - destruct (Z.ltb_spec 0 n); [cbn; exact Hp|exact Hp].
  - exact Hp.
Qed.

Lemma applyOption_lastSeen (p : RealtimePipeline F) (opt : PipelineOption F) :
  lastSeen (applyOption p opt) = lastSeen p.
Proof.
  destruct opt as [n|n|fn]; cbn [applyOption]; try destruct (_ <? _)%Z; reflexivity.
Qed.

Lemma NewRealtimePipeline_ok (opts : list (PipelineOption F)) :
  (0 < maxRPS (NewRealtimePipeline opts))%Z /\ lastSeen_ok (NewRealtimePipeline opts).
Proof.
  unfold NewRealtimePipeline.
  set (p0 := mkPipeline 20 1000 [] 1000 false ∅ None (50 * Millisecond)%Z).
  assert (H0 : (0 < maxRPS p0)%Z /\ lastSeen p0 = ∅) by (cbn; split; [lia|reflexivity]).
  assert (H : (0 < maxRPS (fold_left applyOption opts p0))%Z /\
              lastSeen (fold_left applyOption opts p0) = ∅).
  { revert H0. generalize p0. induction opts as [|o opts IH]; intros q [Hq1 Hq2]; [tauto|].
    cbn [fold_left]. apply IH. split; [apply applyOption_maxRPS; exact Hq1|].
    now rewrite applyOption_lastSeen. }
  destruct H as [H1 H2].
  destruct (_ =? _)%Z.
  - split; [exact H1|]. intros s t. rewrite H2, lookup_empty. discriminate.
  - cbn [maxRPS]. split; [exact H1|]. intros s t. cbn [lastSeen].
    rewrite H2, lookup_empty. discriminate.
Qed.

End Properties.

Section Flusher.
Context {F : Type} {ops : Float64Ops F}.
Variable proc : list (Trade F) -> Trade F -> option error.

Definition emptyWorld : World F := mkWorld [] [] [].

(** The backoffs the flusher can hold, starting from 50 ms. *)
Definition flusherBackoffs : list Duration :=
  map (fun k => (50 * 2 ^ k * Millisecond)%Z) [0; 1; 2; 3; 4; 5; 6]%Z.

(** One failure: the backoff doubles while it is below 2 s. *)
Definition nextBackoff (b : Duration) : Duration :=
  if (b <? 2 * Second)%Z then wrap64 (b * 2) else b.

Lemma nextBackoff_in (b : Duration) :
  In b flusherBackoffs ->
  In (nextBackoff b) flusherBackoffs /\
  (100 * Millisecond <= nextBackoff b <= 3200 * Millisecond)%Z.
Proof.
  unfold flusherBackoffs. cbn [map In]. intros H.
  repeat (destruct H as [<-|H];
          [vm_compute; split;
           [repeat (first [left; reflexivity | right])
           |split; discriminate]|]).
  destruct H.
Qed.

Lemma arrivals_backoff (l : list (option (Trade F))) (r : RealtimePipeline F) :
  backoff (fold_left (fun p0 t' => default p0 (trySend p0 t')) l r) = backoff r.
Proof.
  revert r. induction l as [|a l IH]; intros r; [reflexivity|].
  cbn [fold_left]. rewrite IH.
  unfold trySend. destruct (Z.of_nat _ <? _)%Z; reflexivity.
Qed.

Lemma flushTurn_backoff (arrived : list (option (Trade F))) (p p' : RealtimePipeline F)
    (w w' : World F) :
  In (backoff p) flusherBackoffs ->
  flushTurn proc arrived p w = Some (p', w') ->
  In (backoff p') flusherBackoffs /\
  (sleeps w' = sleeps w \/
   exists d, sleeps w' = sleeps w ++ [d] /\ backoff p' = d /\
             (100 * Millisecond <= d <= 3200 * Millisecond)%Z).
Proof.
  intros Hb. unfold flushTurn.
  destruct (bufCh p) as [|[t|] rest]; [discriminate| |].
  2:{ intros [= <- <-]. cbn [backoff setBuf]. tauto. }
  unfold callProc. destruct (proc (forwarded w) t) as [err|].
  - set (q := if (backoff (setBuf p rest) <? 2 * Second)%Z
              then setBackoff (setBuf p rest) (wrap64 (backoff (setBuf p rest) * 2))
              else setBuf p rest).
    assert (Hq : backoff q = nextBackoff (backoff p)).
    { unfold q, nextBackoff. cbn [backoff setBuf].
      destruct (_ <? _)%Z; reflexivity. }
    clearbody q.
    destruct (nextBackoff_in _ Hb) as [Hin Hrange]. rewrite <- Hq in Hin, Hrange.
    set (r := fold_left _ arrived q).
    assert (Hr : backoff r = backoff q) by apply arrivals_backoff.
    destruct (trySend r (Some t)) as [p2|] eqn:Hs.
    + intros [= <- <-].
      assert (Hp2 : backoff p2 = backoff r).
      { unfold trySend in Hs. destruct (_ <? _)%Z; [|discriminate].
        injection Hs as <-. reflexivity. }
      rewrite Hp2, Hr. split; [exact Hin|]. right. exists (backoff q).
      cbn [sleeps sleep record]. tauto.
    + intros [= <- <-]. rewrite Hr. split; [exact Hin|]. right. exists (backoff q).
      cbn [sleeps sleep record]. tauto.
  - intros [= <- <-]. cbn [backoff setBackoff sleeps]. split; [|tauto].
    unfold flusherBackoffs. cbn [map In]. left. reflexivity.
Qed.

(** A failed turn puts the trade back at the tail when the channel has room,
    and counts a drop otherwise. *)
Lemma flushTurn_requeues (p : RealtimePipeline F) (w : World F) (t : Trade F)
    (rest : list (option (Trade F))) (err : error) :
  bufCh p = Some t :: rest ->
  proc (forwarded w) t = Some err ->
  (Z.of_nat (length rest) < bufCap p)%Z ->
  exists p' w', flushTurn proc [] p w = Some (p', w') /\
                bufCh p' = rest ++ [Some t] /\
                forwarded w' = forwarded w ++ [t].
Proof.
  intros Hbuf Herr Hroom. unfold flushTurn, callProc. rewrite Hbuf, Herr.
  cbn [fold_left]. unfold trySend.
  match goal with |- context [if (?a <? ?b)%Z then Some ?x else None] =>
    assert (Hlt : (a <? b)%Z = true) end.
  { apply Z.ltb_lt. destruct (_ <? _)%Z; cbn; exact Hroom. }
  rewrite Hlt. eexists _, _. split; [reflexivity|].
  destruct (_ <? 2 * Second)%Z; cbn; tauto.
Qed.

End Flusher.

(** *** The pipeline on IEEE binary64 *)

Section Binary64.
Let ops64 := binary64_ops (fun x => x).
#[local] Set Warnings "-inexact-float".

Definition btc (ts : Z) (price : float) : Trade float := mkTrade "BTC" ts price 1%float.
Definition accept : list (Trade float) -> Trade float -> option error := fun _ _ => None.
Definition reject : list (Trade float) -> Trade float -> option error :=
  fun _ _ => Some (Errorf "broker down").
(** Default pipeline, 20 trades per second: 50 ms between accepted trades
    of a symbol. *)
Example Process_binary64_scenario :
  let p0 := NewRealtimePipeline (F:=float) [] in
  let w0 := emptyWorld (F:=float) in
  let t0 : Instant := 1700000000000000000%Z in
  let since : Duration := 1000%Z in
  let '(r1, p1, w1) :=
    Process (ops:=ops64) accept t0 since p0 w0 (Some (btc 1700000000 100)) in
  let '(r2, p2, w2) :=
    Process (ops:=ops64) accept (t0 + 49999999)%Z since p1 w1 (Some (btc 1700000000 101)) in
  let '(r3, p3, w3) :=
    Process (ops:=ops64) accept (t0 + 50000000)%Z since p2 w2 (Some (btc 1700000000 102)) in
  let '(r4, p4, w4) :=
    Process (ops:=ops64) accept (t0 + 50000001)%Z since p3 w3
            (Some (btc 1700000001 (-1)%float)) in
  [r1; r2; r3; r4] = [None; None; None; Some (Errorf "negative price/volume")] /\
  forwarded w4 = [btc 1700000000 100; btc 1700000000 102] /\
  metrics w4 = [RecordLatency "pipeline_process" 1000%Z;
                RecordError "pipeline_throttle"; RecordError "pipeline_throttle_BTC";
                RecordLatency "pipeline_process" 1000%Z;
                RecordError "pipeline_validate"].
Proof. vm_compute. repeat split. Qed.

(** A refused trade is buffered and the wrapped error returned. *)
Example Process_binary64_buffers :
  let p0 := NewRealtimePipeline (F:=float) [WithBufferSize 2] in
  let t0 : Instant := 1700000000000000000%Z in
  let '(r1, p1, w1) :=
    Process (ops:=ops64) reject t0 1000%Z p0 emptyWorld (Some (btc 1700000000 100)) in
  r1 = Some (Wrapf "pipeline downstream: " (Errorf "broker down")) /\
  bufCh p1 = [Some (btc 1700000000 100)] /\
  forwarded w1 = [btc 1700000000 100] /\
  metrics w1 = [RecordError "pipeline_process"; RecordDepth "pipeline_buffer_depth" 1].
Proof. vm_compute. repeat split. Qed.

End Binary64.

Section Claims.
Context {F : Type} {ops : Float64Ops F}.
Variable proc : list (Trade F) -> Trade F -> option error.

Lemma trySend_fields (p p' : RealtimePipeline F) (t : option (Trade F)) :
  trySend p t = Some p' -> maxRPS p' = maxRPS p /\ lastSeen p' = lastSeen p.
Proof.
  unfold trySend. destruct (_ <? _)%Z; [|discriminate].
  intros [= <-]. cbn. tauto.
Qed.

Lemma allow_maxRPS (p : RealtimePipeline F) (symbol : string) (now : Instant) :
  maxRPS (snd (allow p symbol now)) = maxRPS p.
Proof.
  unfold allow. destruct (_ <=? _)%Z; [reflexivity|].
  destruct (IsZero _); [reflexivity|]. destruct (_ <? _)%Z; reflexivity.
Qed.

(** [Process] keeps the two conditions the gap check is stated under. *)
Lemma Process_keeps_ok (now : Instant) (since : Duration) (p : RealtimePipeline F)
    (w : World F) (t : option (Trade F)) :
  now <> 0%Z -> (0 < maxRPS p)%Z -> lastSeen_ok p ->
  let '(_, p', _) := Process proc now since p w t in
  (0 < maxRPS p')%Z /\ lastSeen_ok p'.
Proof.
  intros Hnow Hrps Hok. unfold Process.
  destruct (validateTrade t) as [e|]; [tauto|].
  destruct t as [t0|]; [|tauto].
  match goal with |- context [match ?c with inl _ => _ | inr _ => _ end] =>
    destruct c as [err|t1] end; [tauto|].
  pose proof (allow_keeps_ok p (Symbol t1) now Hnow Hok) as Hok1.
  pose proof (allow_maxRPS p (Symbol t1) now) as Hrps1.
  destruct (allow p (Symbol t1) now) as [ok p1]. cbn [snd] in *.
  destruct ok; cbn [negb].
  - unfold callProc. destruct (proc (forwarded w) t1) as [err|].
    + destruct (trySend p1 (Some t1)) as [p2|] eqn:Hs.
      * destruct (trySend_fields _ _ _ Hs) as [E1 E2].
        split; [lia|]. unfold lastSeen_ok. rewrite E2. exact Hok1.
      * split; [lia|exact Hok1].
    + split; [lia|exact Hok1].
  - split; [lia|exact Hok1].
Qed.

(** Six turns of the flusher against a processor that keeps refusing, from
    the fresh pipeline with one buffered trade. *)
Definition refuse : list (Trade F) -> Trade F -> option error :=
  fun _ _ => Some (Errorf "downstream unavailable").

Definition refuseTwice : list (Trade F) -> Trade F -> option error :=
  fun seen _ => if (length seen <? 2)%nat then Some (Errorf "downstream unavailable") else None.

Definition buffered (t : Trade F) : RealtimePipeline F :=
  setBuf (NewRealtimePipeline []) [Some t].

(** C5. The flusher doubles [backoff] before it sleeps and tests the 2 s cap
    before it doubles: the sleeps after consecutive failures are 100 ms,
    200 ms, 400 ms, 800 ms, 1.6 s and then 3.2 s, so the first sleep is not
    50 ms and the sixth exceeds 2 s.  The trade is put back each time. *)
Theorem flusher_backoff_overshoots (t : Trade F) :
  let '(p', w') := flusher refuse 6 (buffered t) emptyWorld in
  sleeps w' = map (fun ms => (ms * Millisecond)%Z) [100; 200; 400; 800; 1600; 3200]%Z /\
  nth 0 (sleeps w') 0%Z <> (50 * Millisecond)%Z /\
  (2 * Second < nth 5 (sleeps w') 0)%Z /\
  bufCh p' = [Some t] /\
  forwarded w' = [t; t; t; t; t; t].
Proof.
  vm_compute. repeat split; congruence.
Qed.

(** The part of C5 that holds: refused twice and then accepted, the trade
    is processed on the third turn and never dropped; the two sleeps are
    100 ms and 200 ms. *)
Lemma flusher_retry_not_lost (t : Trade F) :
  let '(p', w') := flusher refuseTwice 6 (buffered t) emptyWorld in
  sleeps w' = [(100 * Millisecond)%Z; (200 * Millisecond)%Z] /\
  bufCh p' = [] /\
  forwarded w' = [t; t; t] /\
  metrics w' = [RecordError "pipeline_flush"; RecordError "pipeline_flush"] /\
  backoff p' = (50 * Millisecond)%Z.
Proof.
  vm_compute. repeat split.
Qed.

End Claims.



(** *** More of the pipeline *)

Section Lifecycle.
Context {F : Type} {ops : Float64Ops F}.

(** [Start]: the pipeline after the call, and whether a flusher goroutine
    was launched. *)
Definition Start (p : RealtimePipeline F) : RealtimePipeline F * bool :=
  if started p then (p, false)
  else (mkPipeline (maxRPS p) (bufSize p) (bufCh p) (bufCap p) true (lastSeen p)
                   (transform p) (backoff p), true).

(** [Stop]; [closed] says whether [stopCh] is closed already.  [None] is
    the panic of closing a closed channel. *)
Definition Stop (p : RealtimePipeline F) (closed : bool) : option (RealtimePipeline F * bool) :=
  if negb (started p) then Some (p, closed)
  else
    let p := mkPipeline (maxRPS p) (bufSize p) (bufCh p) (bufCap p) false (lastSeen p)
                        (transform p) (backoff p) in
    if closed then None else Some (p, true).

(** X19. [Start] and [Stop] are each safe to repeat: a second [Start]
    launches no second flusher and a second [Stop] does nothing.  But the
    stop channel is closed for good by the first [Stop], so a pipeline
    that is started again after it cannot be stopped: that [Stop] panics
    on closing the closed channel. *)
Theorem Stop_after_restart_panics (p : RealtimePipeline F) :
  started p = false ->
  let '(p1, launched) := Start p in
  launched = true /\ Start p1 = (p1, false) /\
  exists p2,
    Stop p1 false = Some (p2, true) /\ started p2 = false /\
    Stop p2 true = Some (p2, true) /\
    snd (Start p2) = true /\
    Stop (fst (Start p2)) true = None.
Proof.
  intros Hs. unfold Start. rewrite Hs. split; [reflexivity|]. split; [reflexivity|].
  unfold Stop. cbn [started negb]. eexists. split; [reflexivity|].
  cbn [started negb fst snd]. auto.
Qed.

End Lifecycle.

Lemma Stop_after_restart_panics_witness :
  let '(p1, launched) := Start (NewRealtimePipeline (F:=float) []) in
  launched = true /\ Start p1 = (p1, false) /\
  exists p2,
    Stop p1 false = Some (p2, true) /\ started p2 = false /\
    Stop p2 true = Some (p2, true) /\
    snd (Start p2) = true /\
    Stop (fst (Start p2)) true = None.
Proof. apply (Stop_after_restart_panics (NewRealtimePipeline (F:=float) [])). reflexivity. Defined.

Section Bounds.
Context {F : Type} {ops : Float64Ops F}.
Variable proc : list (Trade F) -> Trade F -> option error.

(** The channel holds no more than its capacity, which is the configured
    size. *)
Definition buf_ok (p : RealtimePipeline F) : Prop :=
  (Z.of_nat (length (bufCh p)) <= bufCap p)%Z /\ bufCap p = bufSize p /\ (0 < bufSize p)%Z.

Lemma applyOption_buf (p : RealtimePipeline F) (opt : PipelineOption F) :
  (0 < bufSize p)%Z ->
  (0 < bufSize (applyOption p opt))%Z /\ bufCh (applyOption p opt) = bufCh p /\
  bufCap (applyOption p opt) = bufCap p.
Proof.
  intros Hb. destruct opt as [n|n|fn]; cbn [applyOption].
  - destruct (0 <? n)%Z; cbn; auto.
  - destruct (Z.ltb_spec 0 n); cbn; auto.
  - cbn. auto.
Qed.

Lemma NewRealtimePipeline_buf (opts : list (PipelineOption F)) :
  buf_ok (NewRealtimePipeline opts) /\ bufCh (NewRealtimePipeline opts) = [].
Proof.
  unfold NewRealtimePipeline.
  set (p0 := mkPipeline 20 1000 [] 1000 false ∅ None (50 * Millisecond)%Z).
  assert (H : (0 < bufSize (fold_left applyOption opts p0))%Z /\
              bufCh (fold_left applyOption opts p0) = [] /\
              bufCap (fold_left applyOption opts p0) = 1000%Z).
  { assert (H0 : (0 < bufSize p0)%Z /\ bufCh p0 = [] /\ bufCap p0 = 1000%Z)
      by (cbn; repeat split; lia).
    revert H0. generalize p0. induction opts as [|opt opts IH]; intros p H0; [exact H0|].
    cbn [fold_left]. apply IH. destruct H0 as (Hs & Hc & Hcap).
    destruct (applyOption_buf p opt Hs) as (Hs' & Hc' & Hcap').
    rewrite Hc', Hcap'. auto. }
  destruct H as (Hs & Hc & Hcap).
  destruct (Z.eqb_spec (bufSize (fold_left applyOption opts p0))
                       (bufCap (fold_left applyOption opts p0))) as [Heq|Hne].
  - unfold buf_ok. rewrite Hc. cbn [length]. repeat split; lia.
  - unfold buf_ok. cbn [bufCh bufCap bufSize length]. repeat split; lia.
Qed.

Lemma trySend_buf (p p' : RealtimePipeline F) (t : option (Trade F)) :
  buf_ok p -> trySend p t = Some p' -> buf_ok p'.
Proof.
  unfold trySend, buf_ok. intros (Hlen & Hcap & Hs).
  destruct (Z.ltb_spec (Z.of_nat (length (bufCh p))) (bufCap p)); [|discriminate].
  intros [= <-]. cbn [bufCh bufCap bufSize]. rewrite length_app. cbn [length].
  repeat split; lia.
Qed.

Lemma allow_buf (p : RealtimePipeline F) (symbol : string) (now : Instant) :
  buf_ok p -> buf_ok (snd (allow p symbol now)).
Proof.
  intros Hb. unfold allow. destruct (maxRPS p <=? 0)%Z; [exact Hb|].
  destruct (IsZero _); [exact Hb|]. destruct (_ <? _)%Z; exact Hb.
Qed.

Lemma Process_buf (now : Instant) (since : Duration) (p : RealtimePipeline F)
    (w : World F) (t : option (Trade F)) :
  buf_ok p -> buf_ok (snd (fst (Process proc now since p w t))).
Proof.
  intros Hb. unfold Process.
  destruct (validateTrade t) as [e|]; [exact Hb|]. destruct t as [t0|]; [|exact Hb].
  destruct (match transform p with
            | Some fn => _
            | None => _
            end) as [err|t1]; [exact Hb|].
  pose proof (allow_buf p (Symbol t1) now Hb) as Ha.
  destruct (allow p (Symbol t1) now) as [ok p1]. cbn [snd] in Ha.
  destruct ok; cbn [negb]; [|exact Ha].
  unfold callProc. destruct (proc (forwarded w) t1) as [err|]; [|exact Ha].
  destruct (trySend p1 (Some t1)) as [p2|] eqn:Hsend; [|exact Ha].
  exact (trySend_buf p1 p2 _ Ha Hsend).
Qed.

Lemma arrivals_buf (l : list (option (Trade F))) (p : RealtimePipeline F) :
  buf_ok p -> buf_ok (fold_left (fun p0 t' => default p0 (trySend p0 t')) l p).
Proof.
  revert p. induction l as [|t l IH]; intros p Hb; [exact Hb|].
  cbn [fold_left]. apply IH. destruct (trySend p t) as [p'|] eqn:Hs; [|exact Hb].
  exact (trySend_buf p p' t Hb Hs).
Qed.

Lemma flushTurn_buf (arrived : list (option (Trade F))) (p p' : RealtimePipeline F)
    (w w' : World F) :
  buf_ok p -> flushTurn proc arrived p w = Some (p', w') -> buf_ok p'.
Proof.
  intros (Hlen & Hcap & Hs). unfold flushTurn.
  destruct (bufCh p) as [|[t|] rest] eqn:Hbuf; [discriminate| |].
  - assert (Hrest : buf_ok (setBuf p rest)).
    { unfold buf_ok, setBuf. cbn [bufCh bufCap bufSize]. cbn [length] in Hlen.
      repeat split; lia. }
    unfold callProc. destruct (proc (forwarded w) t) as [err|].
    + set (p1 := if (backoff (setBuf p rest) <? 2 * Second)%Z
                 then setBackoff (setBuf p rest) (wrap64 (backoff (setBuf p rest) * 2))
                 else setBuf p rest).
      assert (Hp1 : buf_ok p1).
      { unfold p1. destruct (_ <? _)%Z; [|exact Hrest]. exact Hrest. }
      pose proof (arrivals_buf arrived p1 Hp1) as Harr.
      destruct (trySend _ (Some t)) as [p2|] eqn:Hsend.
      * intros [= <- _]. exact (trySend_buf _ _ _ Harr Hsend).
      * intros [= <- _]. exact Harr.
    + intros [= <- _]. exact Hrest.
  - intros [= <- _]. unfold buf_ok, setBuf. cbn [bufCh bufCap bufSize].
    cbn [length] in Hlen. repeat split; lia.
Qed.

(** X20. The buffer never holds more than its capacity, and the capacity
    is the configured size: this holds of every pipeline
    [NewRealtimePipeline] builds (whose buffer is empty, whose size is
    positive whatever the options), and [Process] and every turn of the
    flusher keep it, whatever the downstream processor answers and
    whatever arrives meanwhile.  A trade that finds the buffer full is
    dropped, not queued. *)
Theorem buffer_bounded :
  (forall opts : list (PipelineOption F),
      buf_ok (NewRealtimePipeline opts) /\ bufCh (NewRealtimePipeline opts) = []) /\
  (forall now since (p : RealtimePipeline F) (w : World F) t,
      buf_ok p -> buf_ok (snd (fst (Process proc now since p w t)))) /\
  (forall arrived (p p' : RealtimePipeline F) (w w' : World F),
      buf_ok p -> flushTurn proc arrived p w = Some (p', w') -> buf_ok p') /\
  (forall (p : RealtimePipeline F) t,
      (bufCap p <= Z.of_nat (length (bufCh p)))%Z -> trySend p t = None).
Proof.
  split; [apply NewRealtimePipeline_buf|]. split; [apply Process_buf|].
  split; [apply flushTurn_buf|].
  intros p t Hfull. unfold trySend.
  destruct (Z.ltb_spec (Z.of_nat (length (bufCh p))) (bufCap p)); [lia|reflexivity].
Qed.

(** X21. Whatever the downstream processor does and whatever is
    buffered, a flusher that starts at 50 ms never sleeps less than 100 ms
    nor more than 3.2 s: the backoff it holds is one of 50, 100, 200, 400,
    800, 1600 and 3200 ms, it doubles before each sleep while below 2 s,
    and a flush that succeeds puts it back to 50 ms. *)
Theorem flusher_sleeps_bounded (n : nat) (p : RealtimePipeline F) (w : World F) :
  In (backoff p) flusherBackoffs ->
  Forall (fun d => (100 * Millisecond <= d <= 3200 * Millisecond)%Z) (sleeps w) ->
  let '(p', w') := flusher proc n p w in
  In (backoff p') flusherBackoffs /\
  Forall (fun d => (100 * Millisecond <= d <= 3200 * Millisecond)%Z) (sleeps w') /\
  (forall t rest w0,
     bufCh p' = Some t :: rest -> proc (forwarded w0) t = None ->
     exists p'' w'', flushTurn proc [] p' w0 = Some (p'', w'') /\
                     backoff p'' = (50 * Millisecond)%Z /\ sleeps w'' = sleeps w0).
Proof.
  revert p w. induction n as [|n IH]; intros p w Hb Hs.
  - cbn [flusher]. split; [exact Hb|]. split; [exact Hs|].
    intros t rest w0 Hbuf Hok. unfold flushTurn, callProc. rewrite Hbuf, Hok.
    eexists _, _. split; [reflexivity|]. split; reflexivity.
  - cbn [flusher]. destruct (flushTurn proc [] p w) as [[p1 w1]|] eqn:Hturn.
    + destruct (flushTurn_backoff proc [] p p1 w w1 Hb Hturn) as [Hb1 Hsl].
      apply IH; [exact Hb1|].
      destruct Hsl as [->|(d & -> & _ & Hd)]; [exact Hs|].
      apply Forall_app. split; [exact Hs|]. constructor; [exact Hd|constructor].
    + split; [exact Hb|]. split; [exact Hs|].
      intros t rest w0 Hbuf Hok. unfold flushTurn, callProc. rewrite Hbuf, Hok.
      eexists _, _. split; [reflexivity|]. split; reflexivity.
Qed.

End Bounds.

Section Throttle.
Context {F : Type} {ops : Float64Ops F}.
Variable proc : list (Trade F) -> Trade F -> option error.

(** The trade a call of [Process] hands to the processor, if it hands
    one: the element the call appends to what was forwarded. *)
Definition sent (now : Instant) (since : Duration) (p : RealtimePipeline F) (w : World F)
    (t : option (Trade F)) : option (Trade F) :=
  nth_error (forwarded (snd (Process proc now since p w t))) (length (forwarded w)).

(** [Process] called once for each entry (the time of the call, the
    latency it measures, the trade); the result lists the calls that
    reached the processor, with their times. *)
Fixpoint admittedAt (calls : list (Instant * Duration * option (Trade F)))
    (p : RealtimePipeline F) (w : World F) : list (Instant * Trade F) :=
  match calls with
  | [] => []
  | (now, since, t) :: rest =>
      let '(_, p', w') := Process proc now since p w t in
      match sent now since p w t with
      | Some t1 => (now, t1) :: admittedAt rest p' w'
      | None => admittedAt rest p' w'
      end
  end.

Lemma allow_true_lastSeen (p : RealtimePipeline F) (symbol : string) (now : Instant) :
  (0 < maxRPS p)%Z -> fst (allow p symbol now) = true ->
  lastSeen (snd (allow p symbol now)) = <[symbol := now]> (lastSeen p).
Proof.
  intros Hm. unfold allow. destruct (Z.leb_spec (maxRPS p) 0); [lia|].
  destruct (IsZero _); [reflexivity|]. destruct (_ <? _)%Z; [discriminate|reflexivity].
Qed.

(** A call either changes nothing the throttle reads and forwards
    nothing, or it admits the (transformed) trade, forwards it and records
    the time for its symbol. *)
Lemma Process_cases (now : Instant) (since : Duration) (p : RealtimePipeline F)
    (w : World F) (t : option (Trade F)) :
  (0 < maxRPS p)%Z ->
  let '(_, p', w') := Process proc now since p w t in
  maxRPS p' = maxRPS p /\
  ((lastSeen p' = lastSeen p /\ sent now since p w t = None) \/
   exists t1, fst (allow p (Symbol t1) now) = true /\
              lastSeen p' = <[Symbol t1 := now]> (lastSeen p) /\
              sent now since p w t = Some t1).
Proof.
  intros Hm. unfold sent.
  assert (Hnone : forall l : list (Trade F), nth_error l (length l) = None).
  { intros l. apply nth_error_None. lia. }
  assert (Hsome : forall (l : list (Trade F)) x, nth_error (l ++ [x]) (length l) = Some x).
  { intros l x. rewrite nth_error_app2 by lia. now rewrite Nat.sub_diag. }
  unfold Process.
  destruct (validateTrade t) as [e|]; [cbn; split; [reflexivity|left; auto]|].
  destruct t as [t0|]; [|cbn; split; [reflexivity|left; auto]].
  destruct (match transform p with
            | Some fn => _
            | None => _
            end) as [err|t1]; [cbn; split; [reflexivity|left; auto]|].
  pose proof (allow_maxRPS p (Symbol t1) now) as Hmax.
  pose proof (allow_refuses p (Symbol t1) now) as Hrefuse.
  pose proof (allow_true_lastSeen p (Symbol t1) now Hm) as Hseen.
  destruct (allow p (Symbol t1) now) as [ok p1] eqn:Ha. cbn [fst snd] in *.
  destruct ok; cbn [negb].
  - unfold callProc. destruct (proc (forwarded w) t1) as [err|].
    + destruct (trySend p1 (Some t1)) as [p2|] eqn:Hsend.
      * destruct (trySend_fields p1 p2 _ Hsend) as [Hm2 Hl2].
        cbn [snd forwarded record]. split; [congruence|]. right. exists t1.
        rewrite Ha. split; [reflexivity|].
        split; [rewrite Hl2; now apply Hseen|apply Hsome].
      * cbn [snd forwarded record]. split; [exact Hmax|]. right. exists t1.
        rewrite Ha. split; [reflexivity|]. split; [now apply Hseen|apply Hsome].
    + cbn [snd forwarded record]. split; [exact Hmax|]. right. exists t1.
      rewrite Ha. split; [reflexivity|]. split; [now apply Hseen|apply Hsome].
  - cbn [snd forwarded record]. rewrite Hrefuse by reflexivity.
    split; [reflexivity|]. left. auto.
Qed.

Definition gap (p : RealtimePipeline F) : Duration := Z.quot Second (maxRPS p).

(** Two admissions of one symbol are at least the gap apart. *)
Definition apart (g : Duration) (a b : Instant * Trade F) : Prop :=
  Symbol (snd a) = Symbol (snd b) -> (fst a + g <= fst b)%Z.

Lemma admittedAt_spaced (calls : list (Instant * Duration * option (Trade F)))
    (p : RealtimePipeline F) (w : World F) :
  (0 < maxRPS p)%Z -> lastSeen_ok p ->
  Forall (fun c => fst (fst c) <> 0%Z) calls ->
  ForallOrdPairs (apart (gap p)) (admittedAt calls p w) /\
  (forall s seen, lastSeen p !! s = Some seen ->
     Forall (fun b => Symbol (snd b) = s -> (seen + gap p <= fst b)%Z) (admittedAt calls p w)).
Proof.
  revert p w. induction calls as [|[[now since] t] calls IH]; intros p w Hm Hok Hnz.
  - cbn. split; constructor.
  - apply Forall_cons in Hnz as [Hnow Hnz]. cbn [fst] in Hnow. cbn [admittedAt].
    pose proof (Process_cases now since p w t Hm) as Hc.
    pose proof (Process_keeps_ok proc now since p w t Hnow Hm Hok) as Hk.
    destruct (Process proc now since p w t) as [[res p'] w'].
    destruct Hc as [Hmax Hc]. destruct Hk as [Hm' Hok'].
    assert (Hgap : gap p' = gap p) by (unfold gap; now rewrite Hmax).
    destruct (IH p' w' Hm' Hok' Hnz) as [Hpairs Hseen]. rewrite Hgap in Hpairs, Hseen.
    assert (Hg0 : (0 <= gap p)%Z) by (unfold gap; pose proof (gap_range (maxRPS p) Hm); lia).
    destruct Hc as [[Hlast ->]|(t1 & Hallow & Hlast & ->)].
    + split; [exact Hpairs|]. intros s seen Hs. apply Hseen. now rewrite Hlast.
    + split.
      * constructor; [|exact Hpairs].
        specialize (Hseen (Symbol t1) now).
        rewrite Hlast, lookup_insert_eq in Hseen. specialize (Hseen eq_refl).
        eapply Forall_impl; [exact Hseen|]. intros [tb trb] H Hsym. cbn [fst snd] in *.
        apply H. now symmetry.
      * intros s seen Hs. constructor.
        -- cbn [fst snd]. intros Hsym. subst s.
           apply (allow_gap p (Symbol t1) now Hm Hok) in Hallow.
           destruct Hallow as [Hn|(l & Hl & Hge)]; [exfalso; pose proof (eq_trans (eq_sym Hn) Hs) as Hc; discriminate|].
           unfold gap. pose proof (eq_trans (eq_sym Hl) Hs) as Hc. injection Hc as ->. lia.
        -- destruct (decide (s = Symbol t1)) as [->|Hne].
           ++ specialize (Hseen (Symbol t1) now).
              rewrite Hlast, lookup_insert_eq in Hseen. specialize (Hseen eq_refl).
              apply (allow_gap p (Symbol t1) now Hm Hok) in Hallow.
              destruct Hallow as [Hn|(l & Hl & Hge)]; [exfalso; pose proof (eq_trans (eq_sym Hn) Hs) as Hc; discriminate|].
              pose proof (eq_trans (eq_sym Hl) Hs) as Hc. injection Hc as ->. fold (gap p) in Hge.
              eapply Forall_impl; [exact Hseen|]. intros [tb trb] H Hsym. cbn [fst snd] in *.
              specialize (H Hsym). lia.
           ++ apply (Hseen s seen). rewrite Hlast, lookup_insert_ne by congruence. exact Hs.
Qed.

(** X22. The throttle as a whole: over any run of [Process] calls on a
    pipeline with a positive rate (as every pipeline
    [NewRealtimePipeline] builds has), whatever the processor answers and
    whether or not trades are buffered, two trades of one symbol that
    reach the processor are at least [time.Second / maxRPS] apart, in the
    order of the calls.  Trades of different symbols do not hold each
    other up. *)
Theorem Process_spacing (calls : list (Instant * Duration * option (Trade F)))
    (p : RealtimePipeline F) (w : World F) :
  (0 < maxRPS p)%Z -> lastSeen_ok p ->
  Forall (fun c => fst (fst c) <> 0%Z) calls ->
  ForallOrdPairs
    (fun a b => Symbol (snd a) = Symbol (snd b) ->
                (fst a + Z.quot Second (maxRPS p) <= fst b)%Z)
    (admittedAt calls p w).
Proof.
  intros Hm Hok Hnz. exact (proj1 (admittedAt_spaced calls p w Hm Hok Hnz)).
Qed.

End Throttle.

(** *** The claim on [Process] *)

Section ProcessClaim.
Context {F : Type} {ops : Float64Ops F}.
Variable proc : list (Trade F) -> Trade F -> option error.

(** The error of [validateTrade], case by case, in the order of its
    tests. *)
Lemma validateTrade_cases (t : option (Trade F)) (e : error) :
  validateTrade t = Some e <->
  (t = None /\ e = Errorf "trade nil") \/
  (exists t0, t = Some t0 /\
     ((Symbol t0 = ""%string /\ e = Errorf "symbol empty") \/
      (Symbol t0 <> ""%string /\ (Timestamp t0 <= 0)%Z /\ e = Errorf "timestamp invalid") \/
      (Symbol t0 <> ""%string /\ (0 < Timestamp t0)%Z /\
       ((Price t0 <? f_zero)%f64 = true \/ (Volume t0 <? f_zero)%f64 = true) /\
       e = Errorf "negative price/volume"))).
Proof.
  unfold validateTrade. destruct t as [t0|].
  - destruct (String.eqb_spec (Symbol t0) "") as [Hs|Hs].
    { split.
      - intros [= <-]. right. exists t0. split; [reflexivity|]. left. tauto.
      - intros [[? _]|(t1 & [= <-] & [[_ ->]|[(H & _)|(H & _)]])];
          [discriminate|reflexivity|contradiction|contradiction]. }
    destruct (Z.leb_spec (Timestamp t0) 0) as [Ht|Ht].
    { split.
      - intros [= <-]. right. exists t0. split; [reflexivity|]. right. left. tauto.
      - intros [[? _]|(t1 & [= <-] & [[H _]|[(_ & _ & ->)|(_ & H & _)]])];
          [discriminate|contradiction|reflexivity|lia]. }
    destruct (Price t0 <? f_zero)%f64 eqn:Hp; cbn [orb].
    { split.
      - intros [= <-]. right. exists t0. split; [reflexivity|]. right. right. tauto.
      - intros [[? _]|(t1 & [= <-] & [[H _]|[(_ & H & _)|(_ & _ & _ & ->)]])];
          [discriminate|contradiction|lia|reflexivity]. }
    destruct (Volume t0 <? f_zero)%f64 eqn:Hv.
    { split.
      - intros [= <-]. right. exists t0. split; [reflexivity|]. right. right. tauto.
      - intros [[? _]|(t1 & [= <-] & [[H _]|[(_ & H & _)|(_ & _ & _ & ->)]])];
          [discriminate|contradiction|lia|reflexivity]. }
    split; [discriminate|].
    intros [[? _]|(t1 & [= <-] & [[H _]|[(_ & H & _)|(_ & _ & [H|H] & _)]])];
      [discriminate|contradiction|lia|congruence|congruence].
  - split.
    + intros [= <-]. left. tauto.
    + intros [[_ ->]|(t1 & ? & _)]; [reflexivity|discriminate].
Qed.

(** [Process] called once for each entry, in order: the pipeline and the
    world after the last call. *)
Fixpoint ProcessEach (calls : list (Instant * Duration * option (Trade F)))
    (p : RealtimePipeline F) (w : World F) : RealtimePipeline F * World F :=
  match calls with
  | [] => (p, w)
  | (now, since, t) :: rest =>
      let '(_, p', w') := Process proc now since p w t in
      ProcessEach rest p' w'
  end.

(** The time of the last trade of a symbol in a list of admitted trades. *)
Fixpoint lastAccepted (adm : list (Instant * Trade F)) (s : string) : option Instant :=
  match adm with
  | [] => None
  | (at_, t) :: rest =>
      match lastAccepted rest s with
      | Some later => Some later
      | None => if String.eqb (Symbol t) s then Some at_ else None
      end
  end.

(** One call, as the throttle sees it: nothing forwarded and no time
    recorded, or the transformed trade forwarded and the time of the call
    recorded for its symbol. *)
Lemma Process_step (now : Instant) (since : Duration) (p : RealtimePipeline F)
    (w : World F) (t : option (Trade F)) :
  (0 < maxRPS p)%Z ->
  let '(_, p', w') := Process proc now since p w t in
  (forwarded w' = forwarded w /\ lastSeen p' = lastSeen p /\
   sent proc now since p w t = None) \/
  exists t0 t1,
    t = Some t0 /\ validateTrade (Some t0) = None /\
    transformed p t0 = Some t1 /\ validateTrade (Some t1) = None /\
    fst (allow p (Symbol t1) now) = true /\
    forwarded w' = forwarded w ++ [t1] /\
    lastSeen p' = <[Symbol t1 := now]> (lastSeen p) /\
    sent proc now since p w t = Some t1.
Proof.
  intros Hm.
  pose proof (Process_cases proc now since p w t Hm) as Hc.
  pose proof (Process_forwards_only_valid proc now since p w t) as Hf.
  unfold sent in *.
  destruct (Process proc now since p w t) as [[res p'] w']. cbn [snd] in *.
  destruct Hc as [_ Hc].
  destruct Hf as [Hf|(t0 & t1 & -> & Hv & Ht & Hv1 & Hal & Hf)].
  - left. rewrite Hf in *.
    assert (Hn : nth_error (forwarded w) (length (forwarded w)) = None)
      by (apply nth_error_None; lia).
    destruct Hc as [[Hl _]|(t1 & _ & _ & Hs)]; [tauto|congruence].
  - right. exists t0, t1. rewrite Hf in *.
    assert (Hn : nth_error (forwarded w ++ [t1]) (length (forwarded w)) = Some t1).
    { rewrite nth_error_app2 by lia. now rewrite Nat.sub_diag. }
    destruct Hc as [[_ Hs]|(t1' & _ & Hl & Hs)]; [congruence|].
    assert (t1' = t1) by congruence. subst t1'. tauto.
Qed.

(** Over a run, [lastSeen] holds for each symbol the time of its last
    admitted trade, and what it held before for a symbol with none; the
    processor has seen the admitted trades, in order. *)
Lemma ProcessEach_lastSeen (calls : list (Instant * Duration * option (Trade F)))
    (p : RealtimePipeline F) (w : World F) :
  (0 < maxRPS p)%Z ->
  (forall s,
     lastSeen (fst (ProcessEach calls p w)) !! s =
     match lastAccepted (admittedAt proc calls p w) s with
     | Some at_ => Some at_
     | None => lastSeen p !! s
     end) /\
  forwarded (snd (ProcessEach calls p w)) =
  forwarded w ++ map snd (admittedAt proc calls p w).
Proof.
  revert p w. induction calls as [|[[now since] t] calls IH]; intros p w Hm.
  - cbn. split; [reflexivity|now rewrite app_nil_r].
  - cbn [ProcessEach admittedAt].
    pose proof (Process_step now since p w t Hm) as Hs.
    pose proof (Process_cases proc now since p w t Hm) as Hc.
    destruct (Process proc now since p w t) as [[res p'] w'].
    destruct Hc as [Hmax _].
    destruct (IH p' w' ltac:(lia)) as [IHl IHf].
    destruct Hs as [(Hf & Hl & ->)|(t0 & t1 & _ & _ & _ & _ & _ & Hf & Hl & ->)].
    + split; [|now rewrite IHf, Hf].
      intros s. rewrite IHl, Hl. reflexivity.
    + split; [|rewrite IHf, Hf; cbn [map snd]; now rewrite <- app_assoc].
      intros s. rewrite IHl. cbn [lastAccepted].
      destruct (lastAccepted (admittedAt proc calls p' w') s); [reflexivity|].
      rewrite Hl. destruct (String.eqb_spec (Symbol t1) s) as [->|Hne].
      * now rewrite lookup_insert_eq.
      * now rewrite lookup_insert_ne.
Qed.

(** C4, as the code has it.  A trade reaches the processor only if it is
    valid, still valid after the optional transform, and let through by the
    gap check.  A validation failure returns the error [validateTrade]
    builds (one of four, by the first test that fails), records one
    counter, forwards nothing and leaves the pipeline as it was; a
    throttled trade returns nil after the two throttle counters,
    forwarding nothing.  The gap check lets a trade through exactly when
    its symbol has no recorded time or the recorded one is at least
    [Second / maxRPS] back, and it records the time of the call for the
    symbol exactly when it lets the trade through; so does [Process], and
    over any run of calls the recorded time of a symbol is that of its last
    admitted trade. *)
Theorem Process_spec :
  (forall (now : Instant) (since : Duration) (p : RealtimePipeline F) (w : World F)
          (t : option (Trade F)),
      let '(_, _, w') := Process proc now since p w t in
      forwarded w' = forwarded w \/
      exists t0 t1,
        t = Some t0 /\ validateTrade (Some t0) = None /\
        transformed p t0 = Some t1 /\ validateTrade (Some t1) = None /\
        fst (allow p (Symbol t1) now) = true /\
        forwarded w' = forwarded w ++ [t1]) /\
  (forall t : Trade F,
      validateTrade (Some t) = None <->
      Symbol t <> ""%string /\ (0 < Timestamp t)%Z /\
      (Price t <? f_zero)%f64 = false /\ (Volume t <? f_zero)%f64 = false) /\
  (forall (t : option (Trade F)) (e : error),
      validateTrade t = Some e <->
      (t = None /\ e = Errorf "trade nil") \/
      (exists t0, t = Some t0 /\
         ((Symbol t0 = ""%string /\ e = Errorf "symbol empty") \/
          (Symbol t0 <> ""%string /\ (Timestamp t0 <= 0)%Z /\
           e = Errorf "timestamp invalid") \/
          (Symbol t0 <> ""%string /\ (0 < Timestamp t0)%Z /\
           ((Price t0 <? f_zero)%f64 = true \/ (Volume t0 <? f_zero)%f64 = true) /\
           e = Errorf "negative price/volume")))) /\
  (forall (now : Instant) (since : Duration) (p : RealtimePipeline F) (w : World F)
          (t : option (Trade F)) (e : error),
      validateTrade t = Some e ->
      Process proc now since p w t =
      (Some e, p, mkWorld (forwarded w) (metrics w ++ [RecordError "pipeline_validate"]) (sleeps w))) /\
  (forall (now : Instant) (since : Duration) (p : RealtimePipeline F) (w : World F)
          (t0 : Trade F) (e : error),
      validateTrade (Some t0) = None ->
      validateTrade (transformed p t0) = Some e ->
      Process proc now since p w (Some t0) =
      (Some e, p,
       mkWorld (forwarded w) (metrics w ++ [RecordError "pipeline_transform_invalid"]) (sleeps w))) /\
  (forall (now : Instant) (since : Duration) (p : RealtimePipeline F) (w : World F)
          (t0 t1 : Trade F),
      validateTrade (Some t0) = None ->
      transformed p t0 = Some t1 ->
      validateTrade (Some t1) = None ->
      fst (allow p (Symbol t1) now) = false ->
      Process proc now since p w (Some t0) =
      (None, p,
       mkWorld (forwarded w)
               ((metrics w ++ [RecordError "pipeline_throttle"])
                  ++ [RecordError ("pipeline_throttle_" ++ Symbol t1)])
               (sleeps w))) /\
  (forall (p : RealtimePipeline F) (symbol : string) (now : Instant),
      (0 < maxRPS p)%Z -> lastSeen_ok p ->
      (fst (allow p symbol now) = true <->
       lastSeen p !! symbol = None \/
       exists last, lastSeen p !! symbol = Some last /\
                    (Z.quot Second (maxRPS p) <= now - last)%Z)) /\
  (forall (p : RealtimePipeline F) (symbol : string) (now : Instant),
      (0 < maxRPS p)%Z ->
      lastSeen (snd (allow p symbol now)) =
      if fst (allow p symbol now) then <[symbol := now]> (lastSeen p) else lastSeen p) /\
  (forall (now : Instant) (since : Duration) (p : RealtimePipeline F) (w : World F)
          (t : option (Trade F)),
      (0 < maxRPS p)%Z ->
      let '(_, p', w') := Process proc now since p w t in
      (forwarded w' = forwarded w /\ lastSeen p' = lastSeen p) \/
      exists t1,
        fst (allow p (Symbol t1) now) = true /\
        forwarded w' = forwarded w ++ [t1] /\
        lastSeen p' = <[Symbol t1 := now]> (lastSeen p)) /\
  (forall (calls : list (Instant * Duration * option (Trade F)))
          (p : RealtimePipeline F) (w : World F),
      (0 < maxRPS p)%Z ->
      (forall s,
         lastSeen (fst (ProcessEach calls p w)) !! s =
         match lastAccepted (admittedAt proc calls p w) s with
         | Some at_ => Some at_
         | None => lastSeen p !! s
         end) /\
      forwarded (snd (ProcessEach calls p w)) =
      forwarded w ++ map snd (admittedAt proc calls p w)) /\
  (forall opts : list (PipelineOption F),
      (0 < maxRPS (NewRealtimePipeline opts))%Z /\ lastSeen_ok (NewRealtimePipeline opts)) /\
  (forall (now : Instant) (since : Duration) (p : RealtimePipeline F) (w : World F)
          (t : option (Trade F)),
      now <> 0%Z -> (0 < maxRPS p)%Z -> lastSeen_ok p ->
      let '(_, p', _) := Process proc now since p w t in
      (0 < maxRPS p')%Z /\ lastSeen_ok p').
Proof.
  repeat apply conj.
  - apply Process_forwards_only_valid.
  - apply validateTrade_valid.
  - apply validateTrade_cases.
  - intros now since p w t e Hv. apply Process_invalid; exact Hv.
  - intros now since p w t0 e Hv Ht. apply Process_transform_invalid; assumption.
  - intros now since p w t0 t1 Hv Ht Hv1 Hal.
    apply (Process_throttled proc now since p w t0 t1 Hv Ht Hv1 Hal).
  - apply allow_gap.
  - intros p symbol now Hm.
    destruct (fst (allow p symbol now)) eqn:Ha.
    + now apply allow_true_lastSeen.
    + now rewrite allow_refuses.
  - intros now since p w t Hm.
    pose proof (Process_step now since p w t Hm) as Hs.
    destruct (Process proc now since p w t) as [[res p'] w'].
    destruct Hs as [(Hf & Hl & _)|(t0 & t1 & _ & _ & _ & _ & Ha & Hf & Hl & _)];
      [left; tauto|right; exists t1; tauto].
  - apply ProcessEach_lastSeen.
  - apply NewRealtimePipeline_ok.
  - apply Process_keeps_ok.
Qed.

End ProcessClaim.

Section ProcessRuns.
Let ops64 := binary64_ops (fun x => x).
#[local] Set Warnings "-inexact-float".

(** Three trades of one symbol at the same instant, at the same instant
    again and one nanosecond later, and a fourth 50 ms after the first:
    the first and the fourth reach the processor, and the time recorded
    for the symbol is that of the fourth. *)
Definition burst : list (Instant * Duration * option (Trade float)) :=
  [(1700000000000000000%Z, 1000%Z, Some (btc 1700000000 100));
   (1700000000000000000%Z, 1000%Z, Some (btc 1700000000 101));
   (1700000000000000001%Z, 1000%Z, Some (btc 1700000000 102));
   (1700000000050000000%Z, 1000%Z, Some (btc 1700000000 103))].

Example ProcessEach_binary64 :
  let '(p', w') := ProcessEach (ops:=ops64) accept burst (NewRealtimePipeline []) emptyWorld in
  forwarded w' = [btc 1700000000 100; btc 1700000000 103] /\
  lastSeen p' = {[ "BTC"%string := 1700000000050000000%Z ]} /\
  metrics w' = [RecordLatency "pipeline_process" 1000;
                RecordError "pipeline_throttle"; RecordError "pipeline_throttle_BTC";
                RecordError "pipeline_throttle"; RecordError "pipeline_throttle_BTC";
                RecordLatency "pipeline_process" 1000].
Proof. vm_compute. repeat split. Qed.

(** The errors of the four validation failures, on the default
    pipeline: four different values, so no one error is returned by every
    validation failure, and none of them wraps another error. *)
Lemma Process_no_sentinel :
  let run := fun t => fst (fst (Process (ops:=ops64) accept 1700000000000000000%Z 1000%Z
                                        (NewRealtimePipeline []) emptyWorld t)) in
  run None = Some (Errorf "trade nil") /\
  run (Some (mkTrade "" 1700000000 1%float 1%float)) = Some (Errorf "symbol empty") /\
  run (Some (mkTrade "BTC" 0 1%float 1%float)) = Some (Errorf "timestamp invalid") /\
  run (Some (mkTrade "BTC" 1700000000 (-1)%float 1%float))
    = Some (Errorf "negative price/volume") /\
  ~ (exists ErrInvalidTrade : error,
       run None = Some ErrInvalidTrade /\
       run (Some (mkTrade "" 1700000000 1%float 1%float)) = Some ErrInvalidTrade).
Proof.
  cbv zeta. repeat apply conj; try (vm_compute; reflexivity).
  intros (E & H1 & H2). vm_compute in H1, H2. congruence.
Qed.

End ProcessRuns.

Lemma Process_spec_witness :
  (forall s,
     lastSeen (fst (ProcessEach (ops:=binary64_ops (fun x => x)) accept burst
                                (NewRealtimePipeline []) emptyWorld)) !! s =
     match lastAccepted (admittedAt (ops:=binary64_ops (fun x => x)) accept burst
                                    (NewRealtimePipeline []) emptyWorld) s with
     | Some at_ => Some at_
     | None => lastSeen (NewRealtimePipeline (F:=float) []) !! s
     end) /\
  forwarded (snd (ProcessEach (ops:=binary64_ops (fun x => x)) accept burst
                              (NewRealtimePipeline []) emptyWorld)) =
  forwarded (emptyWorld (F:=float))
    ++ map snd (admittedAt (ops:=binary64_ops (fun x => x)) accept burst
                           (NewRealtimePipeline []) emptyWorld).
Proof.
  apply (Process_spec (ops:=binary64_ops (fun x => x)) accept).
  reflexivity.
Defined.

Section MoreBinary64.
Let ops64 := binary64_ops (fun x => x).
#[local] Set Warnings "-inexact-float".

(** Three trades of one symbol 49.999999 ms and 50 ms after the first,
    and one of another symbol in between: the second is held back. *)
Example admittedAt_binary64 :
  let t0 : Instant := 1700000000000000000%Z in
  admittedAt (ops:=ops64) accept
    [(t0, 1000%Z, Some (btc 1700000000 100));
     ((t0 + 49999999)%Z, 1000%Z, Some (btc 1700000000 101));
     ((t0 + 49999999)%Z, 1000%Z, Some (mkTrade "ETH" 1700000000 7%float 1%float));
     ((t0 + 50000000)%Z, 1000%Z, Some (btc 1700000000 102))]
    (NewRealtimePipeline []) emptyWorld
  = [(t0, btc 1700000000 100);
     ((t0 + 49999999)%Z, mkTrade "ETH" 1700000000 7%float 1%float);
     ((t0 + 50000000)%Z, btc 1700000000 102)].
Proof. vm_compute. reflexivity. Qed.

End MoreBinary64.

Lemma Process_spacing_witness :
  ForallOrdPairs
    (fun a b => Symbol (snd a) = Symbol (snd b) ->
                (fst a + Z.quot Second (maxRPS (NewRealtimePipeline (F:=float) [])) <= fst b)%Z)
    (admittedAt (ops:=binary64_ops (fun x => x)) accept
       [(1700000000000000000%Z, 1000%Z, Some (btc 1700000000 1%float));
        (1700000000010000000%Z, 1000%Z, Some (btc 1700000000 1%float))]
       (NewRealtimePipeline []) emptyWorld).
Proof.
  apply (Process_spacing (ops:=binary64_ops (fun x => x)) accept
           [(1700000000000000000%Z, 1000%Z, Some (btc 1700000000 1%float));
            (1700000000010000000%Z, 1000%Z, Some (btc 1700000000 1%float))]
           (NewRealtimePipeline []) emptyWorld).
  - reflexivity.
  - apply NewRealtimePipeline_ok.
  - repeat constructor; discriminate.
Defined.

Lemma flusher_sleeps_bounded_witness :
  let '(p', w') :=
    flusher (F:=float) reject 3
            (setBuf (NewRealtimePipeline []) [Some (btc 1700000000 1%float)]) emptyWorld in
  In (backoff p') flusherBackoffs /\
  Forall (fun d => (100 * Millisecond <= d <= 3200 * Millisecond)%Z) (sleeps w') /\
  (forall t rest w0,
     bufCh p' = Some t :: rest -> reject (forwarded w0) t = None ->
     exists p'' w'', flushTurn reject [] p' w0 = Some (p'', w'') /\
                     backoff p'' = (50 * Millisecond)%Z /\ sleeps w'' = sleeps w0).
Proof.
  apply (flusher_sleeps_bounded (F:=float) reject 3
           (setBuf (NewRealtimePipeline []) [Some (btc 1700000000 1%float)]) emptyWorld).
  - left. reflexivity.
  - constructor.
Defined.

End Pipeline.

(* ===================================================================== *)
(** ** pkg/kafka: consumer worker, backoff, hook chain *)
(* ===================================================================== *)

Module Kafka.
Import GoTime.

(** *** Data *)

Definition bytes := string.

Record Header := mkHeader { hKey : string; hValue : bytes }.

(** [kafka.Message]. *)
Record Message := mkMessage {
  Topic : string;
  Partition : Z;
  Offset : Z;
  Key : bytes;
  Value : bytes;
  Headers : list Header;
  Time : Instant }.

(** A [context.Context], as the values attached to it. *)
Definition Context := list (string * string).
Definition Background : Context := [].

(** Errors: [errors.New]/[fmt.Errorf] values, and [*HookError] with or
    without a wrapped error. *)
Inductive error :=
  | Err (msg : string)
  | HookError (Code : string) (inner : error)
  | HookErrorCode (Code : string).

(** What a call comes back with: a value, or a panic carrying its value
    (printed with [%v]). *)
Inductive Result (A : Type) :=
  | Ret (a : A)
  | Panic (r : string).
Arguments Ret {A} a.
Arguments Panic {A} r.

Definition Triple : Type := Context * Message * bytes.

(** *** The calls the consumer makes, in the order it makes them

    Each hook method of a user hook (told apart by a number), the handler,
    the backoff between attempts (and whether the stop signal cut it
    short), the plain sleep between commit attempts, the DLQ write, the
    offset commit, and the partition lock. *)
Inductive Event :=
  | EvBeforeHandle (hook : nat) (ctx : Context) (topic : string) (km : Message)
                   (data : bytes) (res : Result (Triple * option error))
  | EvAfterHandle (hook : nat) (ctx : Context) (topic : string) (km : Message)
                  (data : bytes) (err : option error)
  | EvOnError (hook : nat) (ctx : Context) (topic : string) (km : Message)
              (data : bytes) (err : error)
  | EvHandle (topic : string) (ctx : Context) (data : bytes) (res : Result (option error))
  | EvBackoff (d : Duration) (stopped : bool)
  | EvSleep (d : Duration)
  | EvWriteMessages (msg : Message) (res : option error)
  | EvCommitMessages (km : Message) (res : option error)
  | EvLock (topic : string) (partition : Z)
  | EvUnlock (topic : string) (partition : Z).

(** The collaborators.  Each answer may depend on everything that happened
    before ([list Event], oldest first). *)
Record Env := mkEnv {
  hookBefore : nat -> list Event -> Context -> string -> Message -> bytes
               -> Result (Triple * option error);
  hookAfter : nat -> list Event -> Context -> string -> Message -> bytes
              -> option error -> Result unit;
  hookOnError : nat -> list Event -> Context -> string -> Message -> bytes
                -> error -> Result unit;
  handle : string -> list Event -> Context -> bytes -> Result (option error);
  stopDuring : list Event -> Duration -> bool;   (* stopChan wins the select *)
  writeMessages : list Event -> Message -> option error;
  commitMessages : list Event -> Message -> option error;
  rand63 : list Event -> Z;                       (* the generator's next raw value *)
  clock : list Event -> Instant }.

(** *** The monad: read the history, emit calls, maybe panic *)

Definition M (A : Type) : Type := list Event -> Result A * list Event.

Definition ret {A} (a : A) : M A := fun _ => (Ret a, []).

Definition bind {A B} (m : M A) (f : A -> M B) : M B :=
  fun h =>
    match m h with
    | (Ret a, es) =>
        let '(r, es') := f a (h ++ es) in (r, es ++ es')
    | (Panic p, es) => (Panic p, es)
    end.

Definition emit (e : Event) : M unit := fun _ => (Ret tt, [e]).
Definition history : M (list Event) := fun h => (Ret h, []).
Definition panic {A} (r : string) : M A := fun _ => (Panic r, []).

(** A deferred [recover()]: the panic value, if the body panicked. *)
Definition try {A} (m : M A) : M (A + string) :=
  fun h =>
    match m h with
    | (Ret a, es) => (Ret (inl a), es)
    | (Panic p, es) => (Ret (inr p), es)
    end.

(** [defer cleanup] around a body: the cleanup runs on return and on
    panic, and the panic goes on. *)
Definition deferred {A} (body : M A) (cleanup : M unit) : M A :=
  fun h =>
    let '(r, es) := body h in
    let '(_, es') := cleanup (h ++ es) in
    (r, es ++ es').

Declare Scope go_scope.
Delimit Scope go_scope with go.
Notation "x <- m ;; k" := (bind m (fun x => k))
  (at level 100, m at next level, right associativity) : go_scope.
Notation "m ;; k" := (bind m (fun _ => k))
  (at level 100, right associativity) : go_scope.
Local Open Scope go_scope.

(** *** hooks.go *)

(** The [ConsumerHook] interface. *)
Record ConsumerHook := mkHook {
  BeforeHandle : Context -> string -> Message -> bytes -> M (Triple * option error);
  AfterHandle : Context -> string -> Message -> bytes -> option error -> M unit;
  OnError : Context -> string -> Message -> bytes -> error -> M unit }.

Definition NoopHook : ConsumerHook := {|
  BeforeHandle := fun ctx _ km data => ret (ctx, km, data, None);
  AfterHandle := fun _ _ _ _ _ => ret tt;
  OnError := fun _ _ _ _ _ => ret tt |}.

(** [HookFuncs]: a hook from three optional functions. *)
Definition HookFuncs
    (Before : option (Context -> string -> Message -> bytes -> M (Triple * option error)))
    (After : option (Context -> string -> Message -> bytes -> option error -> M unit))
    (Err_ : option (Context -> string -> Message -> bytes -> error -> M unit))
    : ConsumerHook := {|
  BeforeHandle := fun ctx topic km data =>
    match Before with
    | None => ret (ctx, km, data, None)
    | Some f => f ctx topic km data
    end;
  AfterHandle := fun ctx topic km data err =>
    match After with
    | None => ret tt
    | Some f => f ctx topic km data err
    end;
  OnError := fun ctx topic km data err =>
    match Err_ with
    | None => ret tt
    | Some f => f ctx topic km data err
    end |}.

Section WithEnv.
Variable env : Env.

(** A hook supplied by the user of the package: every method is a call
    out, recorded with what it was given (and, for [BeforeHandle], what
    it gave back). *)
Definition userHook (i : nat) : ConsumerHook := {|
  BeforeHandle := fun ctx topic km data h =>
    let r := hookBefore env i h ctx topic km data in
    (r, [EvBeforeHandle i ctx topic km data r]);
  AfterHandle := fun ctx topic km data err h =>
    (hookAfter env i h ctx topic km data err,
     [EvAfterHandle i ctx topic km data err]);
  OnError := fun ctx topic km data err h =>
    (hookOnError env i h ctx topic km data err,
     [EvOnError i ctx topic km data err]) |}.

(** [safeAfter] and [safeOnError]: the panic is swallowed. *)
Definition safeAfter (h : ConsumerHook) (ctx : Context) (topic : string) (km : Message)
    (data : bytes) (err : option error) : M unit :=
  _ <- try (AfterHandle h ctx topic km data err) ;; ret tt.

Definition safeOnError (h : ConsumerHook) (ctx : Context) (topic : string) (km : Message)
    (data : bytes) (err : error) : M unit :=
  _ <- try (OnError h ctx topic km data err) ;; ret tt.

(** [for _, eh := range c.hooks { safeOnError(eh, ...) }]. *)
Fixpoint notifyAll (hooks : list ConsumerHook) (ctx : Context) (topic : string)
    (km : Message) (data : bytes) (err : error) : M unit :=
  match hooks with
  | [] => ret tt
  | eh :: rest =>
      safeOnError eh ctx topic km data err ;; notifyAll rest ctx topic km data err
  end.

Definition panicError (r : string) : error :=
  HookError "ERR_PANIC" (Err ("hook panic: " ++ r)).

(** The loop of [HookChain.BeforeHandle] over the hooks still to run;
    [all] is [c.hooks], told of the first error. *)
Fixpoint beforeLoop (all rest : list ConsumerHook) (topic : string) (cur : Triple)
    : M (Triple * option error) :=
  match rest with
  | [] => ret (cur, None)
  | h :: rest' =>
      let '(curCtx, curMsg, curData) := cur in
      r <- try (BeforeHandle h curCtx topic curMsg curData) ;;
      let '(next, err) :=
        match r with
        | inl (next, err) => (next, err)
        | inr p => (cur, Some (panicError p))
        end in
      match err with
      | Some e =>
          notifyAll all curCtx topic curMsg curData e ;;
          ret (cur, Some e)
      | None => beforeLoop all rest' topic next
      end
  end.

(** [for i := len(c.hooks) - 1; i >= 0; i-- { safeAfter(c.hooks[i], ...) }]:
    the loop from index [n - 1] down to 0. *)
Fixpoint afterLoop (hooks : list ConsumerHook) (n : nat) (ctx : Context)
    (topic : string) (km : Message) (data : bytes) (err : option error) : M unit :=
  match n with
  | O => ret tt
  | S i =>
      match hooks !! i with
      | Some h => safeAfter h ctx topic km data err
      | None => panic "index out of range"
      end ;;
      afterLoop hooks i ctx topic km data err
  end.

(** [NewHookChain]: nil hooks are dropped. *)
Definition NewHookChain (hooks : list (option ConsumerHook)) : list ConsumerHook :=
  omap (fun h => h) hooks.

(** A [*HookChain] as a [ConsumerHook]. *)
Definition HookChain (hooks : list ConsumerHook) : ConsumerHook := {|
  BeforeHandle := fun ctx topic km data => beforeLoop hooks hooks topic (ctx, km, data);
  AfterHandle := fun ctx topic km data err =>
    afterLoop hooks (length hooks) ctx topic km data err;
  OnError := fun ctx topic km data err => notifyAll hooks ctx topic km data err |}.

End WithEnv.

(** *** consumer.go *)

Record ConsumerConfig := mkConfig {
  Brokers : list string;
  GroupID : string;
  AutoOffsetReset : string;
  WorkerCount : Z;
  BufferSize : Z;
  RetryMax : Z;
  BackoffMin : Duration;
  BackoffMax : Duration;
  DLQTopic : string;
  MinBytes : Z;
  MaxBytes : Z }.

Inductive ConsumerOption :=
  | WithConsumerBrokers (brokers : list string)
  | WithConsumerGroupID (groupID : string)
  | WithConsumerAutoOffsetReset (autoOffsetReset : string)
  | WithConsumerWorkers (count : Z)
  | WithConsumerRetry (max : Z) (backoffMin backoffMax : Duration)
  | WithConsumerDLQ (topic : string)
  | WithConsumerFetch (minBytes maxBytes : Z)
  | WithConsumerBufferSize (n : Z).

Definition applyOption (c : ConsumerConfig) (opt : ConsumerOption) : ConsumerConfig :=
  match opt with
  | WithConsumerBrokers b =>
      mkConfig b (GroupID c) (AutoOffsetReset c) (WorkerCount c) (BufferSize c) (RetryMax c)
               (BackoffMin c) (BackoffMax c) (DLQTopic c) (MinBytes c) (MaxBytes c)
  | WithConsumerGroupID g =>
      mkConfig (Brokers c) g (AutoOffsetReset c) (WorkerCount c) (BufferSize c) (RetryMax c)
               (BackoffMin c) (BackoffMax c) (DLQTopic c) (MinBytes c) (MaxBytes c)
  | WithConsumerAutoOffsetReset a =>
      mkConfig (Brokers c) (GroupID c) a (WorkerCount c) (BufferSize c) (RetryMax c)
               (BackoffMin c) (BackoffMax c) (DLQTopic c) (MinBytes c) (MaxBytes c)
  | WithConsumerWorkers n =>
      mkConfig (Brokers c) (GroupID c) (AutoOffsetReset c) n (BufferSize c) (RetryMax c)
               (BackoffMin c) (BackoffMax c) (DLQTopic c) (MinBytes c) (MaxBytes c)
  | WithConsumerRetry m bmin bmax =>
      mkConfig (Brokers c) (GroupID c) (AutoOffsetReset c) (WorkerCount c) (BufferSize c) m
               bmin bmax (DLQTopic c) (MinBytes c) (MaxBytes c)
  | WithConsumerDLQ t =>
      mkConfig (Brokers c) (GroupID c) (AutoOffsetReset c) (WorkerCount c) (BufferSize c)
               (RetryMax c) (BackoffMin c) (BackoffMax c) t (MinBytes c) (MaxBytes c)
  | WithConsumerFetch lo hi =>
      mkConfig (Brokers c) (GroupID c) (AutoOffsetReset c) (WorkerCount c) (BufferSize c)
               (RetryMax c) (BackoffMin c) (BackoffMax c) (DLQTopic c) lo hi
  | WithConsumerBufferSize n =>
      if (0 <? n)%Z
      then mkConfig (Brokers c) (GroupID c) (AutoOffsetReset c) (WorkerCount c) n (RetryMax c)
                    (BackoffMin c) (BackoffMax c) (DLQTopic c) (MinBytes c) (MaxBytes c)
      else c
  end.

Definition defaultConfig : ConsumerConfig :=
  mkConfig [] "default" "earliest" 1 10 3 (50 * Millisecond)%Z (2 * Second)%Z ""
           10000 10000000.

(** The [Consumer]: the readers and handlers by their topics, whether a DLQ
    writer exists, and the hook.  Channels, wait group and partition-lock
    map are not state the claims read. *)
Record Consumer := mkConsumer {
  cfg : ConsumerConfig;
  readers : gset string;
  handlers : gset string;
  dlq : bool;
  hook : ConsumerHook }.

(** The consumer's own record of a message taken from a reader. *)
Record message := mkMsg { topic : string; data : bytes; km : Message }.

Definition NewConsumer (opts : list ConsumerOption) : Consumer + string :=
  let cfg := fold_left applyOption opts defaultConfig in
  if (length (Brokers cfg) =? 0)%nat then inr "brokers are required"%string
  else inl (mkConsumer cfg ∅ ∅ (negb (String.eqb (DLQTopic cfg) "")) NoopHook).

(** [RegisterHandler], for a handler whose [Topic()] is [t]. *)
Definition RegisterHandler (c : Consumer) (t : string) : Consumer :=
  if decide (t ∈ handlers c) then c
  else mkConsumer (cfg c) (readers c) ({[t]} ∪ handlers c) (dlq c) (hook c).

Definition WithConsumerHook (c : Consumer) (h : option ConsumerHook) : Consumer :=
  match h with
  | Some h => mkConsumer (cfg c) (readers c) (handlers c) (dlq c) h
  | None => c
  end.

(** [Start], as far as the state goes: one reader per registered topic. *)
Definition Start (c : Consumer) : Consumer :=
  mkConsumer (cfg c) (handlers c ∪ readers c) (handlers c) (dlq c) (hook c).

(** [1 << uint(k)] at type int64. *)
Definition shl1 (k : Z) : Z :=
  let k := (k mod 2 ^ 64)%Z in
  if (k <? 64)%Z then wrap64 (2 ^ k) else 0%Z.

(** The backoff before the jitter: [exp] after the clamp. *)
Definition backoffBase (min max : Duration) (attempt : Z) : Duration :=
  let min := if (min <=? 0)%Z then (50 * Millisecond)%Z else min in
  let max := if (max <? min)%Z then min else max in
  let exp := wrap64 (min * shl1 (attempt - 1)) in
  if (max <? exp)%Z then max else exp.

Section WithEnv.
Variable env : Env.

(** [rand.Int63n]: panics unless [n > 0]. *)
Definition Int63n (n : Z) : M Z :=
  fun h =>
    if (n <=? 0)%Z then (Panic "invalid argument to Int63n", [])
    else (Ret (rand63 env h mod n)%Z, []).

Definition backoffWithJitter (min max : Duration) (attempt : Z) : M Duration :=
  let exp := backoffBase min max attempt in
  jitter <- Int63n (Z.quot exp 2) ;;
  ret (exp - jitter)%Z.

(** [reader.CommitMessages], [time.Sleep], the DLQ write, the handler. *)
Definition CommitMessages (km : Message) : M (option error) :=
  fun h => let r := commitMessages env h km in (Ret r, [EvCommitMessages km r]).

Definition Sleep (d : Duration) : M unit := emit (EvSleep d).

Definition WriteMessages (msg : Message) : M (option error) :=
  fun h => let r := writeMessages env h msg in (Ret r, [EvWriteMessages msg r]).

Definition Handle (topic : string) (ctx : Context) (data : bytes) : M (option error) :=
  fun h => let r := handle env topic h ctx data in (r, [EvHandle topic ctx data r]).

(** [select { case <-time.After(sleep): case <-c.stopChan: return }]:
    true when the stop signal came first. *)
Definition sleepOrStop (d : Duration) : M bool :=
  fun h => let s := stopDuring env h d in (Ret s, [EvBackoff d s]).

(** The loop of [commitWithRetry] with [n] attempts left, at [attempt]. *)
Fixpoint commitLoop (n : nat) (km : Message) (attempt : Z) (err : option error)
    : M (option error) :=
  match n with
  | O => ret err
  | S n =>
      err <- CommitMessages km ;;
      match err with
      | None => ret None
      | Some _ =>
          sleep <- backoffWithJitter (50 * Millisecond)%Z (500 * Millisecond)%Z attempt ;;
          Sleep sleep ;;
          commitLoop n km (attempt + 1)%Z err
      end
  end.

Definition commitWithRetry (km : Message) (max : Z) : M (option error) :=
  let max := if (max <=? 0)%Z then 1%Z else max in
  commitLoop (Z.to_nat max) km 1 None.

(** How the retry loop of the worker ends: by [break] with the last error,
    or by [return] on the stop signal.  [OutOfFuel] is the model's only:
    the loop was cut before it ended. *)
Inductive LoopExit :=
  | Broke (err : option error)
  | Stopped
  | OutOfFuel.

Fixpoint attemptLoop (fuel : nat) (c : Consumer) (msg : message) (attempts : Z)
    : M LoopExit :=
  match fuel with
  | O => ret OutOfFuel
  | S fuel =>
      let attempts := (attempts + 1)%Z in
      b <- BeforeHandle (hook c) Background (topic msg) (km msg) (data msg) ;;
      let '(hctx, hmsg, hdata, berr) := b in
      match berr with
      | Some e => ret (Broke (Some e))
      | None =>
          err <- Handle (topic msg) hctx hdata ;;
          AfterHandle (hook c) hctx (topic msg) hmsg hdata err ;;
          match err with
          | None => ret (Broke None)
          | Some e =>
              if (RetryMax (cfg c) <? attempts)%Z then ret (Broke (Some e))
              else
                OnError (hook c) hctx (topic msg) hmsg hdata e ;;
                sleep <- backoffWithJitter (BackoffMin (cfg c)) (BackoffMax (cfg c)) attempts ;;
                stop <- sleepOrStop sleep ;;
                if (stop : bool) then ret Stopped
                else attemptLoop fuel c msg attempts
          end
      end
  end.

Definition dlqConfigured (c : Consumer) : bool :=
  dlq c && negb (String.eqb (DLQTopic (cfg c)) "").

(** The message written to the DLQ. *)
Definition dlqMessage (c : Consumer) (msg : message) (now : Instant) : Message :=
  mkMessage (DLQTopic (cfg c)) 0 0 "" (data msg)
            [mkHeader "source_topic" (topic msg)] now.

(** What follows the loop: error hook and DLQ write on failure, then the
    commit on success or when a DLQ is configured. *)
Definition settle (c : Consumer) (msg : message) (err : option error) : M unit :=
  match err with
  | Some e =>
      OnError (hook c) Background (topic msg) (km msg) (data msg) e ;;
      if dlqConfigured c
      then h <- history ;;
           _ <- WriteMessages (dlqMessage c msg (clock env h)) ;; ret tt
      else ret tt
  | None => ret tt
  end ;;
  if match err with None => true | Some _ => false end || dlqConfigured c
  then if decide (topic msg ∈ readers c)
       then _ <- commitWithRetry (km msg) 3 ;; ret tt
       else ret tt
  else ret tt.

(** The body of [messageWorker] for one message: under the partition lock
    (released by [defer]), inside the deferred [recover].  The result says
    how the retry loop ended, or carries the recovered panic. *)
Definition handleMessage (fuel : nat) (c : Consumer) (msg : message)
    : M (LoopExit + string) :=
  if decide (topic msg ∈ handlers c) then
    try (emit (EvLock (topic msg) (Partition (km msg))) ;;
         deferred
           (exit <- attemptLoop fuel c msg 0 ;;
            match exit with
            | Broke err => settle c msg err ;; ret exit
            | Stopped => ret exit
            | OutOfFuel => ret exit
            end)
           (emit (EvUnlock (topic msg) (Partition (km msg)))))
  else ret (inl (Broke None)).

(** [messageWorker]: the messages a worker takes from the channel, one
    after the other. *)
Fixpoint messageWorker (fuel : nat) (c : Consumer) (msgs : list message) : M unit :=
  match msgs with
  | [] => ret tt
  | msg :: rest => _ <- handleMessage fuel c msg ;; messageWorker fuel c rest
  end.

End WithEnv.

(** *** Reading traces *)

Fixpoint count (p : Event -> bool) (evs : list Event) : nat :=
  match evs with
  | [] => 0
  | e :: rest => (if p e then 1 else 0) + count p rest
  end.

Definition isHandle (e : Event) : bool :=
  match e with EvHandle _ _ _ _ => true | _ => false end.
Definition isBackoff (e : Event) : bool :=
  match e with EvBackoff _ _ => true | _ => false end.
Definition isWrite (e : Event) : bool :=
  match e with EvWriteMessages _ _ => true | _ => false end.
Definition isCommit (e : Event) : bool :=
  match e with EvCommitMessages _ _ => true | _ => false end.
Definition isBefore (e : Event) : bool :=
  match e with EvBeforeHandle _ _ _ _ _ _ => true | _ => false end.
Definition isHookEvent (e : Event) : bool :=
  match e with
  | EvBeforeHandle _ _ _ _ _ _ | EvAfterHandle _ _ _ _ _ _ | EvOnError _ _ _ _ _ _ => true
  | _ => false
  end.

(** A hook that calls nothing but hook methods, whatever it is given. *)
Definition hook_quiet (h : ConsumerHook) : Prop :=
  (forall ctx topic km data hist,
      Forall (fun e => isHookEvent e = true) (snd (BeforeHandle h ctx topic km data hist))) /\
  (forall ctx topic km data err hist,
      Forall (fun e => isHookEvent e = true) (snd (AfterHandle h ctx topic km data err hist))) /\
  (forall ctx topic km data err hist,
      Forall (fun e => isHookEvent e = true) (snd (OnError h ctx topic km data err hist))).

Lemma count_app (p : Event -> bool) (a b : list Event) :
  count p (a ++ b) = (count p a + count p b)%nat.
Proof. induction a as [|e a IH]; simpl; [reflexivity|]. rewrite IH. lia. Qed.

Lemma count_none (p q : Event -> bool) (evs : list Event) :
  (forall e, q e = true -> p e = false) ->
  Forall (fun e => q e = true) evs -> count p evs = 0%nat.
Proof.
  intros Hpq Hall. induction Hall as [|e evs He _ IH]; simpl; [reflexivity|].
  now rewrite (Hpq _ He), IH.
Qed.

Lemma count_hook (p : Event -> bool) (evs : list Event) :
  (forall e, isHookEvent e = true -> p e = false) ->
  Forall (fun e => isHookEvent e = true) evs -> count p evs = 0%nat.
Proof. apply count_none. Qed.

Lemma hook_not_handle (e : Event) : isHookEvent e = true -> isHandle e = false.
Proof. destruct e; simpl; congruence. Qed.
Lemma hook_not_backoff (e : Event) : isHookEvent e = true -> isBackoff e = false.
Proof. destruct e; simpl; congruence. Qed.

(** *** The monad's equations *)

Lemma bind_ret {A B} (m : M A) (f : A -> M B) (h : list Event) (a : A) (es : list Event) :
  m h = (Ret a, es) ->
  bind m f h = (fst (f a (h ++ es)), es ++ snd (f a (h ++ es))).
Proof. intros E. unfold bind. rewrite E. now destruct (f a (h ++ es)). Qed.

Lemma bind_events {A B} (m : M A) (f : A -> M B) (h : list Event) (P : Event -> Prop) :
  Forall P (snd (m h)) ->
  (forall a hist, Forall P (snd (f a hist))) ->
  Forall P (snd (bind m f h)).
Proof.
  intros Hm Hf. unfold bind. destruct (m h) as [[a|p] es]; cbn [snd] in *.
  - specialize (Hf a (h ++ es)). destruct (f a (h ++ es)) as [r es'].
    cbn [snd] in *. apply Forall_app; split; assumption.
  - exact Hm.
Qed.

Lemma try_events {A} (m : M A) (h : list Event) : snd (try m h) = snd (m h).
Proof. unfold try. now destruct (m h) as [[a|p] es]. Qed.


(** *** The hook chain *)

Section ChainProofs.
Variable env : Env.

Definition beforeEvent (i : nat) (topic : string) (t : Triple)
    (res : Result (Triple * option error)) : Event :=
  let '(ctx, km, data) := t in EvBeforeHandle i ctx topic km data res.

Definition errorEvents (ids : list nat) (topic : string) (t : Triple) (e : error)
    : list Event :=
  let '(ctx, km, data) := t in map (fun j => EvOnError j ctx topic km data e) ids.

Definition afterEvents (ids : list nat) (ctx : Context) (topic : string) (km : Message)
    (data : bytes) (err : option error) : list Event :=
  map (fun j => EvAfterHandle j ctx topic km data err) ids.

(** The calls of a run of [BeforeHandle] hooks that all succeed: in the
    order of [ids], each given what the one before returned. *)
Inductive threaded (topic : string) : list nat -> Triple -> list Event -> Triple -> Prop :=
  | threaded_nil (cur : Triple) : threaded topic [] cur [] cur
  | threaded_cons (i : nat) (ids : list nat) (cur next fin : Triple) (evs : list Event) :
      threaded topic ids next evs fin ->
      threaded topic (i :: ids) cur (beforeEvent i topic cur (Ret (next, None)) :: evs) fin.

(** A [BeforeHandle] call that fails with [e]: it returned [e], or it
    panicked and [e] is the ERR_PANIC hook error made of the panic. *)
Definition failed (res : Result (Triple * option error)) (e : error) : Prop :=
  (exists next, res = Ret (next, Some e)) \/
  (exists p, res = Panic p /\ e = panicError p).

Lemma safeOnError_run (h : ConsumerHook) ctx topic km data e hist :
  safeOnError h ctx topic km data e hist = (Ret tt, snd (OnError h ctx topic km data e hist)).
Proof.
  unfold safeOnError, bind, try, ret.
  destruct (OnError h ctx topic km data e hist) as [[[]|p] es]; cbn [snd];
    now rewrite app_nil_r.
Qed.

Lemma safeAfter_run (h : ConsumerHook) ctx topic km data err hist :
  safeAfter h ctx topic km data err hist =
  (Ret tt, snd (AfterHandle h ctx topic km data err hist)).
Proof.
  unfold safeAfter, bind, try, ret.
  destruct (AfterHandle h ctx topic km data err hist) as [[[]|p] es]; cbn [snd];
    now rewrite app_nil_r.
Qed.

Lemma notifyAll_returns (hooks : list ConsumerHook) ctx topic km data e hist :
  fst (notifyAll hooks ctx topic km data e hist) = Ret tt.
Proof.
  revert hist. induction hooks as [|h hooks IH]; intros hist; [reflexivity|].
  cbn [notifyAll]. rewrite (bind_ret _ _ _ _ _ (safeOnError_run _ _ _ _ _ _ _)).
  cbn [fst]. apply IH.
Qed.

Lemma notifyAll_user (ids : list nat) ctx topic km data e hist :
  notifyAll (map (userHook env) ids) ctx topic km data e hist =
  (Ret tt, errorEvents ids topic (ctx, km, data) e).
Proof.
  revert hist. induction ids as [|i ids IH]; intros hist; [reflexivity|].
  cbn [map notifyAll]. rewrite (bind_ret _ _ _ _ _ (safeOnError_run _ _ _ _ _ _ _)).
  rewrite IH. reflexivity.
Qed.

Lemma beforeLoop_returns (all rest : list ConsumerHook) topic cur hist :
  exists v, fst (beforeLoop all rest topic cur hist) = Ret v.
Proof.
  revert cur hist. induction rest as [|h rest IH]; intros cur hist.
  - eexists. reflexivity.
  - destruct cur as [[ctx km] data]. cbn [beforeLoop]. unfold bind at 1.
    unfold try at 1.
    destruct (BeforeHandle h ctx topic km data hist) as [[[next [e|]]|p] es].
    + unfold bind. pose proof (notifyAll_returns all ctx topic km data e (hist ++ es)) as Hn.
      destruct (notifyAll all ctx topic km data e (hist ++ es)) as [r es'].
      cbn [fst] in Hn. subst r. cbn. eauto.
    + destruct (IH next (hist ++ es)) as [v Hv].
      destruct (beforeLoop all rest topic next (hist ++ es)) as [r es'].
      cbn [fst] in *. subst r. eauto.
    + unfold bind.
      pose proof (notifyAll_returns all ctx topic km data (panicError p) (hist ++ es)) as Hn.
      destruct (notifyAll all ctx topic km data (panicError p) (hist ++ es)) as [r es'].
      cbn [fst] in Hn. subst r. cbn. eauto.
Qed.

Lemma afterLoop_returns (hooks : list ConsumerHook) (n : nat) ctx topic km data err hist :
  (n <= length hooks)%nat ->
  fst (afterLoop hooks n ctx topic km data err hist) = Ret tt.
Proof.
  revert hist. induction n as [|n IH]; intros hist Hn; [reflexivity|].
  cbn [afterLoop].
  destruct (lookup_lt_is_Some_2 hooks n ltac:(lia)) as [h Hh]. rewrite Hh.
  rewrite (bind_ret _ _ _ _ _ (safeAfter_run _ _ _ _ _ _ _)). cbn [fst].
  apply IH. lia.
Qed.

Lemma beforeLoop_user (all rest : list nat) (topic : string) (cur : Triple)
    (hist : list Event) :
  let '(r, evs) :=
    beforeLoop (map (userHook env) all) (map (userHook env) rest) topic cur hist in
  (exists fin, r = Ret (fin, None) /\ threaded topic rest cur evs fin) \/
  (exists pre i post evsB at_ res e,
      rest = pre ++ i :: post /\
      threaded topic pre cur evsB at_ /\
      failed res e /\
      r = Ret (at_, Some e) /\
      evs = evsB ++ beforeEvent i topic at_ res :: errorEvents all topic at_ e).
Proof.
  revert cur hist. induction rest as [|i rest IH]; intros cur hist.
  - cbn. left. exists cur. split; [reflexivity|constructor].
  - destruct cur as [[ctx km] data]. cbn [map beforeLoop].
    unfold bind at 1. unfold try at 1. cbn [BeforeHandle userHook].
    set (r0 := hookBefore env i hist ctx topic km data).
    destruct r0 as [[next [e|]]|p] eqn:Hr0.
    + unfold bind. rewrite notifyAll_user. cbn [ret].
      right. exists [], i, rest, [], (ctx, km, data), (Ret (next, Some e)), e.
      split; [reflexivity|]. split; [constructor|]. split; [left; eauto|].
      split; [reflexivity|]. cbn. now rewrite app_nil_r.
    + specialize (IH next (hist ++ [EvBeforeHandle i ctx topic km data (Ret (next, None))])).
      destruct (beforeLoop _ _ topic next _) as [r evs].
      destruct IH as [[fin [Hr Hth]]|(pre & j & post & evsB & at_ & res & e & Hrest & Hth & Hf & Hr & Hev)].
      * left. exists fin. split; [exact Hr|].
        apply (threaded_cons topic i rest (ctx, km, data) next fin evs Hth).
      * right. exists (i :: pre), j, post,
          (beforeEvent i topic (ctx, km, data) (Ret (next, None)) :: evsB), at_, res, e.
        split; [now rewrite Hrest|]. split; [now constructor|].
        split; [exact Hf|]. split; [exact Hr|]. cbn. now rewrite Hev.
    + unfold bind. rewrite notifyAll_user. cbn [ret].
      right. exists [], i, rest, [], (ctx, km, data), (Panic p), (panicError p).
      split; [reflexivity|]. split; [constructor|]. split; [right; eauto|].
      split; [reflexivity|]. cbn. now rewrite app_nil_r.
Qed.

Lemma afterLoop_user (ids : list nat) (n : nat) ctx topic km data err hist :
  (n <= length ids)%nat ->
  afterLoop (map (userHook env) ids) n ctx topic km data err hist =
  (Ret tt, afterEvents (rev (take n ids)) ctx topic km data err).
Proof.
  revert hist. induction n as [|n IH]; intros hist Hn; [reflexivity|].
  cbn [afterLoop].
  destruct (lookup_lt_is_Some_2 ids n ltac:(lia)) as [i Hi].
  rewrite list_lookup_fmap, Hi. cbn [fmap option_fmap option_map].
  rewrite (bind_ret _ _ _ _ _ (safeAfter_run _ _ _ _ _ _ _)).
  rewrite IH by lia. cbn [fst snd AfterHandle userHook].
  rewrite (take_S_r _ _ _ Hi), rev_app_distr. reflexivity.
Qed.

Lemma NewHookChain_user (hs : list (option nat)) :
  NewHookChain (map (option_map (userHook env)) hs) =
  map (userHook env) (omap (fun i => i) hs).
Proof.
  unfold NewHookChain. induction hs as [|[i|] hs IH]; cbn; [reflexivity| |exact IH].
  f_equal. exact IH.
Qed.

End ChainProofs.

Section ChainClaims.
Variable env : Env.

(** The chain [NewHookChain] builds from user hooks, some of them nil, and
    the hooks it keeps, in registration order. *)
Definition chainOf (hs : list (option nat)) : ConsumerHook :=
  HookChain (NewHookChain (map (option_map (userHook env)) hs)).

Definition registered (hs : list (option nat)) : list nat := omap (fun i => i) hs.

(** C2. For the chain built by [NewHookChain] (nil hooks dropped):
    [BeforeHandle] calls the hooks in registration order, each with what
    the one before returned; the first failure (an error returned, or a
    panic turned into an ERR_PANIC error) ends the run, [OnError] of every
    hook of the chain is called with that error, and the error is returned
    with the triple the failing hook was given; [AfterHandle] calls the
    hooks in reverse order; no call into a chain ever panics, whatever its
    hooks do. *)
Theorem HookChain_spec :
  (forall (hs : list (option nat)) ctx topic km data hist,
      let '(r, evs) := BeforeHandle (chainOf hs) ctx topic km data hist in
      (exists fin,
          r = Ret (fin, None) /\ threaded topic (registered hs) (ctx, km, data) evs fin) \/
      (exists pre i post evsB at_ res e,
          registered hs = pre ++ i :: post /\
          threaded topic pre (ctx, km, data) evsB at_ /\
          failed res e /\
          r = Ret (at_, Some e) /\
          evs = evsB ++ beforeEvent i topic at_ res
                     :: errorEvents (registered hs) topic at_ e)) /\
  (forall (hs : list (option nat)) ctx topic km data err hist,
      AfterHandle (chainOf hs) ctx topic km data err hist =
      (Ret tt, afterEvents (rev (registered hs)) ctx topic km data err)) /\
  (forall (hs : list (option nat)) ctx topic km data e hist,
      OnError (chainOf hs) ctx topic km data e hist =
      (Ret tt, errorEvents (registered hs) topic (ctx, km, data) e)) /\
  (forall (hooks : list (option ConsumerHook)) ctx topic km data hist,
      exists v,
        fst (BeforeHandle (HookChain (NewHookChain hooks)) ctx topic km data hist) = Ret v) /\
  (forall (hooks : list (option ConsumerHook)) ctx topic km data err hist,
      fst (AfterHandle (HookChain (NewHookChain hooks)) ctx topic km data err hist) = Ret tt) /\
  (forall (hooks : list (option ConsumerHook)) ctx topic km data e hist,
      fst (OnError (HookChain (NewHookChain hooks)) ctx topic km data e hist) = Ret tt).
Proof.
  split; [|split; [|split; [|split; [|split]]]].
  - intros hs ctx topic km data hist. unfold chainOf, registered.
    rewrite NewHookChain_user. cbn [BeforeHandle HookChain].
    apply (beforeLoop_user env _ _ topic (ctx, km, data) hist).
  - intros hs ctx topic km data err hist. unfold chainOf, registered.
    rewrite NewHookChain_user. cbn [AfterHandle HookChain].
    rewrite afterLoop_user by (rewrite length_map; lia).
    rewrite length_map, firstn_all. reflexivity.
  - intros hs ctx topic km data e hist. unfold chainOf, registered.
    rewrite NewHookChain_user. cbn [OnError HookChain].
    apply notifyAll_user.
  - intros hooks ctx topic km data hist. cbn [BeforeHandle HookChain].
    apply beforeLoop_returns.
  - intros hooks ctx topic km data err hist. cbn [AfterHandle HookChain].
    apply afterLoop_returns. lia.
  - intros hooks ctx topic km data e hist. cbn [OnError HookChain].
    apply notifyAll_returns.
Qed.

(** The spec's picture on three hooks, the second failing. *)
Example HookChain_second_fails :
  let env1 := mkEnv
    (fun i _ ctx _ km data =>
       if (i =? 2)%nat then Ret (ctx, km, data, Some (Err "rejected"))
       else Ret (("seen", "yes") :: ctx, km, data, None))
    (fun _ _ _ _ _ _ _ => Ret tt)
    (fun i _ _ _ _ _ _ => if (i =? 3)%nat then Panic "boom" else Ret tt)
    (fun _ _ _ _ => Ret None) (fun _ _ => false) (fun _ _ => None) (fun _ _ => None)
    (fun _ => 0%Z) (fun _ => 0%Z) in
  let km := mkMessage "ticks" 0 7 "" "p" [] 0%Z in
  let chain := HookChain (NewHookChain [Some (userHook env1 1); None;
                                        Some (userHook env1 2); Some (userHook env1 3)]) in
  BeforeHandle chain Background "ticks" km "p" [] =
  (Ret ([("seen", "yes")], km, "p", Some (Err "rejected")),
   [EvBeforeHandle 1 [] "ticks" km "p" (Ret ([("seen", "yes")], km, "p", None));
    EvBeforeHandle 2 [("seen", "yes")] "ticks" km "p"
                   (Ret ([("seen", "yes")], km, "p", Some (Err "rejected")));
    EvOnError 1 [("seen", "yes")] "ticks" km "p" (Err "rejected");
    EvOnError 2 [("seen", "yes")] "ticks" km "p" (Err "rejected");
    EvOnError 3 [("seen", "yes")] "ticks" km "p" (Err "rejected")]) /\
  AfterHandle chain Background "ticks" km "p" None [] =
  (Ret tt,
   [EvAfterHandle 3 [] "ticks" km "p" None;
    EvAfterHandle 2 [] "ticks" km "p" None;
    EvAfterHandle 1 [] "ticks" km "p" None]).
Proof. vm_compute. split; reflexivity. Qed.

(** *** Hooks that stay hooks *)

Lemma NoopHook_quiet : hook_quiet NoopHook.
Proof. repeat split; intros; constructor. Qed.

Lemma userHook_quiet (i : nat) : hook_quiet (userHook env i).
Proof. repeat split; intros; cbn; repeat constructor. Qed.

Lemma notifyAll_quiet (hooks : list ConsumerHook) ctx topic km data e hist :
  Forall hook_quiet hooks ->
  Forall (fun ev => isHookEvent ev = true) (snd (notifyAll hooks ctx topic km data e hist)).
Proof.
  intros Hq. revert hist. induction Hq as [|h hooks Hh _ IH]; intros hist; [constructor|].
  cbn [notifyAll]. rewrite (bind_ret _ _ _ _ _ (safeOnError_run _ _ _ _ _ _ _)).
  cbn [snd]. apply Forall_app. split; [apply Hh|apply IH].
Qed.

Lemma beforeLoop_quiet (all rest : list ConsumerHook) topic cur hist :
  Forall hook_quiet all -> Forall hook_quiet rest ->
  Forall (fun ev => isHookEvent ev = true) (snd (beforeLoop all rest topic cur hist)).
Proof.
  intros Hall Hrest. revert cur hist.
  induction Hrest as [|h rest Hh _ IH]; intros cur hist; [constructor|].
  destruct cur as [[ctx km] data]. cbn [beforeLoop].
  destruct Hh as [HhB _]. specialize (HhB ctx topic km data hist).
  unfold bind at 1. unfold try at 1.
  destruct (BeforeHandle h ctx topic km data hist) as [[[next [e|]]|p] es]; cbn [snd] in HhB.
  - unfold bind. pose proof (notifyAll_quiet all ctx topic km data e (hist ++ es) Hall) as Hn.
    destruct (notifyAll all ctx topic km data e (hist ++ es)) as [[[]|q] es']; cbn [snd] in *.
    + cbn. rewrite app_nil_r. apply Forall_app; split; assumption.
    + apply Forall_app; split; assumption.
  - specialize (IH next (hist ++ es)).
    destruct (beforeLoop all rest topic next (hist ++ es)) as [r es']. cbn [snd] in *.
    apply Forall_app; split; assumption.
  - unfold bind.
    pose proof (notifyAll_quiet all ctx topic km data (panicError p) (hist ++ es) Hall) as Hn.
    destruct (notifyAll all ctx topic km data (panicError p) (hist ++ es)) as [[[]|q] es'];
      cbn [snd] in *.
    + cbn. rewrite app_nil_r. apply Forall_app; split; assumption.
    + apply Forall_app; split; assumption.
Qed.

Lemma afterLoop_quiet (hooks : list ConsumerHook) (n : nat) ctx topic km data err hist :
  Forall hook_quiet hooks -> (n <= length hooks)%nat ->
  Forall (fun ev => isHookEvent ev = true)
         (snd (afterLoop hooks n ctx topic km data err hist)).
Proof.
  intros Hq. revert hist. induction n as [|n IH]; intros hist Hn; [constructor|].
  cbn [afterLoop].
  destruct (lookup_lt_is_Some_2 hooks n ltac:(lia)) as [h Hh]. rewrite Hh.
  rewrite (bind_ret _ _ _ _ _ (safeAfter_run _ _ _ _ _ _ _)). cbn [snd].
  apply Forall_app. split; [|apply IH; lia].
  rewrite Forall_forall in Hq.
  destruct (Hq h) as (_ & HA & _); [apply list_elem_of_lookup; eauto|]. apply HA.
Qed.

Lemma HookChain_quiet (hooks : list ConsumerHook) :
  Forall hook_quiet hooks -> hook_quiet (HookChain hooks).
Proof.
  intros Hq. repeat split; intros.
  - cbn [BeforeHandle HookChain]. now apply beforeLoop_quiet.
  - cbn [AfterHandle HookChain]. apply afterLoop_quiet; [exact Hq|lia].
  - cbn [OnError HookChain]. now apply notifyAll_quiet.
Qed.

End ChainClaims.

(** *** backoffWithJitter *)

Section BackoffProofs.
Variable env : Env.

Lemma shl1_small (k : Z) : (0 <= k < 63)%Z -> shl1 k = (2 ^ k)%Z.
Proof.
  intros Hk. unfold shl1.
  rewrite Z.mod_small by (split; [lia|]; apply Z.lt_trans with 63%Z; lia).
  destruct (Z.ltb_spec k 64); [|lia].
  apply wrap64_small. split.
  - apply Z.le_trans with 0%Z; [lia|]. apply Z.pow_nonneg. lia.
  - apply Z.pow_lt_mono_r; lia.
Qed.

(** Where nothing overflows, the base is min(backoffMin * 2^(attempt-1),
    backoffMax). *)
Lemma backoffBase_exact (min max : Duration) (attempt : Z) :
  (0 < min <= max)%Z -> (1 <= attempt)%Z ->
  (min * 2 ^ (attempt - 1) < 2 ^ 63)%Z ->
  backoffBase min max attempt = Z.min (min * 2 ^ (attempt - 1)) max.
Proof.
  intros [Hmin Hmax] Ha Hno. unfold backoffBase.
  destruct (Z.leb_spec min 0); [lia|].
  destruct (Z.ltb_spec max min); [lia|].
  assert (Hk : (attempt - 1 < 63)%Z).
  { destruct (Z.lt_ge_cases (attempt - 1) 63) as [Hlt|Hge]; [exact Hlt|].
    assert (2 ^ 63 <= 2 ^ (attempt - 1))%Z by (apply Z.pow_le_mono_r; lia).
    nia. }
  rewrite shl1_small by lia.
  assert (Hpow : (1 <= 2 ^ (attempt - 1))%Z).
  { change 1%Z with (2 ^ 0)%Z. apply Z.pow_le_mono_r; lia. }
  rewrite wrap64_small by nia.
  destruct (Z.ltb_spec max (min * 2 ^ (attempt - 1))); lia.
Qed.

(** With a base of at least 2 ns the call returns base - j for a jitter
    0 <= j < base / 2. *)
Lemma backoffWithJitter_returns (min max : Duration) (attempt : Z) (hist : list Event) :
  (2 <= backoffBase min max attempt)%Z ->
  exists j,
    (0 <= j < Z.quot (backoffBase min max attempt) 2)%Z /\
    backoffWithJitter env min max attempt hist =
    (Ret (backoffBase min max attempt - j)%Z, []).
Proof.
  intros Hb. unfold backoffWithJitter, bind, Int63n.
  set (e := backoffBase min max attempt) in *.
  assert (Hq : (1 <= Z.quot e 2)%Z).
  { rewrite Z.quot_div_nonneg by lia. apply Z.div_le_lower_bound; lia. }
  destruct (Z.leb_spec (Z.quot e 2) 0); [lia|].
  exists (rand63 env hist mod Z.quot e 2)%Z. split; [apply Z.mod_pos_bound; lia|].
  reflexivity.
Qed.

(** Below 2 ns the jitter bound is 0 and [rand.Int63n] panics. *)
Lemma backoffWithJitter_panics (min max : Duration) (attempt : Z) (hist : list Event) :
  (backoffBase min max attempt < 2)%Z ->
  backoffWithJitter env min max attempt hist = (Panic "invalid argument to Int63n", []).
Proof.
  intros Hb. unfold backoffWithJitter, bind, Int63n.
  set (e := backoffBase min max attempt) in *.
  assert (Hq : (Z.quot e 2 <= 0)%Z).
  { destruct (Z.le_gt_cases 0 e) as [Hpos|Hneg].
    - rewrite Z.quot_div_nonneg by lia.
      assert (e / 2 < 1)%Z by (apply Z.div_lt_upper_bound; lia). lia.
    - apply Z.quot_le_upper_bound; lia. }
  destruct (Z.leb_spec (Z.quot e 2) 0); [reflexivity|lia].
Qed.

(** The part of C6 that holds: without overflow and from 2 ns up, the sleep
    is e - j with e = min(backoffMin * 2^(attempt-1), backoffMax) and
    0 <= j < e/2, so it is at most backoffMax and more than backoffMin/2. *)
Lemma backoffWithJitter_in_range (min max : Duration) (attempt : Z) (hist : list Event) :
  (2 <= min <= max)%Z -> (1 <= attempt)%Z ->
  (min * 2 ^ (attempt - 1) < 2 ^ 63)%Z ->
  exists j,
    let e := Z.min (min * 2 ^ (attempt - 1)) max in
    (0 <= j < Z.quot e 2)%Z /\
    backoffWithJitter env min max attempt hist = (Ret (e - j)%Z, []) /\
    (e - j <= max)%Z /\ (min < 2 * (e - j))%Z.
Proof.
  intros [Hmin Hmax] Ha Hno.
  assert (Hexact := backoffBase_exact min max attempt ltac:(lia) Ha Hno).
  assert (Hpow : (1 <= 2 ^ (attempt - 1))%Z).
  { change 1%Z with (2 ^ 0)%Z. apply Z.pow_le_mono_r; lia. }
  assert (He : (min <= Z.min (min * 2 ^ (attempt - 1)) max)%Z) by nia.
  destruct (backoffWithJitter_returns min max attempt hist) as [j [Hj Hrun]];
    [rewrite Hexact; lia|].
  rewrite Hexact in Hj, Hrun. exists j. cbv zeta.
  split; [exact Hj|]. split; [exact Hrun|].
  set (e := Z.min (min * 2 ^ (attempt - 1)) max) in *.
  assert (Hq : (2 * Z.quot e 2 <= e)%Z).
  { rewrite Z.quot_div_nonneg by lia. apply Z.mul_div_le. lia. }
  split; [unfold e; lia|lia].
Qed.

(** C6. With the default 50 ms and 2 s, the 39th attempt overflows the
    64-bit product 50 ms * 2^38: the base comes out negative, passes the
    clamp, and [rand.Int63n] panics on the non-positive bound.  With a
    minimum of 1 ns the first attempt already panics (bound 0). *)
Theorem backoffWithJitter_overflow (hist : list Event) :
  backoffBase (50 * Millisecond) (2 * Second) 39 = (-4702848726509551616)%Z /\
  backoffWithJitter env (50 * Millisecond) (2 * Second) 39 hist =
  (Panic "invalid argument to Int63n", []) /\
  backoffWithJitter env (50 * Millisecond) (2 * Second) 38 hist =
  (Ret (2 * Second - rand63 env hist mod Second)%Z, []) /\
  backoffWithJitter env 1 1 1 hist = (Panic "invalid argument to Int63n", []).
Proof.
  assert (H39 : backoffBase (50 * Millisecond) (2 * Second) 39 = (-4702848726509551616)%Z)
    by (vm_compute; reflexivity).
  split; [exact H39|]. split; [|split].
  - apply backoffWithJitter_panics. rewrite H39. lia.
  - unfold backoffWithJitter, bind, Int63n.
    replace (backoffBase (50 * Millisecond) (2 * Second) 38) with (2 * Second)%Z
      by (vm_compute; reflexivity).
    reflexivity.
  - apply backoffWithJitter_panics. vm_compute. reflexivity.
Qed.

End BackoffProofs.

(** *** The worker *)

Section WorkerProofs.
Variable env : Env.

Lemma bind_fst {A B} (m : M A) (f : A -> M B) (h : list Event) :
  fst (bind m f h) =
  match fst (m h) with
  | Ret a => fst (f a (h ++ snd (m h)))
  | Panic p => Panic p
  end.
Proof.
  unfold bind. destruct (m h) as [[a|p] es]; cbn [fst snd]; [|reflexivity].
  now destruct (f a (h ++ es)).
Qed.

Lemma bind_snd {A B} (m : M A) (f : A -> M B) (h : list Event) :
  snd (bind m f h) =
  snd (m h) ++ match fst (m h) with
               | Ret a => snd (f a (h ++ snd (m h)))
               | Panic _ => []
               end.
Proof.
  unfold bind. destruct (m h) as [[a|p] es]; cbn [fst snd].
  - now destruct (f a (h ++ es)).
  - now rewrite app_nil_r.
Qed.

Lemma deferred_snd {A} (body : M A) (cleanup : M unit) (h : list Event) :
  snd (deferred body cleanup h) = snd (body h) ++ snd (cleanup (h ++ snd (body h))).
Proof.
  unfold deferred. destruct (body h) as [r es]. cbn [snd].
  now destruct (cleanup (h ++ es)).
Qed.

Lemma deferred_fst {A} (body : M A) (cleanup : M unit) (h : list Event) :
  fst (deferred body cleanup h) = fst (body h).
Proof.
  unfold deferred. destruct (body h) as [r es].
  now destruct (cleanup (h ++ es)).
Qed.

Definition isCommitOrSleep (km : Message) (e : Event) : bool :=
  match e with
  | EvCommitMessages km' _ => true
  | EvSleep _ => true
  | _ => false
  end.

(** The three attempts of [commitWithRetry] use 50, 100 and 200 ms. *)
Lemma commit_backoff_base (attempt : Z) :
  (1 <= attempt <= 3)%Z ->
  (2 <= backoffBase (50 * Millisecond) (500 * Millisecond) attempt)%Z.
Proof.
  intros Ha.
  assert (H : (attempt = 1 \/ attempt = 2 \/ attempt = 3)%Z) by lia.
  destruct H as [H|[H|H]]; subst attempt; vm_compute; discriminate.
Qed.

Lemma commitLoop_events (n : nat) (km : Message) (attempt : Z) (err : option error)
    (hist : list Event) :
  (1 <= attempt)%Z -> (attempt + Z.of_nat n <= 4)%Z ->
  exists r evs,
    commitLoop env n km attempt err hist = (Ret r, evs) /\
    Forall (fun e => isCommitOrSleep km e = true) evs /\
    (n <> 0%nat -> exists r0 rest, evs = EvCommitMessages km r0 :: rest).
Proof.
  revert attempt err hist. induction n as [|n IH]; intros attempt err hist Ha Hn.
  - exists err, []. split; [reflexivity|]. split; [constructor|]. congruence.
  - cbn [commitLoop]. unfold bind at 1. unfold CommitMessages at 1.
    destruct (commitMessages env hist km) as [e|] eqn:Hc.
    + destruct (backoffWithJitter_returns env (50 * Millisecond) (500 * Millisecond)
                  attempt (hist ++ [EvCommitMessages km (Some e)])) as [j [Hj Hb]];
        [apply commit_backoff_base; lia|].
      unfold bind at 1. rewrite Hb.
      unfold bind at 1. unfold Sleep, emit.
      destruct (IH (attempt + 1)%Z (Some e)
                  ((hist ++ [EvCommitMessages km (Some e)]) ++ []
                   ++ [EvSleep (backoffBase (50 * Millisecond) (500 * Millisecond) attempt - j)]))
        as (r & evs & Hrun & Hall & _); [lia|lia|].
      rewrite app_nil_l in Hrun. rewrite app_nil_r.
      rewrite Hrun. eexists _, _. split; [reflexivity|].
      split; [|eauto].
      repeat (constructor; [reflexivity|]). exact Hall.
    + cbn. eexists _, _. split; [reflexivity|].
      split; [repeat constructor|eauto].
Qed.

Lemma commitWithRetry_events (km : Message) (hist : list Event) :
  exists r r0 rest,
    commitWithRetry env km 3 hist = (Ret r, EvCommitMessages km r0 :: rest) /\
    Forall (fun e => isCommitOrSleep km e = true) rest.
Proof.
  unfold commitWithRetry. cbn [Z.leb Z.compare].
  destruct (commitLoop_events 3 km 1 None hist) as (r & evs & Hrun & Hall & Hhd); [lia|lia|].
  destruct Hhd as (r0 & rest & ->); [discriminate|].
  change (Z.to_nat 3) with 3%nat. rewrite Hrun.
  exists r, r0, rest. split; [reflexivity|]. now inversion Hall.
Qed.

End WorkerProofs.

Section LoopProofs.
Variable env : Env.

Lemma backoffWithJitter_silent (min max : Duration) (attempt : Z) (hist : list Event) :
  snd (backoffWithJitter env min max attempt hist) = [].
Proof.
  unfold backoffWithJitter, bind, Int63n. destruct (_ <=? _)%Z; reflexivity.
Qed.


(** Enough fuel: the loop ends by itself. *)
Lemma attemptLoop_ends (fuel : nat) (c : Consumer) (msg : message) (a : Z)
    (hist : list Event) :
  (Z.max 1 (RetryMax (cfg c) - a + 1) <= Z.of_nat fuel)%Z ->
  fst (attemptLoop env fuel c msg a hist) <> Ret OutOfFuel.
Proof.
  revert a hist. induction fuel as [|fuel IH]; intros a hist Hfuel; [lia|].
  cbn [attemptLoop]. rewrite bind_fst.
  destruct (fst (BeforeHandle (hook c) Background (topic msg) (km msg) (data msg) hist))
    as [[[[hctx hmsg] hdata] [e|]]|p]; [cbn; congruence| |congruence].
  set (h1 := hist ++ _).
  rewrite bind_fst. cbn [Handle snd fst].
  destruct (handle env (topic msg) h1 hctx hdata) as [err|p]; [|congruence].
  set (h2 := h1 ++ _).
  rewrite bind_fst.
  destruct (fst (AfterHandle (hook c) hctx (topic msg) hmsg hdata err h2)) as [[]|p];
    [|congruence].
  set (h3 := h2 ++ _).
  destruct err as [e|]; [|cbn; congruence].
  destruct (Z.ltb_spec (RetryMax (cfg c)) (a + 1)) as [Hlast|Hmore]; [cbn; congruence|].
  rewrite bind_fst.
  destruct (fst (OnError (hook c) hctx (topic msg) hmsg hdata e h3)) as [[]|p];
    [|congruence].
  set (h4 := h3 ++ _).
  rewrite bind_fst.
  destruct (fst (backoffWithJitter env (BackoffMin (cfg c)) (BackoffMax (cfg c)) (a + 1) h4))
    as [sleep|p]; [|congruence].
  rewrite bind_fst. cbn [sleepOrStop snd fst].
  destruct (stopDuring env _ sleep); [cbn; congruence|].
  apply IH. lia.
Qed.

(** A [BeforeHandle] error ends the loop in the attempt it occurs in: no
    handler call, no backoff, no further attempt. *)
Lemma attemptLoop_before_error (fuel : nat) (c : Consumer) (msg : message) (a : Z)
    (hist : list Event) (t : Triple) (e : error) (evsB : list Event) :
  BeforeHandle (hook c) Background (topic msg) (km msg) (data msg) hist
    = (Ret (t, Some e), evsB) ->
  attemptLoop env (S fuel) c msg a hist = (Ret (Broke (Some e)), evsB).
Proof.
  intros HB. cbn [attemptLoop]. unfold bind. rewrite HB.
  destruct t as [[hctx hmsg] hdata]. cbn. now rewrite app_nil_r.
Qed.

End LoopProofs.

(** *** A handler that always fails, under the default hook *)

Section AlwaysFailing.
Variable env : Env.
Variable c : Consumer.
Variable msg : message.
Hypothesis Hhook : hook c = NoopHook.
Hypothesis Hfail :
  forall hist ctx d, exists e, handle env (topic msg) hist ctx d = Ret (Some e).
Hypothesis Hrun : forall hist d, stopDuring env hist d = false.
Hypothesis Hbackoff :
  forall a, (1 <= a <= RetryMax (cfg c))%Z ->
            (2 <= backoffBase (BackoffMin (cfg c)) (BackoffMax (cfg c)) a)%Z.



End AlwaysFailing.

(** *** After the loop, and the whole of one message *)

Section MessageProofs.
Variable env : Env.

(** What can follow the retry loop: hook calls, the DLQ write, commits and
    the sleeps between them. *)
Definition isTailEvent (km : Message) (e : Event) : bool :=
  isHookEvent e || isWrite e || isCommitOrSleep km e.

Lemma commit_tail (c : Consumer) (msg : message) (hist : list Event) :
  exists commits,
    (if decide (topic msg ∈ readers c)
     then _ <- commitWithRetry env (km msg) 3 ;; ret tt
     else ret tt) hist = (Ret tt, commits) /\
    Forall (fun e => isCommitOrSleep (km msg) e = true) commits /\
    (topic msg ∈ readers c -> exists r0 rest, commits = EvCommitMessages (km msg) r0 :: rest) /\
    (topic msg ∉ readers c -> commits = []).
Proof.
  destruct (decide (topic msg ∈ readers c)) as [Hin|Hout].
  - destruct (commitWithRetry_events env (km msg) hist) as (r & r0 & rest & Hrun & Hall).
    rewrite (bind_ret _ _ _ _ _ Hrun). cbn [ret fst snd]. rewrite app_nil_r.
    eexists. split; [reflexivity|]. split; [constructor; [reflexivity|exact Hall]|].
    split; [eauto|tauto].
  - exists []. split; [reflexivity|]. split; [constructor|]. tauto.
Qed.

(** After a failed loop: the error hook, then the DLQ write and the commit
    when a DLQ is configured, and nothing more when none is. *)
Lemma settle_error (c : Consumer) (msg : message) (e : error) (hist : list Event) :
  fst (OnError (hook c) Background (topic msg) (km msg) (data msg) e hist) = Ret tt ->
  exists tail,
    settle env c msg (Some e) hist =
    (Ret tt, snd (OnError (hook c) Background (topic msg) (km msg) (data msg) e hist) ++ tail) /\
    (dlqConfigured c = true ->
       exists now res commits,
         tail = EvWriteMessages (dlqMessage c msg now) res :: commits /\
         Forall (fun ev => isCommitOrSleep (km msg) ev = true) commits /\
         (topic msg ∈ readers c ->
            exists r0 rest, commits = EvCommitMessages (km msg) r0 :: rest) /\
         (topic msg ∉ readers c -> commits = [])) /\
    (dlqConfigured c = false -> tail = []).
Proof.
  intros Hsafe. unfold settle.
  destruct (OnError (hook c) Background (topic msg) (km msg) (data msg) e hist)
    as [rE evsE] eqn:HE. cbn [fst snd] in *. subst rE.
  destruct (dlqConfigured c) eqn:Hdlq; cbn [orb].
  - unfold bind at 1. unfold bind at 1. rewrite HE.
    unfold bind at 1. unfold history at 1. unfold bind at 1. unfold WriteMessages at 1.
    cbn [ret].
    match goal with |- context [(if decide _ then _ else _) ?h] =>
      destruct (commit_tail c msg h) as (commits & Hc & Hall & Hin & Hout)
    end.
    rewrite Hc. eexists (_ :: commits).
    split; [cbn; rewrite <- app_assoc; reflexivity|].
    split; [|discriminate]. intros _. eexists _, _, commits.
    split; [reflexivity|]. tauto.
  - unfold bind at 1. unfold bind at 1. rewrite HE. cbn [ret].
    exists []. split; [now rewrite !app_nil_r|]. split; [discriminate|reflexivity].
Qed.

Lemma settle_success (c : Consumer) (msg : message) (hist : list Event) :
  exists commits,
    settle env c msg None hist = (Ret tt, commits) /\
    Forall (fun e => isCommitOrSleep (km msg) e = true) commits /\
    (topic msg ∈ readers c -> exists r0 rest, commits = EvCommitMessages (km msg) r0 :: rest).
Proof.
  unfold settle. cbn [orb]. unfold bind at 1. cbn [ret].
  match goal with |- context [(if decide _ then _ else _) ?h] =>
    destruct (commit_tail c msg h) as (commits & Hc & Hall & Hin & _)
  end.
  rewrite Hc. exists commits. split; [reflexivity|]. tauto.
Qed.

(** The events after the loop never include a handler call or a backoff. *)
Lemma settle_tail (c : Consumer) (msg : message) (err : option error)
    (hist : list Event) :
  hook_quiet (hook c) ->
  Forall (fun e => isTailEvent (km msg) e = true) (snd (settle env c msg err hist)).
Proof.
  intros (_ & _ & HqE). unfold settle.
  assert (Hcommit : forall h,
    Forall (fun e => isTailEvent (km msg) e = true)
      (snd ((if match err with None => true | Some _ => false end || dlqConfigured c
             then if decide (topic msg ∈ readers c)
                  then _ <- commitWithRetry env (km msg) 3 ;; ret tt
                  else ret tt
             else ret tt) h))).
  { intros h. destruct (_ || _); [|constructor].
    destruct (commit_tail c msg h) as (commits & Hc & Hall & _).
    rewrite Hc. cbn [snd]. eapply Forall_impl; [exact Hall|].
    intros ev Hev. unfold isTailEvent. cbn beta in Hev. rewrite Hev. now rewrite orb_true_r. }
  apply bind_events; [|intros; apply Hcommit].
  destruct err as [e|]; [|constructor].
  apply bind_events.
  - eapply Forall_impl; [apply HqE|]. intros ev Hev. unfold isTailEvent.
    cbn beta in Hev. now rewrite Hev.
  - intros _ h. destruct (dlqConfigured c); [|constructor].
    unfold bind, history, WriteMessages, ret. cbn. repeat constructor.
Qed.

(** The events of one message: the lock, the loop, what follows a loop
    that ended by [break], the unlock. *)
Lemma handleMessage_events (fuel : nat) (c : Consumer) (msg : message) (hist : list Event) :
  topic msg ∈ handlers c ->
  let lock := EvLock (topic msg) (Partition (km msg)) in
  let loop := attemptLoop env fuel c msg 0 (hist ++ [lock]) in
  snd (handleMessage env fuel c msg hist) =
  lock :: snd loop
       ++ match fst loop with
          | Ret (Broke err) => snd (settle env c msg err ((hist ++ [lock]) ++ snd loop))
          | _ => []
          end
       ++ [EvUnlock (topic msg) (Partition (km msg))].
Proof.
  intros Hin lock loop. unfold handleMessage.
  destruct (decide (topic msg ∈ handlers c)); [|contradiction].
  rewrite try_events, bind_snd. cbn [emit fst snd app].
  f_equal. fold lock. rewrite deferred_snd, bind_snd. fold loop.
  cbn [emit snd]. rewrite <- app_assoc. f_equal. f_equal.
  destruct (fst loop) as [[err| |]|p]; try reflexivity.
  rewrite bind_snd. cbn [ret snd].
  destruct (fst (settle env c msg err ((hist ++ [lock]) ++ snd loop)));
    now rewrite app_nil_r.
Qed.

Lemma handleMessage_broke (fuel : nat) (c : Consumer) (msg : message) (hist : list Event)
    (err : option error) (evsL evsA : list Event) :
  topic msg ∈ handlers c ->
  let lock := EvLock (topic msg) (Partition (km msg)) in
  attemptLoop env fuel c msg 0 (hist ++ [lock]) = (Ret (Broke err), evsL) ->
  settle env c msg err ((hist ++ [lock]) ++ evsL) = (Ret tt, evsA) ->
  handleMessage env fuel c msg hist =
  (Ret (inl (Broke err)),
   lock :: evsL ++ evsA ++ [EvUnlock (topic msg) (Partition (km msg))]).
Proof.
  intros Hin lock HL HA. unfold handleMessage.
  destruct (decide (topic msg ∈ handlers c)); [|contradiction].
  unfold try, bind at 1, emit, deferred. fold lock.
  unfold bind at 1. rewrite HL. unfold bind at 1. rewrite HA. cbn.
  now rewrite ?app_nil_r, <- ?app_assoc.
Qed.

End MessageProofs.

Section MessageClaims.
Variable env : Env.

Definition isLoopEvent (e : Event) : bool :=
  isHookEvent e || isHandle e || isBackoff e.

(** The loop itself calls hooks, the handler and the backoff, nothing
    else. *)
Lemma attemptLoop_events (fuel : nat) (c : Consumer) (msg : message) (a : Z)
    (hist : list Event) :
  hook_quiet (hook c) ->
  Forall (fun e => isLoopEvent e = true) (snd (attemptLoop env fuel c msg a hist)).
Proof.
  intros (HqB & HqA & HqE).
  assert (Hhook : forall evs, Forall (fun e => isHookEvent e = true) evs ->
                              Forall (fun e => isLoopEvent e = true) evs).
  { intros evs Hevs. eapply Forall_impl; [exact Hevs|].
    intros e He. unfold isLoopEvent. cbn beta in He. now rewrite He. }
  revert a hist. induction fuel as [|fuel IH]; intros a hist; [constructor|].
  cbn [attemptLoop]. apply bind_events; [apply Hhook, HqB|].
  intros [[[hctx hmsg] hdata] [e|]] h1; [constructor|].
  apply bind_events; [cbn; repeat constructor|].
  intros err h2. apply bind_events; [apply Hhook, HqA|].
  intros _ h3. destruct err as [e|]; [|constructor].
  destruct (_ <? _)%Z; [constructor|].
  apply bind_events; [apply Hhook, HqE|].
  intros _ h4. apply bind_events; [rewrite backoffWithJitter_silent; constructor|].
  intros sleep h5. apply bind_events; [cbn; repeat constructor|].
  intros [|] h6; [constructor|apply IH].
Qed.


Lemma handleMessage_result (fuel : nat) (c : Consumer) (msg : message) (hist : list Event) :
  topic msg ∈ handlers c ->
  let lock := EvLock (topic msg) (Partition (km msg)) in
  let loop := attemptLoop env fuel c msg 0 (hist ++ [lock]) in
  fst (handleMessage env fuel c msg hist) =
  match fst loop with
  | Ret (Broke err) =>
      match fst (settle env c msg err ((hist ++ [lock]) ++ snd loop)) with
      | Ret _ => Ret (inl (Broke err))
      | Panic p => Ret (inr p)
      end
  | Ret exit => Ret (inl exit)
  | Panic p => Ret (inr p)
  end.
Proof.
  intros Hin lock loop. unfold handleMessage.
  destruct (decide (topic msg ∈ handlers c)); [|contradiction].
  unfold try. fold lock.
  match goal with |- fst (match ?m with _ => _ end) = _ =>
    assert (E : fst m = match fst loop with
                        | Ret (Broke err) =>
                            match fst (settle env c msg err ((hist ++ [lock]) ++ snd loop)) with
                            | Ret _ => Ret (Broke err)
                            | Panic p => Panic p
                            end
                        | Ret exit => Ret exit
                        | Panic p => Panic p
                        end);
    [|destruct m as [[x|p] es]; cbn [fst] in *;
      destruct (fst loop) as [[err| |]|q]; try congruence;
      destruct (fst (settle env c msg err ((hist ++ [lock]) ++ snd loop)));
      congruence]
  end.
  rewrite bind_fst. cbn [emit fst snd]. rewrite deferred_fst, bind_fst. fold loop.
  destruct (fst loop) as [[err| |]|q]; try reflexivity.
  rewrite bind_fst.
  destruct (fst (settle env c msg err ((hist ++ [lock]) ++ snd loop))); reflexivity.
Qed.



End MessageClaims.

(** *** The claims on the worker *)

Section WorkerClaims.
Variable env : Env.


End WorkerClaims.

Section HookErrorClaims.
Variable env : Env.

Lemma commits_counts (km : Message) (evs : list Event) :
  Forall (fun e => isCommitOrSleep km e = true) evs ->
  count isHandle evs = 0%nat /\ count isBackoff evs = 0%nat /\ count isWrite evs = 0%nat.
Proof.
  intros Hall. repeat split; (apply (count_none _ (isCommitOrSleep km)); [|exact Hall]);
    intros [] He; cbn in *; congruence.
Qed.

(** What C3 says of a message whose [BeforeHandle] fails: as many attempts
    as a failing handler gets, with the backoffs between them. *)
Definition retried_with_backoff (c : Consumer) (evs : list Event) : Prop :=
  Z.of_nat (count isBefore evs) = (RetryMax (cfg c) + 1)%Z /\
  Z.of_nat (count isBackoff evs) = RetryMax (cfg c).

Lemma bind_inv {A B} (m : M A) (f : A -> M B) (h : list Event) (b : B) (evs : list Event) :
  bind m f h = (Ret b, evs) ->
  exists a es es', m h = (Ret a, es) /\ f a (h ++ es) = (Ret b, es') /\ evs = es ++ es'.
Proof.
  unfold bind. destruct (m h) as [[a|p] es]; [|discriminate].
  destruct (f a (h ++ es)) as [r es'] eqn:Hf. intros [= -> <-]. exists a, es, es'. repeat split; reflexivity || assumption.
Qed.

Lemma bind_run {A B} (m : M A) (f : A -> M B) (h : list Event) (a : A) (es : list Event) :
  m h = (Ret a, es) ->
  bind m f h = (fst (f a (h ++ es)), es ++ snd (f a (h ++ es))).
Proof. intros Hm. unfold bind. rewrite Hm. now destruct (f a (h ++ es)). Qed.

(** A run of [k] iterations that goes on (the model's [OutOfFuel] after
    [k] steps) is the beginning of every longer run. *)
Lemma attemptLoop_resume (k fuel : nat) (c : Consumer) (msg : message) (a : Z)
    (h pre : list Event) :
  attemptLoop env k c msg a h = (Ret OutOfFuel, pre) ->
  attemptLoop env (k + fuel) c msg a h =
  (fst (attemptLoop env fuel c msg (a + Z.of_nat k) (h ++ pre)),
   pre ++ snd (attemptLoop env fuel c msg (a + Z.of_nat k) (h ++ pre))).
Proof.
  revert a h pre. induction k as [|k IH]; intros a h pre H.
  - cbn in H. injection H as <-. rewrite Z.add_0_r, app_nil_r. cbn [Nat.add app].
    now destruct (attemptLoop env fuel c msg a h).
  - cbn [attemptLoop Nat.add] in H |- *.
    apply bind_inv in H as ([[[hctx hmsg] hdata] berr] & es1 & pre1 & H1 & H & ->).
    rewrite (bind_run _ _ _ _ _ H1).
    destruct berr as [e|]; [cbn in H; discriminate|].
    apply bind_inv in H as (err & es2 & pre2 & H2 & H & ->).
    rewrite (bind_run _ _ _ _ _ H2).
    apply bind_inv in H as ([] & es3 & pre3 & H3 & H & ->).
    rewrite (bind_run _ _ _ _ _ H3).
    destruct err as [e|]; [|cbn in H; discriminate].
    destruct (RetryMax (cfg c) <? a + 1)%Z; [cbn in H; discriminate|].
    apply bind_inv in H as ([] & es4 & pre4 & H4 & H & ->).
    rewrite (bind_run _ _ _ _ _ H4).
    apply bind_inv in H as (sleep & es5 & pre5 & H5 & H & ->).
    rewrite (bind_run _ _ _ _ _ H5).
    apply bind_inv in H as (stop & es6 & pre6 & H6 & H & ->).
    rewrite (bind_run _ _ _ _ _ H6).
    destruct stop; [cbn in H; discriminate|].
    rewrite (IH _ _ _ H). cbn [fst snd].
    replace (a + Z.of_nat (S k))%Z with (a + 1 + Z.of_nat k)%Z by lia.
    rewrite <- !app_assoc. reflexivity.
Qed.


Lemma settle_error_panic (c : Consumer) (msg : message) (e : error) (hist : list Event)
    (p : string) :
  fst (OnError (hook c) Background (topic msg) (km msg) (data msg) e hist) = Panic p ->
  settle env c msg (Some e) hist =
  (Panic p, snd (OnError (hook c) Background (topic msg) (km msg) (data msg) e hist)).
Proof.
  intros HE. unfold settle.
  destruct (OnError (hook c) Background (topic msg) (km msg) (data msg) e hist)
    as [rE evsE] eqn:Hrun. cbn [fst snd] in *. subst rE.
  unfold bind at 1. unfold bind at 1. rewrite Hrun. reflexivity.
Qed.

Lemma handleMessage_settle_panic (fuel : nat) (c : Consumer) (msg : message)
    (hist : list Event) (err : option error) (evsL evsA : list Event) (p : string) :
  topic msg ∈ handlers c ->
  let lock := EvLock (topic msg) (Partition (km msg)) in
  attemptLoop env fuel c msg 0 (hist ++ [lock]) = (Ret (Broke err), evsL) ->
  settle env c msg err ((hist ++ [lock]) ++ evsL) = (Panic p, evsA) ->
  handleMessage env fuel c msg hist =
  (Ret (inr p), lock :: evsL ++ evsA ++ [EvUnlock (topic msg) (Partition (km msg))]).
Proof.
  intros Hin lock HL HA. unfold handleMessage.
  destruct (decide (topic msg ∈ handlers c)); [|contradiction].
  unfold try, bind at 1, emit, deferred. fold lock.
  unfold bind at 1. rewrite HL. unfold bind at 1. rewrite HA. cbn.
  now rewrite ?app_nil_r, <- ?app_assoc.
Qed.

(** C3, as the code has it.  Let the first [k] attempts have run and the
    loop gone on ([attemptLoop] cut after [k] iterations, with the calls
    [pre]), and let [BeforeHandle] return an error [e] in the attempt that
    follows.  Then the loop ends there with [e]: the calls of that attempt
    are those of [BeforeHandle] alone, no handler call and no backoff
    follows, and no further attempt.  The worker goes straight on to
    [OnError] with the original message.  When that returns, it writes the
    message to the DLQ if one is configured and then commits (the first
    call after the write, when the topic has a reader); without a DLQ it
    writes and commits nothing.  When [OnError] panics, the panic is
    recovered and nothing is written or committed.  The unlock comes last
    in every case. *)
Theorem hook_error_skips_retry (k fuel : nat) (c : Consumer) (msg : message)
    (hist pre : list Event) (t : Triple) (e : error) (evsB : list Event) :
  let lock := EvLock (topic msg) (Partition (km msg)) in
  let unlock := EvUnlock (topic msg) (Partition (km msg)) in
  let onError := OnError (hook c) Background (topic msg) (km msg) (data msg) e
                         (((hist ++ [lock]) ++ pre) ++ evsB) in
  topic msg ∈ handlers c ->
  attemptLoop env k c msg 0 (hist ++ [lock]) = (Ret OutOfFuel, pre) ->
  BeforeHandle (hook c) Background (topic msg) (km msg) (data msg) ((hist ++ [lock]) ++ pre)
    = (Ret (t, Some e), evsB) ->
  attemptLoop env (k + S fuel) c msg 0 (hist ++ [lock])
    = (Ret (Broke (Some e)), pre ++ evsB) /\
  (exists res tail,
     handleMessage env (k + S fuel) c msg hist =
     (Ret res, lock :: (pre ++ evsB) ++ (snd onError ++ tail) ++ [unlock]) /\
     match fst onError with
     | Panic p => res = inr p /\ tail = []
     | Ret _ =>
         res = inl (Broke (Some e)) /\
         if dlqConfigured c
         then exists now r commits,
                tail = EvWriteMessages (dlqMessage c msg now) r :: commits /\
                Forall (fun ev => isCommitOrSleep (km msg) ev = true) commits /\
                (topic msg ∈ readers c ->
                   exists r0 rest, commits = EvCommitMessages (km msg) r0 :: rest) /\
                (topic msg ∉ readers c -> commits = [])
         else tail = []
     end /\
     (hook_quiet (hook c) ->
        count isHandle (evsB ++ snd onError ++ tail) = 0%nat /\
        count isBackoff (evsB ++ snd onError ++ tail) = 0%nat)) /\
  (forall i, hook c = userHook env i ->
     snd onError = [EvOnError i Background (topic msg) (km msg) (data msg) e]) /\
  (forall (a : Z) (h : list Event) (t' : Triple) (e' : error) (evs : list Event),
     BeforeHandle (hook c) Background (topic msg) (km msg) (data msg) h
       = (Ret (t', Some e'), evs) ->
     attemptLoop env (S fuel) c msg a h = (Ret (Broke (Some e')), evs)).
Proof.
  intros lock unlock onError Hin Hpre HB.
  assert (Hloop : attemptLoop env (k + S fuel) c msg 0 (hist ++ [lock])
                  = (Ret (Broke (Some e)), pre ++ evsB)).
  { rewrite (attemptLoop_resume k (S fuel) c msg 0 _ _ Hpre).
    rewrite (attemptLoop_before_error env fuel c msg _ _ t e evsB HB). reflexivity. }
  split; [exact Hloop|].
  assert (Hh : (hist ++ [lock]) ++ pre ++ evsB = ((hist ++ [lock]) ++ pre) ++ evsB)
    by now rewrite app_assoc.
  assert (Eon : OnError (hook c) Background (topic msg) (km msg) (data msg) e
                        ((hist ++ [lock]) ++ pre ++ evsB) = onError)
    by (subst onError; now rewrite Hh).
  split; [|split].
  - assert (Hquiet : forall tail,
              hook_quiet (hook c) ->
              count isHandle tail = 0%nat -> count isBackoff tail = 0%nat ->
              count isHandle (evsB ++ snd onError ++ tail) = 0%nat /\
              count isBackoff (evsB ++ snd onError ++ tail) = 0%nat).
    { intros tail Hq Hh0 Hb0.
      assert (HqB : Forall (fun ev => isHookEvent ev = true) evsB).
      { destruct Hq as (HqB & _).
        specialize (HqB Background (topic msg) (km msg) (data msg) ((hist ++ [lock]) ++ pre)).
        now rewrite HB in HqB. }
      assert (HqE : Forall (fun ev => isHookEvent ev = true) (snd onError)).
      { destruct Hq as (_ & _ & HqE). apply HqE. }
      rewrite !count_app.
      rewrite (count_hook isHandle _ hook_not_handle HqB),
              (count_hook isHandle _ hook_not_handle HqE),
              (count_hook isBackoff _ hook_not_backoff HqB),
              (count_hook isBackoff _ hook_not_backoff HqE), Hh0, Hb0.
      split; reflexivity. }
    destruct (fst onError) as [[]|p] eqn:HfE.
    + destruct (settle_error env c msg e ((hist ++ [lock]) ++ pre ++ evsB))
        as (tail & Htail & Hyes & Hno); [rewrite Eon; exact HfE|].
      rewrite Eon in Htail.
      exists (inl (Broke (Some e))), tail.
      split; [exact (handleMessage_broke env _ c msg hist _ _ _ Hin Hloop Htail)|].
      destruct (dlqConfigured c) eqn:Hdlq.
      * destruct (Hyes eq_refl) as (now & res & commits & -> & Hcs & Hc1 & Hc0).
        split; [split; [reflexivity|]; exists now, res, commits; tauto|].
        intros Hq. destruct (commits_counts _ _ Hcs) as (Hhd & Hbk & _).
        apply Hquiet; [exact Hq| |]; cbn [count isHandle isBackoff Nat.add]; assumption.
      * rewrite (Hno eq_refl). split; [split; reflexivity|].
        intros Hq. now apply Hquiet.
    + pose proof (settle_error_panic c msg e ((hist ++ [lock]) ++ pre ++ evsB) p) as Hp.
      rewrite Eon in Hp. specialize (Hp HfE).
      exists (inr p), [].
      split; [rewrite app_nil_r;
              exact (handleMessage_settle_panic _ c msg hist _ _ _ p Hin Hloop Hp)|].
      split; [split; reflexivity|]. intros Hq. now apply Hquiet.
  - intros i Hi. subst onError. rewrite Hi. reflexivity.
  - intros a h t' e' evs. apply attemptLoop_before_error.
Qed.

End HookErrorClaims.

(** *** Runs on concrete collaborators *)

Section Runs.

(** Hook 7 refuses every message; the handler always fails; the DLQ write
    fails too; commits succeed. *)
Definition failingEnv : Env := {|
  hookBefore := fun i _ ctx _ km data =>
    if (i =? 7)%nat then Ret (ctx, km, data, Some (Err "invalid"))
    else Ret (ctx, km, data, None);
  hookAfter := fun _ _ _ _ _ _ _ => Ret tt;
  hookOnError := fun _ _ _ _ _ _ _ => Ret tt;
  handle := fun _ _ _ _ => Ret (Some (Err "boom"));
  stopDuring := fun _ _ => false;
  writeMessages := fun _ _ => Some (Err "dlq down");
  commitMessages := fun _ _ => None;
  rand63 := fun _ => 12345%Z;
  clock := fun _ => 99%Z |}.

(** A started consumer on topic "ticks". *)
Definition consumerOf (opts : list ConsumerOption) : Consumer :=
  match NewConsumer (WithConsumerBrokers ["broker:9092"] :: opts) with
  | inl c => Start (RegisterHandler c "ticks")
  | inr _ => mkConsumer defaultConfig ∅ ∅ false NoopHook
  end.

Definition tick : Message := mkMessage "ticks" 3 42 "BTC" "payload" [] 0.
Definition tickMsg : message := mkMsg "ticks" "payload" tick.

Definition withDLQ : Consumer :=
  consumerOf [WithConsumerRetry 2 (50 * Millisecond) (2 * Second); WithConsumerDLQ "ticks.dlq"].
Definition withoutDLQ : Consumer :=
  consumerOf [WithConsumerRetry 2 (50 * Millisecond) (2 * Second)].
Definition withRefusingHook : Consumer :=
  WithConsumerHook withDLQ (Some (HookChain (NewHookChain [Some (userHook failingEnv 7)]))).

Example messageWorker_dlq_run :
  handleMessage failingEnv 3 withDLQ tickMsg [] =
  (Ret (inl (Broke (Some (Err "boom")))),
   [EvLock "ticks" 3;
    EvHandle "ticks" [] "payload" (Ret (Some (Err "boom")));
    EvBackoff 49987655 false;
    EvHandle "ticks" [] "payload" (Ret (Some (Err "boom")));
    EvBackoff 99987655 false;
    EvHandle "ticks" [] "payload" (Ret (Some (Err "boom")));
    EvWriteMessages (mkMessage "ticks.dlq" 0 0 "" "payload"
                               [mkHeader "source_topic" "ticks"] 99)
                    (Some (Err "dlq down"));
    EvCommitMessages tick None;
    EvUnlock "ticks" 3]).
Proof. vm_compute. reflexivity. Qed.

Example messageWorker_no_dlq_run :
  handleMessage failingEnv 3 withoutDLQ tickMsg [] =
  (Ret (inl (Broke (Some (Err "boom")))),
   [EvLock "ticks" 3;
    EvHandle "ticks" [] "payload" (Ret (Some (Err "boom")));
    EvBackoff 49987655 false;
    EvHandle "ticks" [] "payload" (Ret (Some (Err "boom")));
    EvBackoff 99987655 false;
    EvHandle "ticks" [] "payload" (Ret (Some (Err "boom")));
    EvUnlock "ticks" 3]).
Proof. vm_compute. reflexivity. Qed.

(** With a backoff minimum of 1 ns the first backoff panics; the worker
    recovers, and the message is neither written to the DLQ nor
    committed. *)
Example messageWorker_backoff_panic_run :
  handleMessage failingEnv 3
    (consumerOf [WithConsumerRetry 2 1 1; WithConsumerDLQ "ticks.dlq"]) tickMsg [] =
  (Ret (inr "invalid argument to Int63n"%string),
   [EvLock "ticks" 3;
    EvHandle "ticks" [] "payload" (Ret (Some (Err "boom")));
    EvUnlock "ticks" 3]).
Proof. vm_compute. reflexivity. Qed.

Example hook_error_run :
  handleMessage failingEnv 3 withRefusingHook tickMsg [] =
  (Ret (inl (Broke (Some (Err "invalid")))),
   [EvLock "ticks" 3;
    EvBeforeHandle 7 [] "ticks" tick "payload" (Ret ([], tick, "payload", Some (Err "invalid")));
    EvOnError 7 [] "ticks" tick "payload" (Err "invalid");
    EvOnError 7 [] "ticks" tick "payload" (Err "invalid");
    EvWriteMessages (mkMessage "ticks.dlq" 0 0 "" "payload"
                               [mkHeader "source_topic" "ticks"] 99)
                    (Some (Err "dlq down"));
    EvCommitMessages tick None;
    EvUnlock "ticks" 3]).
Proof. vm_compute. reflexivity. Qed.

(** C3 fails on the code: with RetryMax = 2 and a chain whose hook refuses
    the message, [BeforeHandle] runs once and there is no backoff, where the
    claim has three attempts and two backoffs. *)
Lemma hook_error_not_retried :
  RetryMax (cfg withRefusingHook) = 2%Z /\
  count isBefore (snd (handleMessage failingEnv 3 withRefusingHook tickMsg [])) = 1%nat /\
  count isBackoff (snd (handleMessage failingEnv 3 withRefusingHook tickMsg [])) = 0%nat /\
  ~ retried_with_backoff withRefusingHook
      (snd (handleMessage failingEnv 3 withRefusingHook tickMsg [])).
Proof.
  rewrite hook_error_run. cbn [snd].
  split; [reflexivity|]. split; [reflexivity|]. split; [reflexivity|].
  intros [H _]. vm_compute in H. discriminate.
Qed.

End Runs.


(** Hook 7 lets a message through until its handler has been called, and
    refuses it from then on; the rest is as in [failingEnv]. *)
Definition secondTryEnv : Env := {|
  hookBefore := fun i h ctx _ km data =>
    if (i =? 7)%nat && (0 <? count isHandle h)%nat
    then Ret (ctx, km, data, Some (Err "invalid"))
    else Ret (ctx, km, data, None);
  hookAfter := fun _ _ _ _ _ _ _ => Ret tt;
  hookOnError := fun _ _ _ _ _ _ _ => Ret tt;
  handle := fun _ _ _ _ => Ret (Some (Err "boom"));
  stopDuring := fun _ _ => false;
  writeMessages := fun _ _ => Some (Err "dlq down");
  commitMessages := fun _ _ => None;
  rand63 := fun _ => 12345%Z;
  clock := fun _ => 99%Z |}.

Definition withLateRefusal : Consumer :=
  WithConsumerHook withDLQ (Some (userHook secondTryEnv 7)).

(** The first attempt of such a run: the handler fails and the loop goes
    on after the backoff. *)
Definition firstAttempt : list Event :=
  [EvBeforeHandle 7 [] "ticks" tick "payload" (Ret ([], tick, "payload", None));
   EvHandle "ticks" [] "payload" (Ret (Some (Err "boom")));
   EvAfterHandle 7 [] "ticks" tick "payload" (Some (Err "boom"));
   EvOnError 7 [] "ticks" tick "payload" (Err "boom");
   EvBackoff 49987655 false].

Example late_hook_error_run :
  handleMessage secondTryEnv 3 withLateRefusal tickMsg [] =
  (Ret (inl (Broke (Some (Err "invalid")))),
   EvLock "ticks" 3
     :: firstAttempt
     ++ [EvBeforeHandle 7 [] "ticks" tick "payload"
                        (Ret ([], tick, "payload", Some (Err "invalid")));
         EvOnError 7 [] "ticks" tick "payload" (Err "invalid");
         EvWriteMessages (mkMessage "ticks.dlq" 0 0 "" "payload"
                                    [mkHeader "source_topic" "ticks"] 99)
                         (Some (Err "dlq down"));
         EvCommitMessages tick None;
         EvUnlock "ticks" 3]).
Proof. vm_compute. reflexivity. Qed.

Lemma hook_error_skips_retry_witness :
  exists res tail,
    handleMessage secondTryEnv 3 withLateRefusal tickMsg [] =
    (Ret res,
     EvLock "ticks" 3
       :: (firstAttempt
           ++ [EvBeforeHandle 7 [] "ticks" tick "payload"
                              (Ret ([], tick, "payload", Some (Err "invalid")))])
       ++ ([EvOnError 7 [] "ticks" tick "payload" (Err "invalid")] ++ tail)
       ++ [EvUnlock "ticks" 3]) /\
    (res = inl (Broke (Some (Err "invalid"))) /\
     exists now r commits,
       tail = EvWriteMessages (dlqMessage withLateRefusal tickMsg now) r :: commits /\
       Forall (fun ev => isCommitOrSleep (km tickMsg) ev = true) commits /\
       (topic tickMsg ∈ readers withLateRefusal ->
          exists r0 rest, commits = EvCommitMessages (km tickMsg) r0 :: rest) /\
       (topic tickMsg ∉ readers withLateRefusal -> commits = [])) /\
    (hook_quiet (hook withLateRefusal) ->
       count isHandle
         ([EvBeforeHandle 7 [] "ticks" tick "payload"
                          (Ret ([], tick, "payload", Some (Err "invalid")))]
          ++ [EvOnError 7 [] "ticks" tick "payload" (Err "invalid")] ++ tail) = 0%nat /\
       count isBackoff
         ([EvBeforeHandle 7 [] "ticks" tick "payload"
                          (Ret ([], tick, "payload", Some (Err "invalid")))]
          ++ [EvOnError 7 [] "ticks" tick "payload" (Err "invalid")] ++ tail) = 0%nat).
Proof.
  refine (proj1 (proj2 (hook_error_skips_retry secondTryEnv 1 1 withLateRefusal tickMsg []
                          firstAttempt ([], tick, "payload"%string) (Err "invalid")
                          [EvBeforeHandle 7 [] "ticks" tick "payload"
                             (Ret ([], tick, "payload"%string, Some (Err "invalid")))]
                          _ _ _))).
  - apply (bool_decide_unpack _). vm_compute. exact I.
  - vm_compute. reflexivity.
  - vm_compute. reflexivity.
Defined.


(** *** More of the worker *)

(** The partition locks. *)

(** [c.partLocks]: the mutex of each (topic, partition) seen so far.  A
    [*sync.Mutex] is the number of the allocation that made it;
    [allocated] counts the mutexes made. *)
Record PartLocks := mkPartLocks {
  locks : gmap string (gmap Z nat);
  allocated : nat }.

(** [getPartitionLock], for one goroutine at a time: the map is read and
    written without a lock of its own. *)
Definition getPartitionLock (pl : PartLocks) (topic : string) (partition : Z)
    : nat * PartLocks :=
  match locks pl !! topic ≫= (fun m => m !! partition) with
  | Some l => (l, pl)
  | None =>
      let inner := default ∅ (locks pl !! topic) in
      match inner !! partition with
      | Some l => (l, mkPartLocks (<[topic := inner]> (locks pl)) (allocated pl))
      | None =>
          (allocated pl,
           mkPartLocks (<[topic := <[partition := allocated pl]> inner]> (locks pl))
                       (S (allocated pl)))
      end
  end.

(** [c.partLocks[topic][partition]], if there. *)
Definition lockOf (pl : PartLocks) (topic : string) (partition : Z) : option nat :=
  locks pl !! topic ≫= (fun m => m !! partition).

(** Every stored mutex was allocated, and no mutex is stored twice. *)
Definition locks_ok (pl : PartLocks) : Prop :=
  (forall t p l, lockOf pl t p = Some l -> (l < allocated pl)%nat) /\
  (forall t p t' p' l, lockOf pl t p = Some l -> lockOf pl t' p' = Some l ->
                       t = t' /\ p = p').

(** The mutex a worker locks for a message, if it handles the message,
    and over a run of messages. *)
Definition lockFor (pl : PartLocks) (c : Consumer) (msg : message)
    : option nat * PartLocks :=
  if decide (topic msg ∈ handlers c)
  then let '(l, pl') := getPartitionLock pl (topic msg) (Partition (km msg)) in (Some l, pl')
  else (None, pl).

Fixpoint locksTaken (pl : PartLocks) (c : Consumer) (msgs : list message)
    : list (option nat) :=
  match msgs with
  | [] => []
  | msg :: rest =>
      let '(l, pl') := lockFor pl c msg in l :: locksTaken pl' c rest
  end.

Fixpoint locksAfter (pl : PartLocks) (c : Consumer) (msgs : list message) : PartLocks :=
  match msgs with
  | [] => pl
  | msg :: rest => locksAfter (snd (lockFor pl c msg)) c rest
  end.

Lemma getPartitionLock_lockOf (pl : PartLocks) (topic : string) (partition : Z) :
  let '(l, pl') := getPartitionLock pl topic partition in
  match lockOf pl topic partition with
  | Some l0 => l = l0 /\ pl' = pl
  | None =>
      l = allocated pl /\ allocated pl' = S (allocated pl) /\
      forall t p, lockOf pl' t p =
                  if decide (t = topic /\ p = partition) then Some l else lockOf pl t p
  end.
Proof.
  unfold getPartitionLock, lockOf.
  destruct (locks pl !! topic ≫= (fun m => m !! partition)) as [l0|] eqn:Hfast; [tauto|].
  assert (Hin : default ∅ (locks pl !! topic) !! partition = None).
  { destruct (locks pl !! topic) as [m|]; cbn in *; [exact Hfast|apply lookup_empty]. }
  rewrite Hin. cbn [locks allocated]. split; [reflexivity|]. split; [reflexivity|].
  intros t p. destruct (decide (t = topic)) as [->|Ht].
  - rewrite lookup_insert_eq. cbn.
    destruct (decide (p = partition)) as [->|Hp].
    + rewrite lookup_insert_eq. destruct (decide _) as [_|Hn]; [reflexivity|tauto].
    + rewrite lookup_insert_ne by congruence.
      destruct (decide _) as [[_ ?]|_]; [contradiction|].
      destruct (locks pl !! topic) as [m|]; cbn; [reflexivity|apply lookup_empty].
  - rewrite lookup_insert_ne by congruence.
    destruct (decide _) as [[? _]|_]; [contradiction|reflexivity].
Qed.

(** A call returns the stored mutex, making it first when there is none;
    what was stored stays, and the map stays well formed. *)
Lemma getPartitionLock_spec (pl : PartLocks) (topic : string) (partition : Z) :
  locks_ok pl ->
  let '(l, pl') := getPartitionLock pl topic partition in
  locks_ok pl' /\ lockOf pl' topic partition = Some l /\
  (forall t p l', lockOf pl t p = Some l' -> lockOf pl' t p = Some l').
Proof.
  intros [Hlt Hinj]. pose proof (getPartitionLock_lockOf pl topic partition) as H.
  destruct (getPartitionLock pl topic partition) as [l pl'].
  destruct (lockOf pl topic partition) as [l0|] eqn:Hl.
  - destruct H as [-> ->]. split; [split; assumption|]. split; [exact Hl|auto].
  - destruct H as (-> & Hal & Hnew).
    assert (Hkeep : forall t p l', lockOf pl t p = Some l' -> lockOf pl' t p = Some l').
    { intros t p l' Hold. rewrite Hnew.
      destruct (decide _) as [[-> ->]|_]; [congruence|exact Hold]. }
    split; [|split; [|exact Hkeep]].
    + split.
      * intros t p l'. rewrite Hnew, Hal.
        destruct (decide _) as [_|_]; [intros [= <-]; lia|].
        intros Hold. specialize (Hlt _ _ _ Hold). lia.
      * intros t p t' p' l'. rewrite !Hnew.
        destruct (decide (t = topic /\ p = partition)) as [[-> ->]|_];
          destruct (decide (t' = topic /\ p' = partition)) as [[-> ->]|_].
        -- tauto.
        -- intros [= <-] Hold. specialize (Hlt _ _ _ Hold). lia.
        -- intros Hold [= <-]. specialize (Hlt _ _ _ Hold). lia.
        -- apply Hinj.
    + rewrite Hnew. destruct (decide _) as [_|Hn]; [reflexivity|tauto].
Qed.

Lemma lockFor_spec (pl : PartLocks) (c : Consumer) (msg : message) :
  locks_ok pl ->
  locks_ok (snd (lockFor pl c msg)) /\
  (forall t p l', lockOf pl t p = Some l' -> lockOf (snd (lockFor pl c msg)) t p = Some l') /\
  (forall l, fst (lockFor pl c msg) = Some l ->
     lockOf (snd (lockFor pl c msg)) (topic msg) (Partition (km msg)) = Some l).
Proof.
  intros Hok. unfold lockFor. destruct (decide (topic msg ∈ handlers c)).
  - pose proof (getPartitionLock_spec pl (topic msg) (Partition (km msg)) Hok) as H.
    destruct (getPartitionLock pl (topic msg) (Partition (km msg))) as [l pl'].
    cbn [fst snd]. destruct H as (H1 & H2 & H3).
    split; [exact H1|]. split; [exact H3|]. intros l0 [= <-]. exact H2.
  - cbn [fst snd]. split; [exact Hok|]. split; [auto|discriminate].
Qed.

Lemma locksAfter_spec (msgs : list message) (pl : PartLocks) (c : Consumer) :
  locks_ok pl ->
  locks_ok (locksAfter pl c msgs) /\
  (forall t p l, lockOf pl t p = Some l -> lockOf (locksAfter pl c msgs) t p = Some l) /\
  (forall i msg l,
     msgs !! i = Some msg -> locksTaken pl c msgs !! i = Some (Some l) ->
     lockOf (locksAfter pl c msgs) (topic msg) (Partition (km msg)) = Some l).
Proof.
  revert pl. induction msgs as [|m msgs IH]; intros pl Hok.
  - cbn. split; [exact Hok|]. split; [auto|]. intros i msg l Hi. now destruct i.
  - cbn [locksAfter locksTaken].
    destruct (lockFor_spec pl c m Hok) as (Hok1 & Hkeep1 & Hnew1).
    destruct (lockFor pl c m) as [l0 pl1] eqn:Hf. cbn [fst snd] in *.
    destruct (IH pl1 Hok1) as (Hok2 & Hkeep2 & Hnew2).
    split; [exact Hok2|]. split; [auto|].
    intros [|i] msg l Hi Hl; cbn in Hi, Hl.
    + injection Hi as <-. injection Hl as ->. apply Hkeep2, Hnew1. reflexivity.
    + eapply Hnew2; eassumption.
Qed.

Section WorkerExtras.
Variable env : Env.

Definition isLock (e : Event) : bool :=
  match e with EvLock _ _ | EvUnlock _ _ => true | _ => false end.

Lemma loop_not_lock (e : Event) : isLoopEvent e = true -> isLock e = false.
Proof. destruct e; cbn; congruence. Qed.

Lemma tail_not_lock (km : Message) (e : Event) : isTailEvent km e = true -> isLock e = false.
Proof. destruct e; cbn; congruence. Qed.

Lemma loop_not_write (e : Event) : isLoopEvent e = true -> isWrite e = false.
Proof. destruct e; cbn; congruence. Qed.

Lemma loop_not_commit (e : Event) : isLoopEvent e = true -> isCommit e = false.
Proof. destruct e; cbn; congruence. Qed.

Lemma handleMessage_returns (fuel : nat) (c : Consumer) (msg : message) (hist : list Event) :
  exists r, fst (handleMessage env fuel c msg hist) = Ret r.
Proof.
  destruct (decide (topic msg ∈ handlers c)) as [Hin|Hnin].
  - rewrite (handleMessage_result env fuel c msg hist Hin). cbn zeta.
    destruct (fst (attemptLoop env fuel c msg 0 _)) as [[err| |]|p]; eauto.
    destruct (fst (settle env c msg err _)); eauto.
  - unfold handleMessage. destruct (decide (topic msg ∈ handlers c)); [contradiction|].
    cbn. eauto.
Qed.

Lemma messageWorker_returns (fuel : nat) (c : Consumer) (msgs : list message)
    (hist : list Event) :
  fst (messageWorker env fuel c msgs hist) = Ret tt.
Proof.
  revert hist. induction msgs as [|msg msgs IH]; intros hist; [reflexivity|].
  cbn [messageWorker]. rewrite bind_fst.
  destruct (handleMessage_returns fuel c msg hist) as [r ->]. apply IH.
Qed.

Lemma handleMessage_ends (fuel : nat) (c : Consumer) (msg : message) (hist : list Event) :
  (Z.max 1 (RetryMax (cfg c) + 1) <= Z.of_nat fuel)%Z ->
  exists r, fst (handleMessage env fuel c msg hist) = Ret r /\ r <> inl OutOfFuel.
Proof.
  intros Hfuel. destruct (decide (topic msg ∈ handlers c)) as [Hin|Hnin].
  - rewrite (handleMessage_result env fuel c msg hist Hin). cbn zeta.
    pose proof (attemptLoop_ends env fuel c msg 0
                  (hist ++ [EvLock (topic msg) (Partition (km msg))])) as Hend.
    destruct (fst (attemptLoop env fuel c msg 0 _)) as [[err| |]|p].
    + destruct (fst (settle env c msg err _)); eexists; (split; [reflexivity|discriminate]).
    + eexists; split; [reflexivity|discriminate].
    + exfalso. apply Hend; [lia|reflexivity].
    + eexists; split; [reflexivity|discriminate].
  - unfold handleMessage. destruct (decide (topic msg ∈ handlers c)); [contradiction|].
    cbn. eexists; split; [reflexivity|discriminate].
Qed.

(** X23. A worker running alone (one goroutine, the default) gets
    through every message: whatever the hooks, the handler, the DLQ
    writer and the reader do, a panic included, the body for one message
    comes to its end, and so does the loop over any number of messages.
    A message for a registered topic is handled between one lock and one
    unlock, the unlock coming last even after a panic; the mutex is the
    one [getPartitionLock] keeps for the topic and partition: the same
    for two messages of one partition, another for another partition.  A
    message for a topic without handler is dropped with no call at all,
    so it is not committed either. *)
Theorem worker_survives (fuel : nat) (c : Consumer) (msg : message) (hist : list Event) :
  (Z.max 1 (RetryMax (cfg c) + 1) <= Z.of_nat fuel)%Z ->
  (exists r, fst (handleMessage env fuel c msg hist) = Ret r /\ r <> inl OutOfFuel) /\
  (forall msgs, fst (messageWorker env fuel c msgs hist) = Ret tt) /\
  (topic msg ∈ handlers c ->
   exists mid,
     snd (handleMessage env fuel c msg hist) =
     EvLock (topic msg) (Partition (km msg)) :: mid
       ++ [EvUnlock (topic msg) (Partition (km msg))] /\
     (hook_quiet (hook c) -> count isLock mid = 0%nat)) /\
  (topic msg ∉ handlers c ->
   handleMessage env fuel c msg hist = (Ret (inl (Broke None)), [])) /\
  (locks_ok (mkPartLocks ∅ 0) /\
   forall (pl : PartLocks) (msgs : list message) (i j : nat) (mi mj : message)
          (li lj : nat),
     locks_ok pl ->
     msgs !! i = Some mi -> msgs !! j = Some mj ->
     locksTaken pl c msgs !! i = Some (Some li) ->
     locksTaken pl c msgs !! j = Some (Some lj) ->
     (li = lj <-> topic mi = topic mj /\ Partition (km mi) = Partition (km mj))).
Proof.
  intros Hfuel.
  split; [apply handleMessage_ends; exact Hfuel|].
  split; [intros msgs; apply messageWorker_returns|].
  split; [|split].
  - intros Hin. rewrite (handleMessage_events env fuel c msg hist Hin). cbn zeta.
    set (lock := EvLock (topic msg) (Partition (km msg))).
    set (loop := attemptLoop env fuel c msg 0 (hist ++ [lock])).
    eexists. split; [rewrite app_assoc; reflexivity|].
    intros Hq. rewrite count_app.
    rewrite (count_none isLock isLoopEvent (snd loop) loop_not_lock)
      by (apply attemptLoop_events; exact Hq).
    destruct (fst loop) as [[err| |]|p]; try reflexivity.
    cbn [Nat.add]. apply (count_none isLock (isTailEvent (km msg)) _ (tail_not_lock (km msg))).
    apply settle_tail. exact Hq.
  - intros Hnin. unfold handleMessage.
    destruct (decide (topic msg ∈ handlers c)); [contradiction|reflexivity].
  - split.
    + split.
      * intros t p l. unfold lockOf. cbn. rewrite lookup_empty. discriminate.
      * intros t p t' p' l. unfold lockOf. cbn. rewrite lookup_empty. discriminate.
    + intros pl msgs i j mi mj li lj Hok Hi Hj Hli Hlj.
      destruct (locksAfter_spec msgs pl c Hok) as ((_ & Hinj) & _ & Hat).
      pose proof (Hat i mi li Hi Hli) as Hi'.
      pose proof (Hat j mj lj Hj Hlj) as Hj'.
      split.
      * intros <-. exact (Hinj _ _ _ _ _ Hi' Hj').
      * intros [Ht Hp]. rewrite Ht, Hp in Hi'. congruence.
Qed.

Lemma commits_not_commit_free (km : Message) (r0 : option error) (rest : list Event) :
  (1 <= count isCommit (EvCommitMessages km r0 :: rest))%nat.
Proof. cbn. lia. Qed.

Lemma tail_not_loop_counts (km : Message) (evs : list Event) :
  Forall (fun e => isCommitOrSleep km e = true) evs -> count isWrite evs = 0%nat.
Proof. intros H. now destruct (commits_counts km evs H) as (_ & _ & ?). Qed.

(** X24. How the retry loop ends decides what happens to the message.
    If the handler succeeded, at whichever attempt, nothing is written to
    the DLQ and the offset is committed when the topic has a reader (and
    not otherwise).  If the stop signal cut a backoff short, the worker
    leaves the message as it is: no DLQ write and no commit. *)
Theorem outcome_decides_commit (fuel : nat) (c : Consumer) (msg : message)
    (hist : list Event) :
  topic msg ∈ handlers c -> hook_quiet (hook c) ->
  let '(r, evs) := handleMessage env fuel c msg hist in
  (r = Ret (inl (Broke None)) ->
     count isWrite evs = 0%nat /\
     (topic msg ∈ readers c -> (1 <= count isCommit evs)%nat)) /\
  (r = Ret (inl Stopped) ->
     count isWrite evs = 0%nat /\ count isCommit evs = 0%nat).
Proof.
  intros Hin Hq.
  pose proof (handleMessage_result env fuel c msg hist Hin) as Hres.
  pose proof (handleMessage_events env fuel c msg hist Hin) as Hevs.
  cbn zeta in Hres, Hevs.
  set (lock := EvLock (topic msg) (Partition (km msg))) in *.
  set (loop := attemptLoop env fuel c msg 0 (hist ++ [lock])) in *.
  pose proof (attemptLoop_events env fuel c msg 0 (hist ++ [lock]) Hq) as Hloop.
  fold loop in Hloop.
  destruct (handleMessage env fuel c msg hist) as [r evs]. cbn [fst snd] in *.
  subst r evs.
  assert (Hlw : count isWrite (snd loop) = 0%nat)
    by (apply (count_none isWrite isLoopEvent _ loop_not_write Hloop)).
  assert (Hlc : count isCommit (snd loop) = 0%nat)
    by (apply (count_none isCommit isLoopEvent _ loop_not_commit Hloop)).
  split.
  - intros Hr. destruct (fst loop) as [[[e|]| |]|p]; try discriminate.
    + destruct (fst (settle env c msg (Some e) _)); discriminate.
    + destruct (settle_success env c msg ((hist ++ [lock]) ++ snd loop))
        as (commits & Hs & Hall & Hfirst).
      rewrite Hs. cbn [snd]. split.
      * cbn [count isWrite]. rewrite !count_app, Hlw.
        rewrite (tail_not_loop_counts _ _ Hall). reflexivity.
      * intros Hreader. destruct (Hfirst Hreader) as (r0 & rest & ->).
        cbn [count isCommit]. rewrite !count_app. cbn. lia.
  - intros Hr. destruct (fst loop) as [[err| |]|p]; try discriminate.
    + destruct (fst (settle env c msg err _)); discriminate.
    + cbn [count isWrite isCommit]. rewrite !count_app, Hlw, Hlc. split; reflexivity.
Qed.

(** X25. A handler that panics is not retried.  Under the default hook,
    when the first call of the handler panics, the worker recovers the
    panic and is done with the message: one handler call, no backoff, no
    error hook, no DLQ write, no commit, and the partition lock
    released. *)
Theorem handler_panic_abandons (fuel : nat) (c : Consumer) (msg : message)
    (hist : list Event) (p : string) :
  topic msg ∈ handlers c -> hook c = NoopHook ->
  handle env (topic msg) (hist ++ [EvLock (topic msg) (Partition (km msg))])
         Background (data msg) = Panic p ->
  handleMessage env (S fuel) c msg hist =
  (Ret (inr p),
   [EvLock (topic msg) (Partition (km msg));
    EvHandle (topic msg) Background (data msg) (Panic p);
    EvUnlock (topic msg) (Partition (km msg))]).
Proof.
  intros Hin Hhook Hpanic. unfold handleMessage.
  destruct (decide (topic msg ∈ handlers c)); [|contradiction].
  unfold try, bind at 1, emit, deferred. cbn [app].
  set (h1 := hist ++ [EvLock _ _]) in *.
  assert (Hloop : attemptLoop env (S fuel) c msg 0 h1 =
                  (Panic p, [EvHandle (topic msg) Background (data msg) (Panic p)])).
  { cbn [attemptLoop]. rewrite Hhook. cbn [BeforeHandle NoopHook].
    unfold bind at 1, ret. cbn [app]. rewrite app_nil_r.
    unfold bind at 1, Handle. rewrite Hpanic. reflexivity. }
  unfold bind at 1. rewrite Hloop. reflexivity.
Qed.

End WorkerExtras.

Section BackoffExtras.
Variable env : Env.

(** The minimum and maximum [backoffWithJitter] works with, after its two
    corrections. *)
Definition backoffFloor (min : Duration) : Duration :=
  if (min <=? 0)%Z then (50 * Millisecond)%Z else min.

Definition backoffCeiling (min max : Duration) : Duration :=
  if (max <? backoffFloor min)%Z then backoffFloor min else max.

Lemma backoffBase_corrected (min max : Duration) (attempt : Z) :
  backoffBase min max attempt =
  backoffBase (backoffFloor min) (backoffCeiling min max) attempt.
Proof.
  assert (H1 : forall m M,
             backoffBase m M attempt =
             (let exp := wrap64 (backoffFloor m * shl1 (attempt - 1)) in
              if (backoffCeiling m M <? exp)%Z then backoffCeiling m M else exp))
    by reflexivity.
  assert (Hpos : (0 < backoffFloor min)%Z).
  { unfold backoffFloor. destruct (Z.leb_spec min 0); [reflexivity|lia]. }
  assert (Hf : backoffFloor (backoffFloor min) = backoffFloor min).
  { unfold backoffFloor at 1. destruct (Z.leb_spec (backoffFloor min) 0); [lia|reflexivity]. }
  assert (Hge : (backoffFloor min <= backoffCeiling min max)%Z).
  { unfold backoffCeiling. destruct (Z.ltb_spec max (backoffFloor min)); lia. }
  assert (Hc : backoffCeiling (backoffFloor min) (backoffCeiling min max) =
               backoffCeiling min max).
  { unfold backoffCeiling at 1. rewrite Hf.
    destruct (Z.ltb_spec (backoffCeiling min max) (backoffFloor min)); [lia|reflexivity]. }
  rewrite (H1 min max), (H1 (backoffFloor min) (backoffCeiling min max)), Hf, Hc.
  reflexivity.
Qed.

(** X26. Where the product does not overflow, [backoffWithJitter] returns
    and its result is the exponential backoff less a jitter of under half
    of it.  With [lo] the minimum (50 ms when the given one is not
    positive) and [hi] the maximum (raised to [lo] when below it), for
    [lo] of at least 2 ns, an attempt of at least 1 and
    [lo * 2^(attempt-1)] below 2^63: the result [d] satisfies
    [e / 2 < d <= e] for [e = min(lo * 2^(attempt-1), hi)], so it is
    positive, at most [hi] and more than [lo / 2]. *)
Theorem backoffWithJitter_bounds (min max : Duration) (attempt : Z) (hist : list Event) :
  let lo := backoffFloor min in
  let hi := backoffCeiling min max in
  (2 <= lo)%Z -> (1 <= attempt)%Z -> (lo * 2 ^ (attempt - 1) < 2 ^ 63)%Z ->
  exists d,
    backoffWithJitter env min max attempt hist = (Ret d, []) /\
    let e := Z.min (lo * 2 ^ (attempt - 1)) hi in
    (e < 2 * d)%Z /\ (d <= e)%Z /\ (0 < d <= hi)%Z /\ (lo < 2 * d)%Z.
Proof.
  intros lo hi Hlo Ha Hno.
  assert (Hhi : (lo <= hi)%Z).
  { unfold hi, backoffCeiling. fold lo. destruct (Z.ltb_spec max lo); lia. }
  destruct (backoffWithJitter_in_range env lo hi attempt hist ltac:(lia) Ha Hno)
    as (j & Hj & Hrun & Hmax & Hmin). cbv zeta in Hj, Hrun.
  exists (Z.min (lo * 2 ^ (attempt - 1)) hi - j)%Z. split.
  - unfold backoffWithJitter in *. rewrite backoffBase_corrected. exact Hrun.
  - cbv zeta. set (e := Z.min (lo * 2 ^ (attempt - 1)) hi) in *.
    assert (Hq : (2 * Z.quot e 2 <= e)%Z).
    { assert (0 <= e)%Z by (unfold e; nia).
      rewrite Z.quot_div_nonneg by lia. apply Z.mul_div_le. lia. }
    lia.
Qed.

(** *** commitWithRetry *)

(** The calls of [k] failed attempts: each commit that failed and the
    sleep after it. *)
Fixpoint commitTrace (km : Message) (fails : list (error * Duration)) : list Event :=
  match fails with
  | [] => []
  | (e, d) :: rest => EvCommitMessages km (Some e) :: EvSleep d :: commitTrace km rest
  end.

(** The sleep after attempt [attempt], [attempt + 1], ...: more than half
    of, and at most, min(50 ms * 2^(attempt-1), 500 ms). *)
Fixpoint sleepsFrom (attempt : Z) (fails : list (error * Duration)) : Prop :=
  match fails with
  | [] => True
  | (_, d) :: rest =>
      (let e := Z.min (50 * Millisecond * 2 ^ (attempt - 1)) (500 * Millisecond) in
       (e < 2 * d)%Z /\ (d <= e)%Z) /\
      sleepsFrom (attempt + 1) rest
  end.

Definition lastError (err : option error) (fails : list (error * Duration)) : option error :=
  fold_left (fun _ f => Some (fst f)) fails err.

Lemma commitLoop_ok (n : nat) (km : Message) (attempt : Z) (err : option error)
    (hist : list Event) :
  commitMessages env hist km = None ->
  commitLoop env (S n) km attempt err hist = (Ret None, [EvCommitMessages km None]).
Proof.
  intros Hc. cbn [commitLoop]. unfold bind at 1. unfold CommitMessages at 1.
  rewrite Hc. reflexivity.
Qed.

Lemma commitLoop_fail (n : nat) (km : Message) (attempt : Z) (err : option error)
    (hist : list Event) (e : error) (d : Duration) :
  commitMessages env hist km = Some e ->
  backoffWithJitter env (50 * Millisecond) (500 * Millisecond) attempt
    (hist ++ [EvCommitMessages km (Some e)]) = (Ret d, []) ->
  commitLoop env (S n) km attempt err hist =
  (fst (commitLoop env n km (attempt + 1) (Some e)
          ((hist ++ [EvCommitMessages km (Some e)]) ++ [EvSleep d])),
   EvCommitMessages km (Some e) :: EvSleep d ::
     snd (commitLoop env n km (attempt + 1) (Some e)
            ((hist ++ [EvCommitMessages km (Some e)]) ++ [EvSleep d]))).
Proof.
  intros Hc Hb. cbn [commitLoop]. unfold bind at 1. unfold CommitMessages at 1.
  rewrite Hc. unfold bind at 1. rewrite Hb.
  unfold bind at 1. unfold Sleep, emit. cbn [app]. rewrite app_nil_r.
  destruct (commitLoop env n km (attempt + 1) (Some e) _) as [r evs]. reflexivity.
Qed.

Lemma commitLoop_trace (n : nat) (km : Message) (attempt : Z) (err : option error)
    (hist : list Event) :
  (1 <= attempt)%Z -> (attempt + Z.of_nat n <= 39)%Z ->
  exists fails,
    sleepsFrom attempt fails /\
    (((length fails < n)%nat /\
      commitLoop env n km attempt err hist =
      (Ret None, commitTrace km fails ++ [EvCommitMessages km None])) \/
     (length fails = n /\
      commitLoop env n km attempt err hist =
      (Ret (lastError err fails), commitTrace km fails))).
Proof.
  revert attempt err hist. induction n as [|n IH]; intros attempt err hist Ha Hn.
  - exists []. split; [exact I|]. right. split; reflexivity.
  - destruct (commitMessages env hist km) as [e|] eqn:Hc.
    + assert (Hno : (50 * Millisecond * 2 ^ (attempt - 1) < 2 ^ 63)%Z).
      { assert (Hp : (2 ^ (attempt - 1) <= 2 ^ 37)%Z) by (apply Z.pow_le_mono_r; lia).
        assert (H37 : (50 * Millisecond * 2 ^ 37 < 2 ^ 63)%Z) by (vm_compute; reflexivity).
        unfold Millisecond in *. nia. }
      destruct (backoffWithJitter_in_range env (50 * Millisecond) (500 * Millisecond)
                  attempt (hist ++ [EvCommitMessages km (Some e)]))
        as (j & Hj & Hb & Hmax & Hmin);
        [unfold Millisecond; lia|exact Ha|exact Hno|].
      cbv zeta in Hj, Hb.
      set (b := Z.min (50 * Millisecond * 2 ^ (attempt - 1)) (500 * Millisecond)) in *.
      rewrite (commitLoop_fail n km attempt err hist e (b - j)%Z Hc Hb).
      destruct (IH (attempt + 1)%Z (Some e)
                  ((hist ++ [EvCommitMessages km (Some e)]) ++ [EvSleep (b - j)]))
        as (fails & Hsl & Hrun); [lia|lia|].
      exists ((e, (b - j)%Z) :: fails). split.
      * cbn [sleepsFrom]. split; [|exact Hsl]. fold b.
        assert (Hq : (2 * Z.quot b 2 <= b)%Z).
        { assert (0 <= b)%Z by (unfold b, Millisecond in *; nia).
          rewrite Z.quot_div_nonneg by lia. apply Z.mul_div_le. lia. }
        lia.
      * destruct Hrun as [[Hlen Hrun]|[Hlen Hrun]]; rewrite Hrun.
        -- left. split; [cbn [length]; lia|reflexivity].
        -- right. split; [cbn [length]; lia|reflexivity].
    + rewrite (commitLoop_ok n km attempt err hist Hc).
      exists []. split; [exact I|]. left. split; [cbn; lia|reflexivity].
Qed.

(** X27. [commitWithRetry] commits at most [max] times (once when [max]
    is not positive) and stops at the first commit that succeeds,
    returning nil.  Every failed commit, the last one included, is
    followed by a sleep of more than half of, and at most,
    min(50 ms * 2^(attempt-1), 500 ms); when all [max] commits fail the
    last error is returned.  This holds for [max] up to 38, where the
    backoff cannot overflow. *)
Theorem commitWithRetry_spec (km : Message) (max : Z) (hist : list Event) :
  let tries := Z.to_nat (if (max <=? 0)%Z then 1 else max) in
  (max <= 38)%Z ->
  exists fails,
    sleepsFrom 1 fails /\
    (((length fails < tries)%nat /\
      commitWithRetry env km max hist =
      (Ret None, commitTrace km fails ++ [EvCommitMessages km None])) \/
     (length fails = tries /\
      exists e d, List.last fails (e, d) = (e, d) /\
      commitWithRetry env km max hist = (Ret (Some e), commitTrace km fails))).
Proof.
  intros tries Hmax. unfold commitWithRetry. fold tries.
  assert (Ht : (1 <= tries)%nat /\ (Z.of_nat tries <= 38)%Z).
  { unfold tries. destruct (Z.leb_spec max 0); lia. }
  destruct (commitLoop_trace tries km 1 None hist) as (fails & Hsl & Hrun); [lia|lia|].
  exists fails. split; [exact Hsl|].
  destruct Hrun as [[Hlen Hrun]|[Hlen Hrun]]; [left; auto|]. right. split; [exact Hlen|].
  destruct fails as [|f fails] using rev_ind; [cbn in Hlen; lia|].
  destruct f as [e d]. exists e, d. split; [apply last_last|].
  rewrite Hrun. unfold lastError. rewrite fold_left_app. reflexivity.
Qed.

End BackoffExtras.

Lemma backoffWithJitter_bounds_witness :
  exists d,
    backoffWithJitter failingEnv 0 0 3 [] = (Ret d, []) /\
    let e := Z.min (backoffFloor 0 * 2 ^ (3 - 1)) (backoffCeiling 0 0) in
    (e < 2 * d)%Z /\ (d <= e)%Z /\ (0 < d <= backoffCeiling 0 0)%Z /\
    (backoffFloor 0 < 2 * d)%Z.
Proof.
  apply (backoffWithJitter_bounds failingEnv 0 0 3 []); vm_compute; [discriminate|discriminate|reflexivity].
Defined.

Lemma commitWithRetry_spec_witness :
  exists fails,
    sleepsFrom 1 fails /\
    (((length fails < Z.to_nat (if (3 <=? 0)%Z then 1 else 3))%nat /\
      commitWithRetry failingEnv tick 3 [] =
      (Ret None, commitTrace tick fails ++ [EvCommitMessages tick None])) \/
     (length fails = Z.to_nat (if (3 <=? 0)%Z then 1 else 3) /\
      exists e d, List.last fails (e, d) = (e, d) /\
      commitWithRetry failingEnv tick 3 [] = (Ret (Some e), commitTrace tick fails))).
Proof. apply (commitWithRetry_spec failingEnv tick 3 []). vm_compute. discriminate. Defined.

Section ChainExtras.
Variable env : Env.

Definition isOnError (e : Event) : bool :=
  match e with EvOnError _ _ _ _ _ _ => true | _ => false end.

Lemma threaded_no_error (topic : string) (ids : list nat) (cur fin : Triple)
    (evs : list Event) :
  threaded topic ids cur evs fin -> count isOnError evs = 0%nat.
Proof.
  induction 1 as [|i ids cur next fin evs _ IH]; [reflexivity|].
  destruct cur as [[ctx km] data]. cbn. exact IH.
Qed.

Lemma errorEvents_count (ids : list nat) (topic : string) (t : Triple) (e : error) :
  count isOnError (errorEvents ids topic t e) = length ids.
Proof.
  destruct t as [[ctx km] data]. unfold errorEvents.
  induction ids as [|i ids IH]; [reflexivity|]. cbn. now rewrite IH.
Qed.

Lemma errorEvents_no_handle (ids : list nat) (topic : string) (t : Triple) (e : error) :
  count isHandle (errorEvents ids topic t e) = 0%nat.
Proof.
  destruct t as [[ctx km] data]. unfold errorEvents.
  induction ids as [|i ids IH]; [reflexivity|]. cbn. exact IH.
Qed.

Lemma commits_no_error (km : Message) (evs : list Event) :
  Forall (fun e => isCommitOrSleep km e = true) evs -> count isOnError evs = 0%nat.
Proof.
  apply count_none. intros e. destruct e; cbn; congruence.
Qed.

(** X28. With a hook chain installed, a message that one of its hooks
    refuses has the error reported twice to every hook of the chain: the
    chain calls [OnError] of each hook with what the refusing hook was
    given, and the worker then calls [OnError] of the chain, which calls
    each hook again, with the original message.  The handler is not
    called; the DLQ write and the commit follow as configured. *)
Theorem chain_error_notified_twice (fuel : nat) (c : Consumer) (msg : message)
    (hist : list Event) (hs : list (option nat)) (t : Triple) (e : error)
    (evsB : list Event) :
  topic msg ∈ handlers c ->
  hook c = chainOf env hs ->
  BeforeHandle (hook c) Background (topic msg) (km msg) (data msg)
               (hist ++ [EvLock (topic msg) (Partition (km msg))])
    = (Ret (t, Some e), evsB) ->
  exists pre tail,
    handleMessage env (S fuel) c msg hist =
    (Ret (inl (Broke (Some e))),
     EvLock (topic msg) (Partition (km msg))
       :: (pre ++ errorEvents (registered hs) (topic msg) t e)
       ++ (errorEvents (registered hs) (topic msg) (Background, km msg, data msg) e ++ tail)
       ++ [EvUnlock (topic msg) (Partition (km msg))]) /\
    count isOnError pre = 0%nat /\ count isOnError tail = 0%nat /\
    count isHandle (snd (handleMessage env (S fuel) c msg hist)) = 0%nat /\
    count isOnError (snd (handleMessage env (S fuel) c msg hist))
    = (2 * length (registered hs))%nat.
Proof.
  intros Hin Hhook HB.
  set (lock := EvLock (topic msg) (Partition (km msg))) in *.
  set (h1 := hist ++ [lock]) in *.
  (* what the chain did *)
  assert (Hpre : exists pre, evsB = pre ++ errorEvents (registered hs) (topic msg) t e /\
                             count isOnError pre = 0%nat /\ count isHandle evsB = 0%nat).
  { pose proof (beforeLoop_user env (registered hs) (registered hs) (topic msg)
                  (Background, km msg, data msg) h1) as Hu.
    assert (Heq : BeforeHandle (hook c) Background (topic msg) (km msg) (data msg) h1 =
                  beforeLoop (map (userHook env) (registered hs))
                             (map (userHook env) (registered hs)) (topic msg)
                             (Background, km msg, data msg) h1).
    { rewrite Hhook. unfold chainOf, registered. rewrite NewHookChain_user. reflexivity. }
    rewrite <- Heq, HB in Hu.
    destruct Hu as [(fin & Hr & _)|(pre & i & post & evs0 & at_ & res & e' & _ & Hth & _ & Hr & Hev)];
      [discriminate|].
    injection Hr as <- <-.
    exists (evs0 ++ [beforeEvent i (topic msg) t res]).
    split; [rewrite Hev, <- app_assoc; reflexivity|]. split.
    - rewrite count_app, (threaded_no_error _ _ _ _ _ Hth).
      destruct t as [[ctx km'] data']. reflexivity.
    - assert (Hq : hook_quiet (hook c)).
      { rewrite Hhook. unfold chainOf. apply HookChain_quiet.
        rewrite NewHookChain_user. apply Forall_map. apply Forall_forall.
        intros j _. apply userHook_quiet. }
      destruct Hq as (HqB & _ & _).
      specialize (HqB Background (topic msg) (km msg) (data msg) h1). rewrite HB in HqB.
      apply (count_hook isHandle evsB hook_not_handle HqB). }
  destruct Hpre as (pre & Hevs & Hpre0 & HhB).
  (* the loop ends at once *)
  pose proof (attemptLoop_before_error env fuel c msg 0 h1 t e evsB HB) as Hloop.
  (* the worker's own error hook *)
  assert (HE : OnError (hook c) Background (topic msg) (km msg) (data msg) e (h1 ++ evsB) =
               (Ret tt, errorEvents (registered hs) (topic msg)
                                    (Background, km msg, data msg) e)).
  { rewrite Hhook. unfold chainOf, registered. rewrite NewHookChain_user.
    cbn [OnError HookChain]. apply notifyAll_user. }
  destruct (settle_error env c msg e (h1 ++ evsB)) as (tail & Hsettle & Hyes & Hno).
  { now rewrite HE. }
  rewrite HE in Hsettle. cbn [snd] in Hsettle.
  assert (Htail : count isOnError tail = 0%nat /\ count isHandle tail = 0%nat).
  { destruct (dlqConfigured c).
    - destruct (Hyes eq_refl) as (now & res & commits & -> & Hall & _).
      cbn [count isOnError isHandle Nat.add].
      split; [apply (commits_no_error _ _ Hall)|].
      now destruct (commits_counts _ _ Hall) as (? & _). 
    - rewrite (Hno eq_refl). split; reflexivity. }
  destruct Htail as [Htail0 HtailH].
  pose proof (handleMessage_broke env (S fuel) c msg hist (Some e) evsB _ Hin Hloop Hsettle)
    as Hrun.
  fold lock in Hrun. rewrite Hevs in Hrun.
  exists pre, tail. split; [exact Hrun|]. split; [exact Hpre0|]. split; [exact Htail0|].
  rewrite Hrun. cbn [snd count isHandle isOnError Nat.add].
  rewrite !count_app, !errorEvents_count. cbn [count isHandle isOnError]. split.
  - rewrite <- count_app, <- Hevs, HhB, HtailH, errorEvents_no_handle. reflexivity.
  - rewrite Hpre0, Htail0. unfold lock. cbn [isOnError]. lia.
Qed.

End ChainExtras.

(** *** More runs *)

(** A handler that succeeds, and one that panics; the rest as in
    [failingEnv]. *)
Definition workingEnv : Env := {|
  hookBefore := hookBefore failingEnv;
  hookAfter := hookAfter failingEnv;
  hookOnError := hookOnError failingEnv;
  handle := fun _ _ _ _ => Ret None;
  stopDuring := stopDuring failingEnv;
  writeMessages := writeMessages failingEnv;
  commitMessages := commitMessages failingEnv;
  rand63 := rand63 failingEnv;
  clock := clock failingEnv |}.

Definition panickingEnv : Env := {|
  hookBefore := hookBefore failingEnv;
  hookAfter := hookAfter failingEnv;
  hookOnError := hookOnError failingEnv;
  handle := fun _ _ _ _ => Panic "assignment to entry in nil map";
  stopDuring := stopDuring failingEnv;
  writeMessages := writeMessages failingEnv;
  commitMessages := commitMessages failingEnv;
  rand63 := rand63 failingEnv;
  clock := clock failingEnv |}.

Example messageWorker_success_run :
  handleMessage workingEnv 3 withDLQ tickMsg [] =
  (Ret (inl (Broke None)),
   [EvLock "ticks" 3;
    EvHandle "ticks" [] "payload" (Ret None);
    EvCommitMessages tick None;
    EvUnlock "ticks" 3]).
Proof. vm_compute. reflexivity. Qed.

(** Three messages, two of one partition and one of another. *)
Example locksTaken_run :
  locksTaken (mkPartLocks ∅ 0) withDLQ
    [tickMsg; mkMsg "ticks" "p2" (mkMessage "ticks" 4 43 "ETH" "p2" [] 0);
     mkMsg "other" "p3" (mkMessage "other" 3 1 "" "p3" [] 0); tickMsg]
  = [Some 0%nat; Some 1%nat; None; Some 0%nat].
Proof. vm_compute. reflexivity. Qed.

Lemma worker_survives_witness :
  (exists r, fst (handleMessage panickingEnv 3 withDLQ tickMsg []) = Ret r /\
             r <> inl OutOfFuel) /\
  (forall msgs, fst (messageWorker panickingEnv 3 withDLQ msgs []) = Ret tt) /\
  (topic tickMsg ∈ handlers withDLQ ->
   exists mid,
     snd (handleMessage panickingEnv 3 withDLQ tickMsg []) =
     EvLock (topic tickMsg) (Partition (km tickMsg)) :: mid
       ++ [EvUnlock (topic tickMsg) (Partition (km tickMsg))] /\
     (hook_quiet (hook withDLQ) -> count isLock mid = 0%nat)) /\
  (topic tickMsg ∉ handlers withDLQ ->
   handleMessage panickingEnv 3 withDLQ tickMsg [] = (Ret (inl (Broke None)), [])) /\
  (locks_ok (mkPartLocks ∅ 0) /\
   forall (pl : PartLocks) (msgs : list message) (i j : nat) (mi mj : message)
          (li lj : nat),
     locks_ok pl ->
     msgs !! i = Some mi -> msgs !! j = Some mj ->
     locksTaken pl withDLQ msgs !! i = Some (Some li) ->
     locksTaken pl withDLQ msgs !! j = Some (Some lj) ->
     (li = lj <-> topic mi = topic mj /\ Partition (km mi) = Partition (km mj))).
Proof.
  apply (worker_survives panickingEnv 3 withDLQ tickMsg []).
  vm_compute. discriminate.
Defined.

Lemma outcome_decides_commit_witness :
  let '(r, evs) := handleMessage workingEnv 3 withDLQ tickMsg [] in
  (r = Ret (inl (Broke None)) ->
     count isWrite evs = 0%nat /\
     (topic tickMsg ∈ readers withDLQ -> (1 <= count isCommit evs)%nat)) /\
  (r = Ret (inl Stopped) ->
     count isWrite evs = 0%nat /\ count isCommit evs = 0%nat).
Proof.
  apply (outcome_decides_commit workingEnv 3 withDLQ tickMsg []).
  - apply (bool_decide_unpack _). vm_compute. exact I.
  - exact NoopHook_quiet.
Defined.

Lemma handler_panic_abandons_witness :
  handleMessage panickingEnv 3 withDLQ tickMsg [] =
  (Ret (inr "assignment to entry in nil map"%string),
   [EvLock (topic tickMsg) (Partition (km tickMsg));
    EvHandle (topic tickMsg) Background (data tickMsg)
             (Panic "assignment to entry in nil map");
    EvUnlock (topic tickMsg) (Partition (km tickMsg))]).
Proof.
  apply (handler_panic_abandons panickingEnv 2 withDLQ tickMsg []).
  - apply (bool_decide_unpack _). vm_compute. exact I.
  - reflexivity.
  - reflexivity.
Defined.

Lemma chain_error_notified_twice_witness :
  exists pre tail,
    handleMessage failingEnv 3 withRefusingHook tickMsg [] =
    (Ret (inl (Broke (Some (Err "invalid")))),
     EvLock (topic tickMsg) (Partition (km tickMsg))
       :: (pre ++ errorEvents (registered [Some 7%nat]) (topic tickMsg)
                              ([], tick, "payload"%string) (Err "invalid"))
       ++ (errorEvents (registered [Some 7%nat]) (topic tickMsg)
                       (Background, km tickMsg, data tickMsg) (Err "invalid") ++ tail)
       ++ [EvUnlock (topic tickMsg) (Partition (km tickMsg))]) /\
    count isOnError pre = 0%nat /\ count isOnError tail = 0%nat /\
    count isHandle (snd (handleMessage failingEnv 3 withRefusingHook tickMsg [])) = 0%nat /\
    count isOnError (snd (handleMessage failingEnv 3 withRefusingHook tickMsg []))
    = (2 * length (registered [Some 7%nat]))%nat.
Proof.
  apply (chain_error_notified_twice failingEnv 2 withRefusingHook tickMsg [] [Some 7%nat]
           ([], tick, "payload"%string) (Err "invalid")
           [EvBeforeHandle 7 [] "ticks" tick "payload"
              (Ret ([], tick, "payload"%string, Some (Err "invalid")));
            EvOnError 7 [] "ticks" tick "payload" (Err "invalid")]).
  - apply (bool_decide_unpack _). vm_compute. exact I.
  - reflexivity.
  - vm_compute. reflexivity.
Defined.

End Kafka.

(* ===================================================================== *)
(** ** package queue: the Redis queue *)
(* ===================================================================== *)

Module Queue.
Import GoTime.

Inductive QueueMode := ModeProducerConsumer | ModeProducerOnly | ModeConsumerOnly.

Record QueueConfig := mkQueueConfig {
  Workers : Z;
  QueueSize : Z;
  RetryLimit : Z;
  RetryDelay : Duration }.

(** A [Message]; the payload stands in its JSON encoding. *)
Record Message := mkMessage {
  ID : string;
  Type_ : string;
  Payload : string;
  Attempts : Z;
  Timestamp : Instant }.

(** The queue's own state: the jobs by the message type they handle (with
    their names), whether it runs, whether [stopCh] is closed. *)
Record RedisQueue := mkQueue {
  config : QueueConfig;
  jobs : gmap string string;
  isRunning : bool;
  stopClosed : bool;
  mode : QueueMode;
  keyPrefix : string }.

Inductive RedisQueueOption := WithKeyPrefix (prefix : string).

Definition isProducerOnly (m : QueueMode) : bool :=
  match m with ModeProducerOnly => true | _ => false end.

(** [NewRedisQueue]; a nil config is the zero config. *)
Definition NewRedisQueue (cfg : option QueueConfig) (m : QueueMode)
    (opts : list RedisQueueOption) : RedisQueue :=
  let cfg := match cfg with Some c => c | None => mkQueueConfig 0 0 0 0 end in
  let cfg := if (Workers cfg <=? 0)%Z
             then mkQueueConfig 1 (QueueSize cfg) (RetryLimit cfg) (RetryDelay cfg)
             else cfg in
  let cfg := if (RetryDelay cfg <=? 0)%Z
             then mkQueueConfig (Workers cfg) (QueueSize cfg) (RetryLimit cfg) (10 * Second)%Z
             else cfg in
  fold_left (fun rq opt =>
               match opt with
               | WithKeyPrefix prefix =>
                   mkQueue (config rq) (jobs rq) (isRunning rq) (stopClosed rq) (mode rq) prefix
               end)
            opts (mkQueue cfg ∅ false false m "finpull:queue").

(** [RegisterJob], for a job of the given name and message type. *)
Definition RegisterJob (r : RedisQueue) (name type : string) : RedisQueue :=
  if isProducerOnly (mode r) then r
  else match jobs r !! type with
       | Some _ => r
       | None => mkQueue (config r) (<[type := name]> (jobs r)) (isRunning r) (stopClosed r)
                         (mode r) (keyPrefix r)
       end.

Inductive error :=
  | ErrAlreadyRunning                (* "queue already running" *)
  | ErrRedisPing (cause : string)    (* "redis ping: %w" *)
  | ErrNotRunning                    (* "queue not running" *)
  | ErrNoJob (msgType : string)      (* "no job registered for type: %s" *)
  | ErrMarshal (cause : string)      (* "marshal message: %w" *)
  | ErrLPush (cause : string)        (* "lpush: %w" *)
  | ErrTimeout (cause : string).     (* "timeout: %w" *)

Definition setRunning (r : RedisQueue) (b : bool) : RedisQueue :=
  mkQueue (config r) (jobs r) b (stopClosed r) (mode r) (keyPrefix r).

(** [Start]; [ping] is the error of the ping, if any.  The number is that
    of the goroutines launched: the workers and the retry processor. *)
Definition Start (r : RedisQueue) (ping : option string) : option error * RedisQueue * nat :=
  if isRunning r then (Some ErrAlreadyRunning, r, 0%nat)
  else
    match ping with
    | Some cause => (Some (ErrRedisPing cause), setRunning r false, 0%nat)
    | None =>
        if isProducerOnly (mode r) then (None, setRunning r true, 0%nat)
        else (None, setRunning r true, (Z.to_nat (Workers (config r)) + 1)%nat)
    end.

(** [Stop]; [timeout] is the error of the context if it ends before the
    workers do.  [None] is the panic of closing the closed [stopCh]. *)
Definition Stop (r : RedisQueue) (timeout : option string) : option (option error * RedisQueue) :=
  if negb (isRunning r) then Some (None, r)
  else
    let closing := negb (isProducerOnly (mode r)) in
    if closing && stopClosed r then None
    else
      let r := mkQueue (config r) (jobs r) false (closing || stopClosed r) (mode r)
                       (keyPrefix r) in
      match timeout with
      | Some cause => Some (Some (ErrTimeout cause), r)
      | None => Some (None, r)
      end.

Definition getQueueKey (r : RedisQueue) : string := keyPrefix r ++ ":messages".
Definition getRetryKey (r : RedisQueue) : string := keyPrefix r ++ ":retry".
Definition getDeadLetterKey (r : RedisQueue) : string := keyPrefix r ++ ":dlq".

(** The commands sent to Redis; the score of [ZAdd] is the Unix time in
    seconds, before its conversion to float64. *)
Inductive Command :=
  | LPush (key : string) (msg : Message)
  | ZAdd (key : string) (score : Z) (msg : Message).

(** [Enqueue]; [payload] is the JSON of the payload or the error of
    marshalling it, [lpush] the error of the command, if any. *)
Definition Enqueue (r : RedisQueue) (now : Instant) (msgType : string)
    (payload : string + string) (lpush : option string) : option error * list Command :=
  if negb (isRunning r) then (Some ErrNotRunning, [])
  else if negb (isProducerOnly (mode r)) && negb (bool_decide (is_Some (jobs r !! msgType)))
  then (Some (ErrNoJob msgType), [])
  else
    match payload with
    | inr cause => (Some (ErrMarshal cause), [])
    | inl json =>
        let msg := mkMessage (pretty (UnixNano now)) msgType json 0 now in
        (match lpush with Some cause => Some (ErrLPush cause) | None => None end,
         [LPush (getQueueKey r) msg])
    end.

(** How a job's [Handle] ends. *)
Inductive JobResult := JobDone | JobCanceled | JobFailed (cause : string).

Definition bump (msg : Message) : Message :=
  mkMessage (ID msg) (Type_ msg) (Payload msg) (wrap64 (Attempts msg + 1)) (Timestamp msg).

(** [handleProcessingError]: a retry scheduled at [now + RetryDelay], or
    the dead-letter list. *)
Definition handleProcessingError (r : RedisQueue) (now : Instant) (msg : Message)
    : list Command :=
  if (Attempts msg <? RetryLimit (config r))%Z
  then [ZAdd (getRetryKey r) (Unix (now + RetryDelay (config r))%Z) (bump msg)]
  else [LPush (getDeadLetterKey r) msg].

(** [processMessage]; [handle] is the job's handler, [now] the time when
    it returned. *)
Definition processMessage (r : RedisQueue) (handle : Message -> JobResult) (now : Instant)
    (msg : Message) : list Command :=
  match jobs r !! Type_ msg with
  | None => []
  | Some _ =>
      match handle msg with
      | JobFailed _ => handleProcessingError r now msg
      | _ => []
      end
  end.

(** The life of one message when Redis hands every scheduled retry back
    to a worker: the deliveries, in order, until one of them schedules no
    retry, and the commands of the last. *)
Fixpoint deliveries (fuel : nat) (r : RedisQueue) (handle : Message -> JobResult)
    (clock : nat -> Instant) (msg : Message) : list Message * list Command :=
  match fuel with
  | O => ([], [])
  | S fuel =>
      match processMessage r handle (clock fuel) msg with
      | [ZAdd _ _ msg'] =>
          let '(seen, final) := deliveries fuel r handle clock msg' in (msg :: seen, final)
      | final => ([msg], final)
      end
  end.

Definition withAttempts (msg : Message) (n : Z) : Message :=
  mkMessage (ID msg) (Type_ msg) (Payload msg) n (Timestamp msg).

Lemma deliveries_failing (fuel : nat) (r : RedisQueue) (handle : Message -> JobResult)
    (clock : nat -> Instant) (msg : Message) :
  is_Some (jobs r !! Type_ msg) ->
  (forall m, exists cause, handle m = JobFailed cause) ->
  (0 <= Attempts msg <= RetryLimit (config r))%Z ->
  (RetryLimit (config r) < 2 ^ 63)%Z ->
  (RetryLimit (config r) - Attempts msg < Z.of_nat fuel)%Z ->
  deliveries fuel r handle clock msg =
  (map (fun i => withAttempts msg (Attempts msg + Z.of_nat i))
       (seq 0 (Z.to_nat (RetryLimit (config r) - Attempts msg) + 1)),
   [LPush (getDeadLetterKey r) (withAttempts msg (RetryLimit (config r)))]).
Proof.
  revert msg. induction fuel as [|fuel IH]; intros msg Hjob Hfail Ha Hmax Hfuel; [lia|].
  cbn [deliveries]. unfold processMessage. destruct Hjob as [name Hjob]. rewrite Hjob.
  destruct (Hfail msg) as [cause ->]. unfold handleProcessingError.
  assert (Hmsg : withAttempts msg (Attempts msg) = msg) by (now destruct msg).
  assert (Hmsg0 : withAttempts msg (Attempts msg + Z.of_nat 0) = msg).
  { change (Z.of_nat 0) with 0%Z. now rewrite Z.add_0_r. }
  destruct (Z.ltb_spec (Attempts msg) (RetryLimit (config r))) as [Hlt|Hge].
  - assert (Hb : bump msg = withAttempts msg (Attempts msg + 1)).
    { unfold bump, withAttempts. now rewrite wrap64_small by lia. }
    rewrite Hb. rewrite IH; cbn [withAttempts Type_ Attempts].
    + replace (Z.to_nat (RetryLimit (config r) - Attempts msg) + 1)%nat
        with (S (Z.to_nat (RetryLimit (config r) - (Attempts msg + 1)) + 1)) by lia.
      cbn [seq map]. rewrite Hmsg0. f_equal. f_equal.
      rewrite <- seq_shift, map_map. apply map_ext. intros i.
      unfold withAttempts. cbn. f_equal. lia.
    + eauto.
    + exact Hfail.
    + lia.
    + exact Hmax.
    + lia.
  - replace (RetryLimit (config r) - Attempts msg)%Z with 0%Z by lia.
    change (Z.to_nat 0 + 1)%nat with 1%nat. cbn [seq map]. rewrite Hmsg0.
    replace (RetryLimit (config r)) with (Attempts msg) by lia. now rewrite Hmsg.
Qed.

(** X29. Retries are bounded.  A message whose job fails every time is
    delivered exactly [RetryLimit + 1] times, with [Attempts] counting
    0, 1, ..., [RetryLimit], each failure but the last scheduling the
    next delivery in the retry set, and the last failure pushes the
    message, with [Attempts = RetryLimit], on the dead-letter list.  With
    the zero configuration there is no retry at all: the first failure
    is the dead letter. *)
Theorem retries_bounded (fuel : nat) (r : RedisQueue) (handle : Message -> JobResult)
    (clock : nat -> Instant) (msg : Message) :
  is_Some (jobs r !! Type_ msg) ->
  (forall m, exists cause, handle m = JobFailed cause) ->
  Attempts msg = 0%Z ->
  (0 <= RetryLimit (config r) < 2 ^ 63)%Z ->
  (RetryLimit (config r) < Z.of_nat fuel)%Z ->
  let '(seen, final) := deliveries fuel r handle clock msg in
  Z.of_nat (length seen) = (RetryLimit (config r) + 1)%Z /\
  map Attempts seen = map Z.of_nat (seq 0 (Z.to_nat (RetryLimit (config r)) + 1)) /\
  Forall (fun m => ID m = ID msg /\ Type_ m = Type_ msg /\ Payload m = Payload msg) seen /\
  final = [LPush (getDeadLetterKey r) (withAttempts msg (RetryLimit (config r)))] /\
  (RetryLimit (config r) = 0%Z -> seen = [msg] /\ final = [LPush (getDeadLetterKey r) msg]).
Proof.
  intros Hjob Hfail Ha Hlim Hfuel.
  rewrite (deliveries_failing fuel r handle clock msg Hjob Hfail) by lia.
  rewrite Ha, Z.sub_0_r. split; [rewrite length_map, length_seq; lia|].
  split; [rewrite map_map; apply map_ext; intros i; cbn; lia|].
  split; [apply Forall_map, Forall_forall; intros i _; cbn; auto|].
  split; [reflexivity|].
  intros H0. rewrite H0.
  assert (Hmsg : withAttempts msg 0 = msg) by (destruct msg; cbn in *; now subst).
  change (Z.to_nat 0 + 1)%nat with 1%nat. cbn [seq map]. change (0 + Z.of_nat 0)%Z with 0%Z.
  rewrite Hmsg. split; reflexivity.
Qed.

Definition sampleQueue : RedisQueue :=
  RegisterJob (NewRedisQueue (Some (mkQueueConfig 2 0 3 0)) ModeConsumerOnly []) "mailer" "mail".

Lemma retries_bounded_witness :
  let '(seen, final) :=
    deliveries 5 sampleQueue (fun _ => JobFailed "smtp down") (fun _ => 0%Z)
               (mkMessage "1" "mail" "{}" 0 0%Z) in
  Z.of_nat (length seen) = (RetryLimit (config sampleQueue) + 1)%Z /\
  map Attempts seen = map Z.of_nat (seq 0 (Z.to_nat (RetryLimit (config sampleQueue)) + 1)) /\
  Forall (fun m => ID m = ID (mkMessage "1" "mail" "{}" 0 0%Z) /\
                   Type_ m = Type_ (mkMessage "1" "mail" "{}" 0 0%Z) /\
                   Payload m = Payload (mkMessage "1" "mail" "{}" 0 0%Z)) seen /\
  final = [LPush (getDeadLetterKey sampleQueue)
                 (withAttempts (mkMessage "1" "mail" "{}" 0 0%Z) (RetryLimit (config sampleQueue)))] /\
  (RetryLimit (config sampleQueue) = 0%Z ->
   seen = [mkMessage "1" "mail" "{}" 0 0%Z] /\
   final = [LPush (getDeadLetterKey sampleQueue) (mkMessage "1" "mail" "{}" 0 0%Z)]).
Proof.
  apply (retries_bounded 5 sampleQueue (fun _ => JobFailed "smtp down") (fun _ => 0%Z)
           (mkMessage "1" "mail" "{}" 0 0%Z)).
  - vm_compute. eauto.
  - intros m. eauto.
  - reflexivity.
  - vm_compute. split; [discriminate|reflexivity].
  - vm_compute. reflexivity.
Defined.

Example deliveries_run :
  deliveries 5 sampleQueue (fun _ => JobFailed "smtp down")
             (fun _ => 63000000000000000000%Z) (mkMessage "1" "mail" "{}" 0 0%Z) =
  ([mkMessage "1" "mail" "{}" 0 0%Z; mkMessage "1" "mail" "{}" 1 0%Z;
    mkMessage "1" "mail" "{}" 2 0%Z; mkMessage "1" "mail" "{}" 3 0%Z],
   [LPush "finpull:queue:dlq" (mkMessage "1" "mail" "{}" 3 0%Z)]).
Proof. vm_compute. reflexivity. Qed.

(** X30. A queue runs once.  [Start] on a running queue is refused and a
    failed ping leaves it stopped; [Stop] on a stopped queue does
    nothing, and [Enqueue] is refused before [Start] and after [Stop].
    After one [Start] and [Stop], a queue in a consumer mode can be
    started again, but the [Stop] that follows panics on closing the
    closed stop channel; a producer-only queue, which closes nothing,
    stops again. *)
Theorem queue_runs_once (r : RedisQueue) :
  isRunning r = false -> stopClosed r = false ->
  (forall cause, Start r (Some cause) = (Some (ErrRedisPing cause), r, 0%nat)) /\
  (forall now t p l, Enqueue r now t p l = (Some ErrNotRunning, [])) /\
  Stop r None = Some (None, r) /\
  let r1 := snd (fst (Start r None)) in
  fst (fst (Start r None)) = None /\ isRunning r1 = true /\
  (forall ping, Start r1 ping = (Some ErrAlreadyRunning, r1, 0%nat)) /\
  exists r2,
    Stop r1 None = Some (None, r2) /\ isRunning r2 = false /\
    (forall now t p l, Enqueue r2 now t p l = (Some ErrNotRunning, [])) /\
    Stop r2 None = Some (None, r2) /\
    fst (fst (Start r2 None)) = None /\
    (isProducerOnly (mode r) = false -> Stop (snd (fst (Start r2 None))) None = None) /\
    (isProducerOnly (mode r) = true ->
     Stop (snd (fst (Start r2 None))) None = Some (None, r2)).
Proof.
  intros Hrun Hclosed. destruct r as [cfg js run closed md prefix]. cbn in Hrun, Hclosed.
  subst run closed. unfold Start, Stop, Enqueue, setRunning. cbn.
  split; [reflexivity|]. split; [reflexivity|]. split; [reflexivity|].
  destruct md; cbn; repeat split; eexists; cbn; repeat split; intros; try discriminate;
    try reflexivity.
Qed.

Lemma queue_runs_once_witness :
  (forall cause, Start sampleQueue (Some cause) = (Some (ErrRedisPing cause), sampleQueue, 0%nat)) /\
  (forall now t p l, Enqueue sampleQueue now t p l = (Some ErrNotRunning, [])) /\
  Stop sampleQueue None = Some (None, sampleQueue) /\
  let r1 := snd (fst (Start sampleQueue None)) in
  fst (fst (Start sampleQueue None)) = None /\ isRunning r1 = true /\
  (forall ping, Start r1 ping = (Some ErrAlreadyRunning, r1, 0%nat)) /\
  exists r2,
    Stop r1 None = Some (None, r2) /\ isRunning r2 = false /\
    (forall now t p l, Enqueue r2 now t p l = (Some ErrNotRunning, [])) /\
    Stop r2 None = Some (None, r2) /\
    fst (fst (Start r2 None)) = None /\
    (isProducerOnly (mode sampleQueue) = false ->
     Stop (snd (fst (Start r2 None))) None = None) /\
    (isProducerOnly (mode sampleQueue) = true ->
     Stop (snd (fst (Start r2 None))) None = Some (None, r2)).
Proof. apply (queue_runs_once sampleQueue); reflexivity. Defined.

End Queue.
